(** * Vidmanager: ingestion, sidecar matching, subtitle transcoding, relinking

    A shallow embedding of the algorithmic core of the video library manager
    ([src/types.ts], [services/fileUtils], the reducer and the import/export
    handlers of [src/App.tsx]) together with the properties its specification
    states about it.

    JavaScript strings are modelled as lists of characters.  The alphabet is
    the 8-bit range U+0000..U+00FF of UTF-16 code units; every string
    primitive below follows the ECMAScript definition on that range. *)

From Stdlib Require Import List Ascii ZArith Bool Arith Lia DecimalString.
From Stdlib Require Import Sorted Permutation.
From Stdlib Require String.
Import ListNotations.
Import String.StringSyntax.

Open Scope Z_scope.

(** ** JavaScript string and array primitives *)

Definition jsstring := list ascii.

Definition str (s : String.string) : jsstring := String.list_ascii_of_string s.
Arguments str s%_string_scope.

Definition LF : ascii := ascii_of_nat 10.
Definition CR : ascii := ascii_of_nat 13.

Fixpoint jseqb (a b : jsstring) : bool :=
  match a, b with
  | [], [] => true
  | c :: a', d :: b' => Ascii.eqb c d && jseqb a' b'
  | _, _ => false
  end.

(** A string is falsy exactly when it is empty. *)
Definition truthy (s : jsstring) : bool :=
  match s with [] => false | _ :: _ => true end.

(** [String.prototype.toLowerCase] on the alphabet U+0000..U+00FF: A..Z and
    the upper-case letters of the Latin-1 block (U+00C0..U+00DE without
    U+00D7) move up by 32.  On this range the function works character by
    character and keeps the length.  Beyond it it does neither (a capital
    sigma is lowered according to its place in the word, a dotted capital I
    to two code units); names with such characters are outside this
    development. *)
Definition toLowerChar (c : ascii) : ascii :=
  let n := nat_of_ascii c in
  if (((65 <=? n) && (n <=? 90)) ||
      ((192 <=? n) && (n <=? 222) && negb (n =? 215)))%nat
  then ascii_of_nat (n + 32) else c.

Definition toLowerCase (s : jsstring) : jsstring := map toLowerChar s.

Fixpoint startsWith (s p : jsstring) {struct p} : bool :=
  match p, s with
  | [], _ => true
  | _ :: _, [] => false
  | c :: p', d :: s' => Ascii.eqb c d && startsWith s' p'
  end.

(** [s.endsWith(p)]: the search starts at [length s - length p] and fails
    when that is negative. *)
Definition endsWith (s p : jsstring) : bool :=
  (length p <=? length s)%nat && jseqb (skipn (length s - length p) s) p.

Fixpoint includes (s p : jsstring) : bool :=
  startsWith s p ||
  match s with
  | [] => false
  | _ :: s' => includes s' p
  end.

Fixpoint indexOfAux (c : ascii) (s : jsstring) (i : Z) : Z :=
  match s with
  | [] => -1
  | d :: s' => if Ascii.eqb d c then i else indexOfAux c s' (i + 1)
  end.

(** [s.indexOf(c, pos)] for a one-character search string. *)
Definition indexOf (s : jsstring) (c : ascii) (pos : Z) : Z :=
  let k := Z.to_nat (Z.max 0 pos) in
  indexOfAux c (skipn k s) (Z.of_nat k).

Fixpoint lastIndexOfAux (c : ascii) (s : jsstring) (i acc : Z) : Z :=
  match s with
  | [] => acc
  | d :: s' => lastIndexOfAux c s' (i + 1) (if Ascii.eqb d c then i else acc)
  end.

(** [s.lastIndexOf(c)] for a one-character search string. *)
Definition lastIndexOf (s : jsstring) (c : ascii) : Z :=
  lastIndexOfAux c s 0 (-1).

(** [s.substring(a, b)]: both bounds are clamped to [0, length s] and
    swapped when out of order. *)
Definition substring (s : jsstring) (a b : Z) : jsstring :=
  let len := Z.of_nat (length s) in
  let fs := Z.min (Z.max a 0) len in
  let fe := Z.min (Z.max b 0) len in
  let from := Z.min fs fe in
  let to := Z.max fs fe in
  firstn (Z.to_nat (to - from)) (skipn (Z.to_nat from) s).

(** [s.substring(a)]. *)
Definition substringFrom (s : jsstring) (a : Z) : jsstring :=
  substring s a (Z.of_nat (length s)).

(** [s.split(c)] for a one-character separator. *)
Fixpoint split (c : ascii) (s : jsstring) : list jsstring :=
  match s with
  | [] => [[]]
  | d :: s' =>
      if Ascii.eqb d c then [] :: split c s'
      else match split c s' with
           | seg :: segs => (d :: seg) :: segs
           | [] => [[d]]
           end
  end.

(** [parts.join(sep)]. *)
Fixpoint join (sep : jsstring) (parts : list jsstring) : jsstring :=
  match parts with
  | [] => []
  | [p] => p
  | p :: ps => p ++ sep ++ join sep ps
  end.

(** [s.padEnd(n, fill)]. *)
Definition padEnd (s : jsstring) (n : nat) (fill : jsstring) : jsstring :=
  if ((n <=? length s)%nat || negb (truthy fill)) then s
  else s ++ firstn (n - length s) (concat (repeat fill (n - length s))).

(** [arr.pop()] on a fresh array: the last element, [undefined] on []. *)
Definition pop {A : Type} (l : list A) : option A :=
  match rev l with
  | [] => None
  | x :: _ => Some x
  end.

(** [arr.slice(0, -1)]. *)
Definition sliceInit {A : Type} (l : list A) : list A := removelast l.

(** [arr.slice(n)]. *)
Definition sliceFrom {A : Type} (n : nat) (l : list A) : list A := skipn n l.

(** [x || d] on a possibly undefined string. *)
Definition orElse (x : option jsstring) (d : jsstring) : jsstring :=
  match x with
  | Some s => if truthy s then s else d
  | None => d
  end.

Definition isDigit (c : ascii) : bool :=
  let n := nat_of_ascii c in ((48 <=? n) && (n <=? 57))%nat.

(** ** [src/types.ts] *)

(** The platform's [File] object: the fields the program reads, and the text
    that [file.text()] resolves to. *)
Module File.
Record t := mk {
  name : jsstring;
  webkitRelativePath : jsstring;
  type : jsstring;
  size : Z;
  text : jsstring
}.
End File.

Module VideoMetadata.
Record t := mk {
  title : jsstring;
  plot : jsstring;
  tags : list jsstring
}.

(** [Partial<VideoMetadata>]: each field may be missing. *)
Record partial := mkPartial {
  ptitle : option jsstring;
  pplot : option jsstring;
  ptags : option (list jsstring)
}.

(** The object spread [{ ...m, ...p }]: an own field of [p] replaces the
    field of [m] as a whole. *)
Definition spread (m : t) (p : partial) : t :=
  {| title := match ptitle p with Some x => x | None => title m end;
     plot := match pplot p with Some x => x | None => plot m end;
     tags := match ptags p with Some x => x | None => tags m end |}.
End VideoMetadata.

(** A subtitle track.  The handle is a live [File] during the session that
    ingested it; [None] stands for the empty object that is left of it once
    the index went through JSON. *)
Module SubtitleTrack.
Record t := mk {
  label : jsstring;
  language : jsstring;
  fileHandle : option File.t
}.
End SubtitleTrack.

Module VideoAsset.
Record t := mk {
  id : jsstring;
  collectionId : jsstring;
  fileName : jsstring;
  relativePath : jsstring;
  fileHandle : option File.t;
  thumbnailUrl : option jsstring;
  metadata : VideoMetadata.t;
  size : Z;
  subtitles : list SubtitleTrack.t
}.

(** [{ ...v, fileHandle: h }] *)
Definition withFileHandle (v : t) (h : option File.t) : t :=
  {| id := id v; collectionId := collectionId v; fileName := fileName v;
     relativePath := relativePath v; fileHandle := h;
     thumbnailUrl := thumbnailUrl v; metadata := metadata v;
     size := size v; subtitles := subtitles v |}.

(** [{ ...v, metadata: m }] *)
Definition withMetadata (v : t) (m : VideoMetadata.t) : t :=
  {| id := id v; collectionId := collectionId v; fileName := fileName v;
     relativePath := relativePath v; fileHandle := fileHandle v;
     thumbnailUrl := thumbnailUrl v; metadata := m;
     size := size v; subtitles := subtitles v |}.
End VideoAsset.

Module Collection.
Record t := mk {
  id : jsstring;
  name : jsstring;
  thumbnailUrl : option jsstring
}.
End Collection.

Record AppState := mkAppState {
  collections : list Collection.t;
  videos : list VideoAsset.t
}.

Definition SUPPORTED_EXTENSIONS : list jsstring :=
  [str ".mp4"; str ".mkv"; str ".ts"; str ".rmvb"; str ".avi"; str ".flv";
   str ".webm"].

Definition SUBTITLE_EXTENSIONS : list jsstring :=
  [str ".srt"; str ".vtt"; str ".ass"; str ".ssa"].

(** ** [services/fileUtils] *)

Definition isVideoFile (file : File.t) : bool :=
  existsb (fun ext => endsWith (toLowerCase (File.name file)) ext)
          SUPPORTED_EXTENSIONS.

Definition isSubtitleFile (file : File.t) : bool :=
  existsb (fun ext => endsWith (toLowerCase (File.name file)) ext)
          SUBTITLE_EXTENSIONS.

(** *** Format A (SRT) *)

(** [text.replace(/\r\n/g, '\n')] *)
Fixpoint replaceCRLF (s : jsstring) : jsstring :=
  match s with
  | c :: ((d :: rest) as tl) =>
      if Ascii.eqb c CR && Ascii.eqb d LF then LF :: replaceCRLF rest
      else c :: replaceCRLF tl
  | _ => s
  end.

(** [text.replace(/\r/g, '\n')] *)
Definition replaceCR (s : jsstring) : jsstring :=
  map (fun c => if Ascii.eqb c CR then LF else c) s.

(** The pattern [(\d{2}:\d{2}:\d{2}),(\d{3})] matches at the head of [s]. *)
Definition timestampAt (s : jsstring) : bool :=
  match s with
  | h1 :: h2 :: c1 :: m1 :: m2 :: c2 :: s1 :: s2 :: k :: f1 :: f2 :: f3 :: _ =>
      isDigit h1 && isDigit h2 && Ascii.eqb c1 ":" &&
      isDigit m1 && isDigit m2 && Ascii.eqb c2 ":" &&
      isDigit s1 && isDigit s2 && Ascii.eqb k "," &&
      isDigit f1 && isDigit f2 && isDigit f3
  | _ => false
  end.

(** [text.replace(/(\d{2}:\d{2}:\d{2}),(\d{3})/g, '$1.$2')]: the scan goes
    left to right; after a match it resumes behind the matched text. *)
Fixpoint replaceTimestamps (s : jsstring) : jsstring :=
  match s with
  | [] => []
  | c :: tl =>
      if timestampAt s then
        match s with
        | h1 :: h2 :: c1 :: m1 :: m2 :: c2 :: s1 :: s2 :: _ :: f1 :: f2 :: f3 :: rest =>
            h1 :: h2 :: c1 :: m1 :: m2 :: c2 :: s1 :: s2 :: "."%char
               :: f1 :: f2 :: f3 :: replaceTimestamps rest
        | _ => c :: replaceTimestamps tl
        end
      else c :: replaceTimestamps tl
  end.

Definition WEBVTT_HEADER : jsstring := str "WEBVTT" ++ [LF; LF].

Definition srtToVtt (srtContent : jsstring) : jsstring :=
  let vtt := WEBVTT_HEADER in
  let text := replaceCR (replaceCRLF srtContent) in
  let text := replaceTimestamps text in
  vtt ++ text.

(** *** Format B (ASS) *)

(** [assContent.split(/\r?\n/)] *)
Fixpoint splitLines (s : jsstring) : list jsstring :=
  match s with
  | [] => [[]]
  | c :: tl =>
      let keep := match splitLines tl with
                  | l :: ls => (c :: l) :: ls
                  | [] => [[c]]
                  end in
      if Ascii.eqb c LF then [] :: splitLines tl
      else if Ascii.eqb c CR then
        match tl with
        | d :: rest => if Ascii.eqb d LF then [] :: splitLines rest else keep
        | [] => keep
        end
      else keep
  end.

Fixpoint findNthLoop (s : jsstring) (c : ascii) (n : nat) (index : Z) : Z :=
  match n with
  | O => index
  | S n' =>
      let index' := indexOf s c (index + 1) in
      if index' =? -1 then index' else findNthLoop s c n' index'
  end.

Definition findNthOccurrence (s : jsstring) (c : ascii) (n : nat) : Z :=
  findNthLoop s c n (-1).

(** What follows a match of [[^}]+}] at the head of [s]; [seen] records that
    the run [[^}]+] is not empty. *)
Fixpoint afterTagBody (s : jsstring) (seen : bool) : option jsstring :=
  match s with
  | [] => None
  | c :: tl =>
      if Ascii.eqb c "}" then (if seen then Some tl else None)
      else afterTagBody tl true
  end.

(** [text.replace(/{[^}]+}/g, '')], with the length of the text as fuel:
    every step of the scan consumes at least one character. *)
Fixpoint stripTagsFuel (fuel : nat) (s : jsstring) : jsstring :=
  match fuel with
  | O => s
  | S fuel' =>
      match s with
      | [] => []
      | c :: tl =>
          if Ascii.eqb c "{" then
            match afterTagBody tl false with
            | Some rest => stripTagsFuel fuel' rest
            | None => c :: stripTagsFuel fuel' tl
            end
          else c :: stripTagsFuel fuel' tl
      end
  end.

Definition stripTags (s : jsstring) : jsstring := stripTagsFuel (length s) s.

(** [text.replace(/\\N/g, '\n')] for [e = "N"], [/\\n/g] for [e = "n"]. *)
Fixpoint replaceEscape (e : ascii) (s : jsstring) : jsstring :=
  match s with
  | c :: ((d :: rest) as tl) =>
      if Ascii.eqb c "\" && Ascii.eqb d e then LF :: replaceEscape e rest
      else c :: replaceEscape e tl
  | _ => s
  end.

Definition formatTime (t : jsstring) : jsstring :=
  let parts := split "." t in
  let hms := nth 0 parts [] in
  let cs := orElse (nth_error parts 1) (str "00") in
  hms ++ str "." ++ padEnd cs 3 (str "0").

(** The body of the loop over the lines: the cue a line contributes to the
    output, the empty string when the line is skipped. *)
Definition assLine (line : jsstring) : jsstring :=
  if startsWith line (str "Dialogue:") then
    let firstComma := indexOf line "," 0 in
    if firstComma =? -1 then []
    else
      let rest := substringFrom line (firstComma + 1) in
      let parts := split "," rest in
      if (9 <=? length parts)%nat then
        let start := nth 1 parts [] in
        let end_ := nth 2 parts [] in
        let textStartIdx := findNthOccurrence rest "," 9 in
        let text :=
          if negb (textStartIdx =? -1) then substringFrom rest (textStartIdx + 1)
          else join (str ",") (sliceFrom 9 parts) in
        let text := stripTags text in
        let text := replaceEscape "N" text in
        let text := replaceEscape "n" text in
        formatTime start ++ str " --> " ++ formatTime end_ ++ [LF]
          ++ text ++ [LF; LF]
      else []
  else [].

Definition assToVtt (assContent : jsstring) : jsstring :=
  let lines := splitLines assContent in
  fold_left (fun vtt line => vtt ++ assLine line) lines WEBVTT_HEADER.

(** *** Metadata sidecar, thumbnails, identifiers

    The DOM parser, the video decoder, the object-URL registry and the random
    UUID source belong to the platform; the code below is parametric in
    them. *)

Record Platform := mkPlatform {
  (** [URL.createObjectURL(file)] *)
  createObjectURL : File.t -> jsstring;
  (** what [generateVideoThumbnail(file)] resolves to; empty on failure *)
  generateVideoThumbnail : File.t -> jsstring;
  (** the result of the n-th call of [crypto.randomUUID()] *)
  generateUUID : nat -> jsstring;
  (** [textContent] of [xmlDoc.querySelector(sel)] in the document parsed
      from a text; [None] when no element matches *)
  querySelector : jsstring -> jsstring -> option jsstring;
  (** [textContent] of each element of [xmlDoc.querySelectorAll(sel)] *)
  querySelectorAll : jsstring -> jsstring -> list jsstring
}.

Definition parseNFO (P : Platform) (file : File.t) : VideoMetadata.partial :=
  let text := File.text file in
  let title := orElse (querySelector P text (str "title")) [] in
  let plot := orElse (querySelector P text (str "plot"))
                (orElse (querySelector P text (str "outline")) []) in
  let tags :=
    filter truthy
      (map (fun el => orElse (Some el) []) (querySelectorAll P text (str "genre"))) in
  let tags :=
    fold_left (fun tags el => if truthy el then tags ++ [el] else tags)
      (querySelectorAll P text (str "tag")) tags in
  VideoMetadata.mkPartial (Some title) (Some plot) (Some tags).

(** ** [src/App.tsx] *)

(** *** The built-in [Map]: insertion-ordered, [set] on a present key
    replaces the value and keeps the key's position. *)
Module JsMap.
Section Defs.
Context {V : Type}.

Definition t := list (jsstring * V).

Fixpoint get (m : t) (k : jsstring) : option V :=
  match m with
  | [] => None
  | (k', v) :: m' => if jseqb k' k then Some v else get m' k
  end.

Fixpoint set (m : t) (k : jsstring) (v : V) : t :=
  match m with
  | [] => [(k, v)]
  | (k', v') :: m' =>
      if jseqb k' k then (k', v) :: m' else (k', v') :: set m' k v
  end.

Definition has (m : t) (k : jsstring) : bool :=
  match get m k with Some _ => true | None => false end.

Definition entries (m : t) : list (jsstring * V) := m.
End Defs.
Arguments t : clear implicits.

(** [m.get(k)?.push(x)] on a map of arrays. *)
Definition push {A : Type} (m : t (list A)) (k : jsstring) (x : A) : t (list A) :=
  match get m k with
  | Some l => set m k (l ++ [x])
  | None => m
  end.
End JsMap.

(** *** Ingestion *)

Module FolderImage.
Record t := mk { name : jsstring; url : jsstring }.
End FolderImage.

Definition dirOf (file : File.t) : jsstring :=
  let pathParts := split "/" (File.webkitRelativePath file) in
  join (str "/") (sliceInit pathParts).

Definition nameWithoutExt (file : File.t) : jsstring :=
  toLowerCase
    (substring (File.name file) 0 (lastIndexOf (File.name file) ".")).

Definition Index : Type :=
  (JsMap.t (list FolderImage.t) * JsMap.t (list File.t))%type.

(** Step 1 of [handleImportFiles]: one iteration of the indexing loop. *)
Definition indexFile (P : Platform) (ix : Index) (file : File.t) : Index :=
  let '(folderImages, folderSubtitles) := ix in
  let dir := dirOf file in
  if startsWith (File.type file) (str "image/") then
    let url := createObjectURL P file in
    let folderImages :=
      if negb (JsMap.has folderImages dir) then JsMap.set folderImages dir []
      else folderImages in
    (JsMap.push folderImages dir (FolderImage.mk (nameWithoutExt file) url),
     folderSubtitles)
  else if isSubtitleFile file then
    let folderSubtitles :=
      if negb (JsMap.has folderSubtitles dir) then JsMap.set folderSubtitles dir []
      else folderSubtitles in
    (folderImages, JsMap.push folderSubtitles dir file)
  else ix.

Definition buildIndex (P : Platform) (files : list File.t) : Index :=
  fold_left (indexFile P) files ([], []).

Definition priorityNames : list jsstring :=
  [str "poster"; str "cover"; str "folder"; str "default"].

(** [!thumbUrl] on [string | undefined] *)
Definition unset (thumbUrl : option jsstring) : bool :=
  match thumbUrl with
  | Some u => negb (truthy u)
  | None => true
  end.

Definition isPriorityName (asset : FolderImage.t) : bool :=
  existsb (fun n => jseqb n (FolderImage.name asset)) priorityNames.

Definition hasPoster (asset : FolderImage.t) : bool :=
  includes (FolderImage.name asset) (str "poster").

Definition isExactName (videoNameWithoutExt : jsstring) (asset : FolderImage.t) : bool :=
  jseqb (FolderImage.name asset) videoNameWithoutExt.

(** "Determine Thumbnail": the value stored in [thumbnailUrl]. *)
Definition selectThumbnail (P : Platform) (assetsInFolder : list FolderImage.t)
    (videoNameWithoutExt : jsstring) (file : File.t) : option jsstring :=
  let thumbUrl : option jsstring := None in
  let priorityMatch := find isPriorityName assetsInFolder in
  let thumbUrl :=
    match priorityMatch with
    | Some m => Some (FolderImage.url m)
    | None => thumbUrl
    end in
  let thumbUrl :=
    if unset thumbUrl then
      match find hasPoster assetsInFolder with
      | Some m => Some (FolderImage.url m)
      | None => thumbUrl
      end
    else thumbUrl in
  let thumbUrl :=
    if unset thumbUrl then
      match find (isExactName videoNameWithoutExt) assetsInFolder with
      | Some m => Some (FolderImage.url m)
      | None => thumbUrl
      end
    else thumbUrl in
  let thumbUrl :=
    if unset thumbUrl then Some (generateVideoThumbnail P file) else thumbUrl in
  if unset thumbUrl then None else thumbUrl.

(** "Determine Subtitles" *)
Definition matchSubtitles (subsInFolder : list File.t)
    (videoNameWithoutExt : jsstring) : list File.t :=
  filter (fun sub =>
            let subName := toLowerCase (File.name sub) in
            startsWith subName videoNameWithoutExt)
         subsInFolder.

(** "Guess language from filename" *)
Definition guessLanguage (subName : jsstring) : jsstring :=
  let parts := split "." (toLowerCase subName) in
  let lang := str "en" in
  if (2 <? length parts)%nat then
    let possibleLang := nth (length parts - 2) parts [] in
    if (length possibleLang =? 2)%nat then possibleLang else lang
  else lang.

Definition subtitleTrack (sub : File.t) : SubtitleTrack.t :=
  {| SubtitleTrack.label := File.name sub;
     SubtitleTrack.language := guessLanguage (File.name sub);
     SubtitleTrack.fileHandle := Some sub |}.

(** "Try to find NFO" *)
Definition findNfo (files : list File.t) (dir videoNameWithoutExt : jsstring)
  : option File.t :=
  find (fun f =>
          let fName := toLowerCase (File.name f) in
          startsWith (toLowerCase (File.webkitRelativePath f))
                     (toLowerCase dir ++ str "/" ++ videoNameWithoutExt)
          && endsWith fName (str ".nfo"))
       files.

Definition defaultMetadata (file : File.t) : VideoMetadata.t :=
  {| VideoMetadata.title :=
       substring (File.name file) 0 (lastIndexOf (File.name file) ".");
     VideoMetadata.plot := [];
     VideoMetadata.tags := [] |}.

Definition resolveMetadata (P : Platform) (files : list File.t) (file : File.t)
  : VideoMetadata.t :=
  let metadata := defaultMetadata file in
  match findNfo files (dirOf file) (nameWithoutExt file) with
  | Some nfoFile => VideoMetadata.spread metadata (parseNFO P nfoFile)
  | None => metadata
  end.

Definition orEmpty {A : Type} (x : option (list A)) : list A :=
  match x with Some l => l | None => [] end.

(** Step 2 of [handleImportFiles]: the asset built for one video file; [n]
    counts the UUIDs drawn before. *)
Definition processVideo (P : Platform) (files : list File.t) (ix : Index)
    (selectedCollectionId : jsstring) (n : nat) (file : File.t) : VideoAsset.t :=
  let '(folderImages, folderSubtitles) := ix in
  let dir := dirOf file in
  let videoNameWithoutExt := nameWithoutExt file in
  let assetsInFolder := orEmpty (JsMap.get folderImages dir) in
  let thumbUrl := selectThumbnail P assetsInFolder videoNameWithoutExt file in
  let subsInFolder := orEmpty (JsMap.get folderSubtitles dir) in
  let matchedSubs := matchSubtitles subsInFolder videoNameWithoutExt in
  let subtitleTracks := map subtitleTrack matchedSubs in
  let metadata := resolveMetadata P files file in
  {| VideoAsset.id := generateUUID P n;
     VideoAsset.collectionId := selectedCollectionId;
     VideoAsset.fileName := File.name file;
     VideoAsset.relativePath := File.webkitRelativePath file;
     VideoAsset.fileHandle := Some file;
     VideoAsset.thumbnailUrl := thumbUrl;
     VideoAsset.metadata := metadata;
     VideoAsset.size := File.size file;
     VideoAsset.subtitles := subtitleTracks |}.

Definition importVideos (P : Platform) (selectedCollectionId : jsstring)
    (seed : nat) (files : list File.t) : list VideoAsset.t :=
  let ix := buildIndex P files in
  fold_left
    (fun newVideos file =>
       if isVideoFile file then
         newVideos ++ [processVideo P files ix selectedCollectionId
                         (seed + length newVideos) file]
       else newVideos)
    files [].

(** *** The reducer *)

Inductive Action :=
| ADD_COLLECTION (payload : Collection.t)
| DELETE_COLLECTION (payload : jsstring)
| ADD_VIDEOS (payload : list VideoAsset.t)
| UPDATE_VIDEO (id : jsstring) (metadata : VideoMetadata.partial)
| LOAD_STATE (payload : AppState)
| UPDATE_PATHS (files : list File.t).

Definition initialState : AppState := mkAppState [] [].

(** [Array.from(new Set(xs))] *)
Fixpoint fromSet (xs seen : list jsstring) : list jsstring :=
  match xs with
  | [] => []
  | x :: xs' =>
      if existsb (jseqb x) seen then fromSet xs' seen
      else x :: fromSet xs' (x :: seen)
  end.

Definition updateCollectionThumbnail (payload : list VideoAsset.t)
    (collectionIds : list jsstring) (c : Collection.t) : Collection.t :=
  if existsb (jseqb (Collection.id c)) collectionIds
     && unset (Collection.thumbnailUrl c) then
    match find (fun v => jseqb (VideoAsset.collectionId v) (Collection.id c)
                         && negb (unset (VideoAsset.thumbnailUrl v))) payload with
    | Some video =>
        Collection.mk (Collection.id c) (Collection.name c)
                      (VideoAsset.thumbnailUrl video)
    | None => c
    end
  else c.

(** The key under which a file enters the relink lookup:
    [f.webkitRelativePath || f.name]. *)
Definition fileKey (f : File.t) : jsstring :=
  if truthy (File.webkitRelativePath f) then File.webkitRelativePath f
  else File.name f.

Definition buildFileMap (files : list File.t) : JsMap.t File.t :=
  fold_left (fun fileMap f => JsMap.set fileMap (fileKey f) f) files [].

(** The last path segment of a stored path, as the loose match uses it:
    [v.relativePath.split('/').pop()], then [fileName || '']. *)
Definition lastSegment (relativePath : jsstring) : jsstring :=
  orElse (pop (split "/" relativePath)) [].

(** The first entry, in the map's iteration order, whose key ends with the
    file name: the [for ... break] loop. *)
Definition looseMatch (fileMap : JsMap.t File.t) (fileName : jsstring)
  : option File.t :=
  option_map snd
    (find (fun e => endsWith (fst e) fileName) (JsMap.entries fileMap)).

Definition relinkVideo (fileMap : JsMap.t File.t) (v : VideoAsset.t)
  : VideoAsset.t :=
  let handle := JsMap.get fileMap (VideoAsset.relativePath v) in
  let handle :=
    match handle with
    | Some _ => handle
    | None => looseMatch fileMap (lastSegment (VideoAsset.relativePath v))
    end in
  match handle with
  | Some h => VideoAsset.withFileHandle v (Some h)
  | None => v
  end.

Definition reducer (state : AppState) (action : Action) : AppState :=
  match action with
  | ADD_COLLECTION payload =>
      mkAppState (collections state ++ [payload]) (videos state)
  | DELETE_COLLECTION payload =>
      mkAppState
        (filter (fun c => negb (jseqb (Collection.id c) payload))
                (collections state))
        (filter (fun v => negb (jseqb (VideoAsset.collectionId v) payload))
                (videos state))
  | ADD_VIDEOS payload =>
      let collectionIds := fromSet (map VideoAsset.collectionId payload) [] in
      mkAppState
        (map (updateCollectionThumbnail payload collectionIds)
             (collections state))
        (videos state ++ payload)
  | UPDATE_VIDEO id metadata =>
      mkAppState (collections state)
        (map (fun v =>
                if jseqb (VideoAsset.id v) id then
                  VideoAsset.withMetadata v
                    (VideoMetadata.spread (VideoAsset.metadata v) metadata)
                else v)
             (videos state))
  | LOAD_STATE payload => payload
  | UPDATE_PATHS files =>
      let fileMap := buildFileMap files in
      let relinkedVideos := map (relinkVideo fileMap) (videos state) in
      mkAppState (collections state) relinkedVideos
  end.

(** [handleImportFiles]: nothing happens without a selected collection. *)
Definition handleImportFiles (P : Platform) (state : AppState)
    (selectedCollectionId : option jsstring) (seed : nat)
    (fileList : list File.t) : AppState :=
  match selectedCollectionId with
  | Some cid =>
      if truthy cid then
        reducer state (ADD_VIDEOS (importVideos P cid seed fileList))
      else state
  | None => state
  end.

(** [handleUpdatePaths]: the new state and the text of the alert. *)
Definition handleUpdatePaths (state : AppState) (files : list File.t)
  : AppState * jsstring :=
  (reducer state (UPDATE_PATHS files),
   str "Paths updated. Please verify playback.").

(** *** Export and import of the index

    [JSON.stringify] and [JSON.parse] are the platform's; the index is
    followed as the value tree between them. *)

#[local] Unset Elimination Schemes.
Inductive json :=
| JNull
| JBool (b : bool)
| JNum (z : Z)
| JStr (s : jsstring)
| JArr (items : list json)
| JObj (fields : list (jsstring * json)).
#[local] Set Elimination Schemes.

Definition jsonOfNullable (x : option jsstring) : json :=
  match x with Some s => JStr s | None => JNull end.

Module Encode.
Definition metadata (m : VideoMetadata.t) : json :=
  JObj [(str "title", JStr (VideoMetadata.title m));
        (str "plot", JStr (VideoMetadata.plot m));
        (str "tags", JArr (map JStr (VideoMetadata.tags m)))].

(** A [File] has no enumerable property of its own: it is written as an
    empty object. *)
Definition file (f : option File.t) : json := JObj [].

Definition subtitle (s : SubtitleTrack.t) : json :=
  JObj [(str "label", JStr (SubtitleTrack.label s));
        (str "language", JStr (SubtitleTrack.language s));
        (str "fileHandle", file (SubtitleTrack.fileHandle s))].

(** [{ ...v, fileHandle: null }] *)
Definition video (v : VideoAsset.t) : json :=
  JObj [(str "id", JStr (VideoAsset.id v));
        (str "collectionId", JStr (VideoAsset.collectionId v));
        (str "fileName", JStr (VideoAsset.fileName v));
        (str "relativePath", JStr (VideoAsset.relativePath v));
        (str "fileHandle", JNull);
        (str "thumbnailUrl", jsonOfNullable (VideoAsset.thumbnailUrl v));
        (str "metadata", metadata (VideoAsset.metadata v));
        (str "size", JNum (VideoAsset.size v));
        (str "subtitles", JArr (map subtitle (VideoAsset.subtitles v)))].

Definition collection (c : Collection.t) : json :=
  JObj [(str "id", JStr (Collection.id c));
        (str "name", JStr (Collection.name c));
        (str "thumbnailUrl", jsonOfNullable (Collection.thumbnailUrl c))].
End Encode.

(** [handleExportData]: the document written to the index file. *)
Definition handleExportData (state : AppState) : json :=
  JObj [(str "collections", JArr (map Encode.collection (collections state)));
        (str "videos", JArr (map Encode.video (videos state)))].

(** [obj.key]; [None] is [undefined]. *)
Definition getField (obj : json) (key : jsstring) : option json :=
  match obj with
  | JObj fields => JsMap.get fields key
  | _ => None
  end.

Definition jsonTruthy (x : option json) : bool :=
  match x with
  | None | Some JNull => false
  | Some (JBool b) => b
  | Some (JNum z) => negb (z =? 0)
  | Some (JStr s) => truthy s
  | Some (JArr _) | Some (JObj _) => true
  end.

(** Reading a loaded value at the types of [types.ts]. *)
Module Decode.
Definition string (x : option json) : option jsstring :=
  match x with Some (JStr s) => Some s | _ => None end.

Definition nullable (x : option json) : option (option jsstring) :=
  match x with
  | Some JNull => Some None
  | Some (JStr s) => Some (Some s)
  | _ => None
  end.

Definition number (x : option json) : option Z :=
  match x with Some (JNum z) => Some z | _ => None end.

Fixpoint all {A : Type} (l : list (option A)) : option (list A) :=
  match l with
  | [] => Some []
  | Some x :: l' => option_map (cons x) (all l')
  | None :: _ => None
  end.

Definition array {A : Type} (f : json -> option A) (x : option json)
  : option (list A) :=
  match x with
  | Some (JArr items) => all (map f items)
  | _ => None
  end.

Definition metadata (x : option json) : option VideoMetadata.t :=
  match x with
  | Some o =>
      match string (getField o (str "title")), string (getField o (str "plot")),
            array (fun t => string (Some t)) (getField o (str "tags")) with
      | Some t, Some p, Some g => Some (VideoMetadata.mk t p g)
      | _, _, _ => None
      end
  | None => None
  end.

(** Nothing of a handle survives: a loaded handle is never live. *)
Definition subtitle (o : json) : option SubtitleTrack.t :=
  match string (getField o (str "label")),
        string (getField o (str "language")) with
  | Some l, Some g => Some (SubtitleTrack.mk l g None)
  | _, _ => None
  end.

Definition video (o : json) : option VideoAsset.t :=
  match string (getField o (str "id")),
        string (getField o (str "collectionId")),
        string (getField o (str "fileName")),
        string (getField o (str "relativePath")),
        nullable (getField o (str "thumbnailUrl")),
        metadata (getField o (str "metadata")),
        number (getField o (str "size")),
        array subtitle (getField o (str "subtitles")) with
  | Some i, Some c, Some f, Some r, Some t, Some m, Some z, Some s =>
      Some (VideoAsset.mk i c f r None t m z s)
  | _, _, _, _, _, _, _, _ => None
  end.

Definition collection (o : json) : option Collection.t :=
  match string (getField o (str "id")), string (getField o (str "name")),
        nullable (getField o (str "thumbnailUrl")) with
  | Some i, Some n, Some t => Some (Collection.mk i n t)
  | _, _, _ => None
  end.

Definition state (data : json) : option AppState :=
  match array collection (getField data (str "collections")),
        array video (getField data (str "videos")) with
  | Some cs, Some vs => Some (mkAppState cs vs)
  | _, _ => None
  end.
End Decode.

(** The own enumerable properties that [{ ...x }] copies. *)
Definition decimal (n : nat) : jsstring :=
  String.list_ascii_of_string (NilEmpty.string_of_uint (Nat.to_uint n)).

Definition spreadFields (x : json) : list (jsstring * json) :=
  match x with
  | JObj fields => fields
  | JArr items => combine (map decimal (seq 0 (length items))) items
  | JStr s => combine (map decimal (seq 0 (length s))) (map (fun c => JStr [c]) s)
  | JNull | JBool _ | JNum _ => []
  end.

(** [{ ...fields, key: value }]; a property set to [undefined] reads like a
    missing one and is left out. *)
Definition withField (fields : list (jsstring * json)) (key : jsstring)
    (value : option json) : list (jsstring * json) :=
  match value with
  | Some x => JsMap.set fields key x
  | None => filter (fun e => negb (jseqb (fst e) key)) fields
  end.

(** The migration of a legacy index; [None] when a property is read from
    [null] or [map] is called on something that is not an array, which
    throws. *)
Definition migrateContainer (c : json) : option json :=
  match c with
  | JNull => None
  | _ => Some (JObj (withField (spreadFields c) (str "id") (getField c (str "id"))))
  end.

Definition migrateVideo (v : json) : option json :=
  match v with
  | JNull => None
  | _ =>
      Some (JObj (withField
                    (withField (spreadFields v) (str "collectionId")
                               (getField v (str "containerId")))
                    (str "subtitles") (Some (JArr []))))
  end.

Definition migrateLegacy (data : json) : option json :=
  match getField data (str "containers"), getField data (str "videos") with
  | Some (JArr cs), Some (JArr vs) =>
      match Decode.all (map migrateContainer cs),
            Decode.all (map migrateVideo vs) with
      | Some cs', Some vs' =>
          Some (JObj [(str "collections", JArr cs'); (str "videos", JArr vs')])
      | _, _ => None
      end
  | _, _ => None
  end.

Definition MSG_LOADED : jsstring :=
  str "Index loaded. Please use 'Update Paths' to re-link video files.".
Definition MSG_LEGACY : jsstring :=
  str "Legacy Index loaded & migrated. Please use 'Update Paths' to re-link video files.".
Definition MSG_INVALID : jsstring := str "Invalid file format.".
Definition MSG_ERROR : jsstring := str "Error parsing file.".

(** [handleImportData] on the result of [JSON.parse] ([None] when it
    throws): the payload dispatched with [LOAD_STATE], if any, and the text
    of the alert. *)
Definition handleImportData (parsed : option json) : option json * jsstring :=
  match parsed with
  | None | Some JNull => (None, MSG_ERROR)
  | Some data =>
      if jsonTruthy (getField data (str "collections"))
         && jsonTruthy (getField data (str "videos")) then
        (Some data, MSG_LOADED)
      else if jsonTruthy (getField data (str "containers")) then
        match migrateLegacy data with
        | Some migrated => (Some migrated, MSG_LEGACY)
        | None => (None, MSG_ERROR)
        end
      else (None, MSG_INVALID)
  end.

(** The state after the index file has been loaded: the dispatched payload
    read at the state's type. *)
Definition importIndex (state : AppState) (parsed : option json)
  : option AppState :=
  match fst (handleImportData parsed) with
  | Some data =>
      option_map (fun payload => reducer state (LOAD_STATE payload))
                 (Decode.state data)
  | None => None
  end.

(** ** Notions used to state the properties *)

(** The record of the specification's Format B example. *)
Definition sample_dialogue : jsstring :=
  str "Dialogue: 0,0:00:05.00,0:00:07.00,Default,,0,0,0,,Hello, world".

(** The stripped name of a file: extension removed, lower-cased. *)
Definition strippedName (fileName : jsstring) : jsstring :=
  toLowerCase (substring fileName 0 (lastIndexOf fileName ".")).

(** Language inference as the specification words it: the stripped name is
    split on "." and the second-to-last segment is the language when it has
    two characters. *)
Definition claimedLanguage (subName : jsstring) : jsstring :=
  let parts := split "." (strippedName subName) in
  match rev parts with
  | _ :: possibleLang :: _ =>
      if (length possibleLang =? 2)%nat then possibleLang else str "en"
  | _ => str "en"
  end.

(** The same rule read on the full lower-cased name. *)
Definition claimedLanguageFullName (subName : jsstring) : jsstring :=
  let parts := split "." (toLowerCase subName) in
  match rev parts with
  | _ :: possibleLang :: _ =>
      if (length possibleLang =? 2)%nat then possibleLang else str "en"
  | _ => str "en"
  end.

(** The text handed to the timestamp replacement. *)
Definition normalizeLineEndings (s : jsstring) : jsstring :=
  replaceCR (replaceCRLF s).

(** The files of a batch that the indexing pass files as images of a
    directory, and as subtitles of a directory (an image MIME type wins over
    a subtitle extension). *)
Definition isImageFile (f : File.t) : bool :=
  startsWith (File.type f) (str "image/").

Definition folderImage (P : Platform) (f : File.t) : FolderImage.t :=
  FolderImage.mk (nameWithoutExt f) (createObjectURL P f).

Definition imagesInDirectory (P : Platform) (files : list File.t)
    (dir : jsstring) : list FolderImage.t :=
  map (folderImage P)
      (filter (fun f => isImageFile f && jseqb (dirOf f) dir) files).

Definition subtitlesInDirectory (files : list File.t) (dir : jsstring)
  : list File.t :=
  filter (fun f => negb (isImageFile f) && isSubtitleFile f
                   && jseqb (dirOf f) dir) files.

(** The thumbnail of the priority chain: the first image of the first
    non-empty class, else the generated one, else none. *)
Definition thumbnailByPriority (P : Platform) (images : list FolderImage.t)
    (baseName : jsstring) (file : File.t) : option jsstring :=
  match find isPriorityName images with
  | Some m => Some (FolderImage.url m)
  | None =>
      match find hasPoster images with
      | Some m => Some (FolderImage.url m)
      | None =>
          match find (isExactName baseName) images with
          | Some m => Some (FolderImage.url m)
          | None =>
              if truthy (generateVideoThumbnail P file)
              then Some (generateVideoThumbnail P file) else None
          end
      end
  end.

(** A platform to run examples on: object URLs are "blob:" and the file
    name, no thumbnail can be generated, UUIDs count up, and a document is a
    single title element around the whole text. *)
Definition examplePlatform : Platform :=
  {| createObjectURL := fun f => str "blob:" ++ File.name f;
     generateVideoThumbnail := fun _ => [];
     generateUUID := decimal;
     querySelector :=
       fun text sel => if jseqb sel (str "title") then Some text else None;
     querySelectorAll := fun _ _ => [] |}.

(** A file of the directory "lib" with the given name and MIME type. *)
Definition libFile (name type : String.string) : File.t :=
  File.mk (str name) (str "lib/" ++ str name) (str type) 0 [].
Arguments libFile (name type)%_string_scope.

Definition exampleBatch : list File.t :=
  [libFile "Movie.mp4" "video/mp4"; libFile "movie.jpg" "image/jpeg";
   libFile "my-poster.png" "image/png"; libFile "Cover.jpg" "image/jpeg";
   libFile "movie.srt" ""; libFile "movie.en.srt" "";
   libFile "movie.en.forced.srt" ""; libFile "my_movie.srt" ""].

(** The asset ingested for a video of a batch. *)
Definition ingest (P : Platform) (files : list File.t) (file : File.t)
  : VideoAsset.t :=
  processVideo P files (buildIndex P files) (str "c1") 0 file.

(** A batch with a metadata sidecar next to the video. *)
Definition nfoBatch : list File.t :=
  [libFile "Movie.mp4" "video/mp4";
   File.mk (str "movie.nfo") (str "lib/movie.nfo") [] 0 (str "The Movie")].

(** What is left of a state once the handles are gone. *)
Definition dropSubtitleHandle (s : SubtitleTrack.t) : SubtitleTrack.t :=
  SubtitleTrack.mk (SubtitleTrack.label s) (SubtitleTrack.language s) None.

Definition dropHandles (v : VideoAsset.t) : VideoAsset.t :=
  {| VideoAsset.id := VideoAsset.id v;
     VideoAsset.collectionId := VideoAsset.collectionId v;
     VideoAsset.fileName := VideoAsset.fileName v;
     VideoAsset.relativePath := VideoAsset.relativePath v;
     VideoAsset.fileHandle := None;
     VideoAsset.thumbnailUrl := VideoAsset.thumbnailUrl v;
     VideoAsset.metadata := VideoAsset.metadata v;
     VideoAsset.size := VideoAsset.size v;
     VideoAsset.subtitles := map dropSubtitleHandle (VideoAsset.subtitles v) |}.

Definition persisted (state : AppState) : AppState :=
  mkAppState (collections state) (map dropHandles (videos state)).

(** Everything of an asset except its handles. *)
Definition persistentPart (v : VideoAsset.t) :=
  (VideoAsset.id v, VideoAsset.collectionId v, VideoAsset.fileName v,
   VideoAsset.relativePath v, VideoAsset.thumbnailUrl v, VideoAsset.metadata v,
   VideoAsset.size v,
   map (fun s => (SubtitleTrack.label s, SubtitleTrack.language s))
       (VideoAsset.subtitles v)).

(** The library ingested from the example batch into a collection. *)
Definition exampleLibrary : AppState :=
  handleImportFiles examplePlatform
    (mkAppState [Collection.mk (str "c1") (str "Films") None] [])
    (Some (str "c1")) 0 exampleBatch.

(** Relinking described on the batch. *)
Definition firstWithKey (files : list File.t) (k : jsstring) : option File.t :=
  find (fun f => jseqb (fileKey f) k) files.

Definition lastWithKey (files : list File.t) (k : jsstring) : option File.t :=
  find (fun f => jseqb (fileKey f) k) (rev files).

Definition firstEndingWith (files : list File.t) (fileName : jsstring)
  : option File.t :=
  find (fun f => endsWith (fileKey f) fileName) files.

(** [seg] is the last path segment of [path]: what follows the last slash,
    or the whole path when it has no slash. *)
Definition lastSegmentOf (path seg : jsstring) : Prop :=
  ~ In "/"%char seg /\
  (path = seg \/ exists dir, path = dir ++ "/"%char :: seg).

(** The relink rule in the specification's words: the entry with the
    stored path, else the first entry whose path ends with the stored
    path's last segment, else nothing. *)
Definition relinkByPath (files : list File.t) (v : VideoAsset.t)
  : VideoAsset.t :=
  match firstWithKey files (VideoAsset.relativePath v) with
  | Some f => VideoAsset.withFileHandle v (Some f)
  | None =>
      match firstEndingWith files (lastSegment (VideoAsset.relativePath v)) with
      | Some g => VideoAsset.withFileHandle v (Some g)
      | None => v
      end
  end.

(** The number of assets without a handle. *)
Definition unresolved (vs : list VideoAsset.t) : nat :=
  length (filter (fun v => match VideoAsset.fileHandle v with
                           | None => true
                           | Some _ => false
                           end) vs).

(** A persisted asset with the given stored path, and a file of a fresh
    grant with the given path. *)
Definition storedAsset (path : String.string) : VideoAsset.t :=
  VideoAsset.mk (str "v1") (str "c1") (str "movie.mp4") (str path) None None
    (VideoMetadata.mk (str "movie") [] []) 0 [].
Arguments storedAsset path%_string_scope.

Definition grantedFile (path : String.string) (size : Z) : File.t :=
  File.mk (lastSegment (str path)) (str path) (str "video/mp4") size [].
Arguments grantedFile path%_string_scope size%_Z_scope.

(** ** The rest of the library code *)

(** *** [generateNFOContent] of [services/fileUtils] *)

Definition QUOTE : ascii := ascii_of_nat 34.

Definition genreElement (tag : jsstring) : jsstring :=
  str "<genre>" ++ tag ++ str "</genre>".

Definition generateNFOContent (metadata : VideoMetadata.t) : jsstring :=
  str "<?xml version=" ++ [QUOTE] ++ str "1.0" ++ [QUOTE]
    ++ str " encoding=" ++ [QUOTE] ++ str "UTF-8" ++ [QUOTE]
    ++ str " standalone=" ++ [QUOTE] ++ str "yes" ++ [QUOTE] ++ str " ?>" ++ [LF]
    ++ str "<movie>" ++ [LF]
    ++ str "  <title>" ++ VideoMetadata.title metadata ++ str "</title>" ++ [LF]
    ++ str "  <plot>" ++ VideoMetadata.plot metadata ++ str "</plot>" ++ [LF]
    ++ str "  "
    ++ join (LF :: str "  ") (map genreElement (VideoMetadata.tags metadata))
    ++ [LF]
    ++ str "</movie>".

(** *** Views and handlers of [src/App.tsx] *)

Definition visibleVideos (state : AppState)
    (selectedCollectionId : option jsstring) : list VideoAsset.t :=
  match selectedCollectionId with
  | Some cid =>
      if truthy cid then
        filter (fun v => jseqb (VideoAsset.collectionId v) cid) (videos state)
      else videos state
  | None => videos state
  end.

(** [a < b] in the order of [Array.prototype.sort()] without a comparator:
    code unit by code unit, a proper prefix first. *)
Fixpoint jsltb (a b : jsstring) : bool :=
  match a, b with
  | _, [] => false
  | [], _ :: _ => true
  | c :: a', d :: b' =>
      (nat_of_ascii c <? nat_of_ascii d)%nat
      || ((nat_of_ascii c =? nat_of_ascii d)%nat && jsltb a' b')
  end.

Fixpoint insertSorted (x : jsstring) (l : list jsstring) : list jsstring :=
  match l with
  | [] => [x]
  | y :: l' => if jsltb y x then y :: insertSorted x l' else x :: l
  end.

(** [arr.sort()] on strings: the ascending arrangement of the elements. *)
Definition sortStrings (l : list jsstring) : list jsstring :=
  fold_right insertSorted [] l.

Definition allTags (visible : list VideoAsset.t) : list jsstring :=
  let tags :=
    fromSet (concat (map (fun v => VideoMetadata.tags (VideoAsset.metadata v))
                         visible)) [] in
  sortStrings tags.

Definition handleToggleTag (prev : list jsstring) (tag : jsstring)
  : list jsstring :=
  if existsb (fun t => jseqb t tag) prev
  then filter (fun t => negb (jseqb t tag)) prev
  else prev ++ [tag].

(** [handleCreateCollection]; [n] counts the UUIDs drawn before. *)
Definition handleCreateCollection (P : Platform) (state : AppState)
    (n : nat) (name : jsstring) : AppState :=
  reducer state (ADD_COLLECTION (Collection.mk (generateUUID P n) name None)).

Definition hasAllTags (selectedTags : list jsstring) (v : VideoAsset.t) : bool :=
  forallb (fun t => existsb (fun x => jseqb x t)
                            (VideoMetadata.tags (VideoAsset.metadata v)))
          selectedTags.

(** The scope computed by [startPlayback], [startShuffle] and
    [handleNextRandom]. *)
Definition playScope (state : AppState)
    (selectedCollectionId : option jsstring) (selectedTags : list jsstring)
  : list VideoAsset.t :=
  let scope := visibleVideos state selectedCollectionId in
  if (0 <? length selectedTags)%nat then filter (hasAllTags selectedTags) scope
  else scope.

(** [startPlayback]: the video given to the player and the queue.
    [shuffleArray] sorts a copy with a random comparator; the arrangement it
    returns is a parameter. *)
Definition startPlayback
    (shuffleArray : list VideoAsset.t -> list VideoAsset.t)
    (state : AppState) (selectedCollectionId : option jsstring)
    (selectedTags : list jsstring) (startVideo : VideoAsset.t)
  : VideoAsset.t * list VideoAsset.t :=
  let scope := playScope state selectedCollectionId selectedTags in
  let others :=
    filter (fun v => negb (jseqb (VideoAsset.id v) (VideoAsset.id startVideo)))
           scope in
  (startVideo, shuffleArray others).

(** *** [filteredVideos] of [components/VideoGrid] *)

Definition filteredVideos (videos : list VideoAsset.t) (searchQuery : jsstring)
    (selectedTags : list jsstring) : list VideoAsset.t :=
  filter
    (fun v =>
       let matchesSearch :=
         includes (toLowerCase (VideoMetadata.title (VideoAsset.metadata v)))
                  (toLowerCase searchQuery)
         || includes (toLowerCase (VideoAsset.fileName v))
                     (toLowerCase searchQuery) in
       let matchesTags :=
         (length selectedTags =? 0)%nat || hasAllTags selectedTags v in
       matchesSearch && matchesTags)
    videos.

(** *** The editor of [components/MetadataPanel] *)

(** WhiteSpace and LineTerminator code units below U+0100. *)
Definition isWhiteSpace (c : ascii) : bool :=
  let n := nat_of_ascii c in
  (((9 <=? n) && (n <=? 13)) || (n =? 32) || (n =? 160))%nat.

Fixpoint trimStart (s : jsstring) : jsstring :=
  match s with
  | [] => []
  | c :: s' => if isWhiteSpace c then trimStart s' else s
  end.

(** [s.trim()] *)
Definition trim (s : jsstring) : jsstring :=
  rev (trimStart (rev (trimStart s))).

Module MetadataPanel.
(** The form holds a title, a plot and a tag list. *)
Definition FormData := VideoMetadata.t.

Definition initialFormData (video : VideoAsset.t) : FormData :=
  let m := VideoAsset.metadata video in
  {| VideoMetadata.title :=
       if truthy (VideoMetadata.title m) then VideoMetadata.title m
       else VideoAsset.fileName video;
     VideoMetadata.plot := VideoMetadata.plot m;
     VideoMetadata.tags := VideoMetadata.tags m |}.

Definition withTags (formData : FormData) (tags : list jsstring) : FormData :=
  {| VideoMetadata.title := VideoMetadata.title formData;
     VideoMetadata.plot := VideoMetadata.plot formData;
     VideoMetadata.tags := tags |}.

(** [addTag]: the form and the content of the input field afterwards. *)
Definition addTag (formData : FormData) (newTag : jsstring)
  : FormData * jsstring :=
  if truthy (trim newTag)
     && negb (existsb (fun t => jseqb t (trim newTag))
                      (VideoMetadata.tags formData))
  then (withTags formData (VideoMetadata.tags formData ++ [trim newTag]), [])
  else (formData, newTag).

Definition removeTag (formData : FormData) (tagToRemove : jsstring) : FormData :=
  withTags formData
    (filter (fun t => negb (jseqb t tagToRemove)) (VideoMetadata.tags formData)).

Definition asPartial (formData : FormData) : VideoMetadata.partial :=
  VideoMetadata.mkPartial (Some (VideoMetadata.title formData))
    (Some (VideoMetadata.plot formData)) (Some (VideoMetadata.tags formData)).

(** [handleSave] dispatches the whole form. *)
Definition handleSave (video : VideoAsset.t) (formData : FormData) : Action :=
  UPDATE_VIDEO (VideoAsset.id video) (asPartial formData).

(** The name of the file that [handleExportNFO] offers for download. *)
Definition exportFileName (video : VideoAsset.t) : jsstring :=
  let fileName := VideoAsset.fileName video in
  let stem := substring fileName 0 (lastIndexOf fileName ".") in
  (if truthy stem then stem else fileName) ++ str ".nfo".

(** [handleExportNFO]: the content and the name of the download. *)
Definition handleExportNFO (video : VideoAsset.t) (formData : FormData)
  : jsstring * jsstring :=
  (generateNFOContent
     (VideoMetadata.spread (VideoAsset.metadata video) (asPartial formData)),
   exportFileName video).
End MetadataPanel.

(** *** Subtitle loading of [components/PlayerOverlay] *)

(** Object URLs of the player: for a file, and for a blob made of a text. *)
Record PlayerPlatform := mkPlayerPlatform {
  fileURL : File.t -> jsstring;
  textURL : jsstring -> jsstring
}.

Module PlayerTrack.
Record t := mk { label : jsstring; url : jsstring; lang : jsstring }.
End PlayerTrack.

(** One round of the loop of [loadSubs]; [None] when reading the name of a
    handle that is no longer a file throws. *)
Definition loadSub (PP : PlayerPlatform) (subFile : SubtitleTrack.t)
  : option PlayerTrack.t :=
  match SubtitleTrack.fileHandle subFile with
  | None => None
  | Some handle =>
      let url : jsstring := [] in
      let fileName := toLowerCase (File.name handle) in
      let text := File.text handle in
      let vttText : jsstring := [] in
      let '(vttText, url) :=
        if endsWith fileName (str ".srt") then (srtToVtt text, url)
        else if endsWith fileName (str ".ass") || endsWith fileName (str ".ssa")
        then (assToVtt text, url)
        else (vttText, fileURL PP handle) in
      let url :=
        if truthy vttText then textURL PP vttText
        else if negb (truthy url) then fileURL PP handle
        else url in
      Some (PlayerTrack.mk (SubtitleTrack.label subFile) url
                           (SubtitleTrack.language subFile))
  end.

(** [loadSubs]: the tracks handed to [setSubtitles]; [None] when the loop
    throws before it gets there. *)
Fixpoint loadSubs (PP : PlayerPlatform) (subtitles : list SubtitleTrack.t)
  : option (list PlayerTrack.t) :=
  match subtitles with
  | [] => Some []
  | subFile :: rest =>
      match loadSub PP subFile with
      | Some track => option_map (cons track) (loadSubs PP rest)
      | None => None
      end
  end.

(** The pattern [{[^}]+}] matches at the head of [s]. *)
Definition tagAt (s : jsstring) : bool :=
  match s with
  | [] => false
  | c :: tl =>
      Ascii.eqb c "{" &&
      match afterTagBody tl false with Some _ => true | None => false end
  end.

(** The parts of an exported sidecar document: what precedes the title, and
    the genre lines with the closing tag. *)
Definition nfoHead : jsstring :=
  str "<?xml version=" ++ [QUOTE] ++ str "1.0" ++ [QUOTE]
    ++ str " encoding=" ++ [QUOTE] ++ str "UTF-8" ++ [QUOTE]
    ++ str " standalone=" ++ [QUOTE] ++ str "yes" ++ [QUOTE] ++ str " ?>" ++ [LF]
    ++ str "<movie>" ++ [LF] ++ str "  <title>".

Definition genreLines (tags : list jsstring) : jsstring :=
  join (LF :: str "  ") (map genreElement tags) ++ [LF] ++ str "</movie>".

(** Metadata whose texts contain no "<". *)
Definition markupFree (m : VideoMetadata.t) : Prop :=
  ~ In "<"%char (VideoMetadata.title m) /\
  ~ In "<"%char (VideoMetadata.plot m) /\
  Forall (fun t => ~ In "<"%char t) (VideoMetadata.tags m).

(** * Properties *)

(** ** Strings *)

Lemma jseqb_refl (a : jsstring) : jseqb a a = true.
Proof.
  induction a as [|c a IH]; simpl; [reflexivity|].
  now rewrite Ascii.eqb_refl.
Qed.

Lemma jseqb_eq (a b : jsstring) : jseqb a b = true <-> a = b.
Proof.
  split; [|intros ->; apply jseqb_refl].
  revert b; induction a as [|c a IH]; intros [|d b]; simpl; try discriminate.
  - reflexivity.
  - intros H. apply andb_true_iff in H as [Hc Hr].
    apply Ascii.eqb_eq in Hc. f_equal; auto.
Qed.

Lemma jseqb_neq (a b : jsstring) : jseqb a b = false <-> a <> b.
Proof.
  rewrite <- jseqb_eq. destruct (jseqb a b); split; congruence.
Qed.

Lemma jseqb_sym (a b : jsstring) : jseqb a b = jseqb b a.
Proof.
  destruct (jseqb a b) eqn:E.
  - apply jseqb_eq in E. subst. symmetry. apply jseqb_refl.
  - symmetry. apply jseqb_neq. apply jseqb_neq in E. congruence.
Qed.

Lemma startsWith_app (p u : jsstring) : startsWith (p ++ u) p = true.
Proof.
  induction p as [|c p IH]; simpl; [reflexivity|].
  now rewrite Ascii.eqb_refl.
Qed.

Lemma startsWith_prefix (s p : jsstring) :
  startsWith s p = true <-> exists u, s = p ++ u.
Proof.
  split.
  - revert s; induction p as [|c p IH]; intros s H.
    + now exists s.
    + destruct s as [|d s]; simpl in H; [discriminate|].
      apply andb_true_iff in H as [Hc Hr].
      apply Ascii.eqb_eq in Hc. subst d.
      destruct (IH _ Hr) as [u ->]. now exists u.
  - intros [u ->]. apply startsWith_app.
Qed.

Lemma endsWith_suffix (s p : jsstring) :
  endsWith s p = true <-> exists u, s = u ++ p.
Proof.
  unfold endsWith. split.
  - intros H. apply andb_true_iff in H as [Hl He].
    apply jseqb_eq in He.
    exists (firstn (length s - length p) s).
    pose proof (firstn_skipn (length s - length p) s) as Hs.
    rewrite He in Hs. now symmetry.
  - intros [u ->]. rewrite length_app.
    apply andb_true_iff. split.
    + apply Nat.leb_le. lia.
    + replace (length u + length p - length p)%nat with (length u) by lia.
      rewrite skipn_app, skipn_all, Nat.sub_diag. simpl. apply jseqb_refl.
Qed.

Lemma endsWith_empty (s : jsstring) : endsWith s [] = true.
Proof.
  apply endsWith_suffix. exists s. now rewrite app_nil_r.
Qed.

Lemma split_nonempty (c : ascii) (s : jsstring) : split c s <> [].
Proof.
  destruct s as [|d s]; simpl; [discriminate|].
  destruct (Ascii.eqb d c); [discriminate|].
  destruct (split c s); discriminate.
Qed.

(** Splitting at a separator splits the list of segments. *)
Lemma split_app (c : ascii) (a b : jsstring) :
  split c (a ++ c :: b) = split c a ++ split c b.
Proof.
  induction a as [|d a IH]; simpl.
  - now rewrite Ascii.eqb_refl.
  - destruct (Ascii.eqb d c); [now rewrite IH|].
    rewrite IH. pose proof (split_nonempty c a) as Hne.
    destruct (split c a); [contradiction|reflexivity].
Qed.

Lemma split_without (c : ascii) (a : jsstring) :
  ~ In c a -> split c a = [a].
Proof.
  induction a as [|d a IH]; simpl; intros H; [reflexivity|].
  destruct (Ascii.eqb d c) eqn:E.
  - apply Ascii.eqb_eq in E. subst. tauto.
  - rewrite IH by tauto. reflexivity.
Qed.

Lemma toLowerCase_app (a b : jsstring) :
  toLowerCase (a ++ b) = toLowerCase a ++ toLowerCase b.
Proof. apply map_app. Qed.

Lemma toLowerChar_dot (c : ascii) : toLowerChar c = "."%char <-> c = "."%char.
Proof.
  destruct c as [[] [] [] [] [] [] [] []]; vm_compute; split; congruence.
Qed.

Lemma toLowerCase_no_dot (a : jsstring) :
  ~ In "."%char a -> ~ In "."%char (toLowerCase a).
Proof.
  intros H Hin. apply in_map_iff in Hin as [c [Hc Hin]].
  apply (proj1 (toLowerChar_dot c)) in Hc. subst c. exact (H Hin).
Qed.

Lemma toLowerCase_dot (a b : jsstring) :
  toLowerCase (a ++ "."%char :: b) = toLowerCase a ++ "."%char :: toLowerCase b.
Proof. unfold toLowerCase. now rewrite map_app. Qed.

Lemma toLowerCase_length (a : jsstring) : length (toLowerCase a) = length a.
Proof. apply length_map. Qed.

(** ** Format B *)

(** C1. On the record of the specification's example the transcoder takes
    the third and fourth fields of the line ([0:00:07.00] and [Default]) as
    start and end, and the text behind the ninth comma of what follows the
    first comma, which is the comma inside the dialogue: the cue is
    [0:00:07.000 --> Default.000] with text [ world], not
    [00:00:05.000 --> 00:00:07.000] with text [Hello, world]. *)
Theorem assToVtt_sample_dialogue :
  assToVtt sample_dialogue =
  WEBVTT_HEADER ++ str "0:00:07.000 --> Default.000" ++ [LF]
    ++ str " world" ++ [LF; LF].
Proof. vm_compute. reflexivity. Qed.

(** The pieces of that computation: the fields behind the first comma, the
    two that are picked, and the position of the ninth comma. *)
Example sample_dialogue_fields :
  let rest := substringFrom sample_dialogue (indexOf sample_dialogue "," 0 + 1) in
  let parts := split "," rest in
  nth 0 parts [] = str "0:00:05.00" /\
  nth 1 parts [] = str "0:00:07.00" /\
  nth 2 parts [] = str "Default" /\
  length parts = 10%nat /\
  substringFrom rest (findNthOccurrence rest "," 9 + 1) = str " world" /\
  substringFrom rest (findNthOccurrence rest "," 8 + 1) = str "Hello, world".
Proof. vm_compute. repeat split. Qed.

(** The fuel of [stripTags] is enough: more of it changes nothing, and the
    scan obeys its defining equation. *)
Lemma afterTagBody_shorter (s : jsstring) :
  forall seen rest,
    afterTagBody s seen = Some rest -> (length rest < length s)%nat.
Proof.
  induction s as [|c s IH]; intros seen rest H; simpl in H; [discriminate|].
  destruct (Ascii.eqb c "}").
  - destruct seen; [|discriminate]. injection H as <-. simpl. lia.
  - apply IH in H. simpl. lia.
Qed.

Lemma stripTagsFuel_more (n : nat) :
  forall m s, (length s <= n)%nat -> (length s <= m)%nat ->
              stripTagsFuel n s = stripTagsFuel m s.
Proof.
  induction n as [|n IH]; intros m s Hn Hm.
  - destruct s; [|simpl in Hn; lia]. destruct m; reflexivity.
  - destruct m as [|m]; [destruct s; [reflexivity|simpl in Hm; lia]|].
    destruct s as [|c tl]; [reflexivity|]. simpl in Hn, Hm. simpl.
    destruct (Ascii.eqb c "{").
    + destruct (afterTagBody tl false) as [rest|] eqn:E.
      * apply afterTagBody_shorter in E. apply IH; lia.
      * f_equal. apply IH; lia.
    + f_equal. apply IH; lia.
Qed.

Lemma stripTags_eq (c : ascii) (tl : jsstring) :
  stripTags (c :: tl)
  = if Ascii.eqb c "{" then
      match afterTagBody tl false with
      | Some rest => stripTags rest
      | None => c :: stripTags tl
      end
    else c :: stripTags tl.
Proof.
  unfold stripTags. simpl.
  destruct (Ascii.eqb c "{").
  - destruct (afterTagBody tl false) as [rest|] eqn:E.
    + apply afterTagBody_shorter in E. apply stripTagsFuel_more; lia.
    + reflexivity.
  - reflexivity.
Qed.

Example stripTags_examples :
  stripTags (str "{\an8}Hi {\i1}there{\i0}") = str "Hi there" /\
  stripTags (str "a{}b{{x}c{d") = str "a{}bc{d".
Proof. vm_compute. split; reflexivity. Qed.

Lemma indexOfAux_first (c : ascii) (pre tl : jsstring) (i : Z) :
  ~ In c pre ->
  indexOfAux c (pre ++ c :: tl) i = i + Z.of_nat (length pre).
Proof.
  revert i. induction pre as [|d pre IH]; intros i H; simpl.
  - rewrite Ascii.eqb_refl. lia.
  - destruct (Ascii.eqb d c) eqn:E.
    + apply Ascii.eqb_eq in E. subst d. exfalso. apply H. now left.
    + rewrite IH by (intros Hin; apply H; now right). lia.
Qed.

Lemma substringFrom_app (pre tl : jsstring) :
  substringFrom (pre ++ tl) (Z.of_nat (length pre)) = tl.
Proof.
  unfold substringFrom, substring. rewrite length_app.
  replace (Z.min (Z.max (Z.of_nat (length pre)) 0) _)
    with (Z.of_nat (length pre)) by lia.
  replace (Z.min (Z.max (Z.of_nat (length pre + length tl)) 0) _)
    with (Z.of_nat (length pre + length tl)) by lia.
  replace (Z.min (Z.of_nat (length pre)) _) with (Z.of_nat (length pre)) by lia.
  replace (Z.max (Z.of_nat (length pre)) _)
    with (Z.of_nat (length pre + length tl)) by lia.
  replace (Z.to_nat (Z.of_nat (length pre + length tl) - Z.of_nat (length pre)))
    with (length tl) by lia.
  rewrite Nat2Z.id, skipn_app, skipn_all, Nat.sub_diag. simpl.
  apply firstn_all.
Qed.

(** On every record whose first four fields are free of commas and that has
    the minimum number of fields, the cue runs from the record's third
    field to its fourth: from the end time to the style. *)
Lemma assLine_takes_end_and_style (layer start end_ style more : jsstring) :
  ~ In ","%char layer -> ~ In ","%char start ->
  ~ In ","%char end_ -> ~ In ","%char style ->
  (6 <= length (split "," more))%nat ->
  exists text,
    assLine (str "Dialogue: " ++ layer ++ ","%char :: start ++ ","%char
               :: end_ ++ ","%char :: style ++ ","%char :: more)
    = formatTime end_ ++ str " --> " ++ formatTime style ++ [LF]
        ++ text ++ [LF; LF].
Proof.
  intros Hl Hs He Hst Hmore.
  set (rest := start ++ ","%char :: end_ ++ ","%char :: style ++ ","%char :: more).
  set (head := str "Dialogue: " ++ layer).
  assert (Hhead : ~ In ","%char head).
  { unfold head. intros Hin. apply in_app_or in Hin as [Hin|Hin]; [|tauto].
    vm_compute in Hin. intuition discriminate. }
  assert (Hline : str "Dialogue: " ++ layer ++ ","%char :: rest
                  = head ++ ","%char :: rest)
    by (unfold head; now rewrite <- app_assoc).
  rewrite Hline. unfold assLine.
  assert (Hstart : startsWith (head ++ ","%char :: rest) (str "Dialogue:") = true).
  { apply startsWith_prefix. exists (" "%char :: layer ++ ","%char :: rest).
    unfold head. rewrite <- app_assoc. reflexivity. }
  rewrite Hstart.
  assert (Hidx : indexOf (head ++ ","%char :: rest) "," 0
                 = Z.of_nat (length head)).
  { unfold indexOf. change (Z.to_nat (Z.max 0 0)) with 0%nat. cbn [skipn].
    rewrite indexOfAux_first by exact Hhead. lia. }
  rewrite Hidx.
  replace (Z.of_nat (length head) =? -1) with false by (symmetry; lia).
  assert (Hrest : substringFrom (head ++ ","%char :: rest)
                                (Z.of_nat (length head) + 1) = rest).
  { replace (head ++ ","%char :: rest) with ((head ++ [","%char]) ++ rest)
      by (now rewrite <- app_assoc).
    replace (Z.of_nat (length head) + 1)
      with (Z.of_nat (length (head ++ [","%char])))
      by (rewrite length_app; simpl; lia).
    apply substringFrom_app. }
  rewrite Hrest.
  assert (Hparts : split "," rest = start :: end_ :: style :: split "," more).
  { unfold rest. rewrite !split_app.
    now rewrite (split_without _ _ Hs), (split_without _ _ He),
      (split_without _ _ Hst). }
  rewrite Hparts. cbn [length nth].
  replace (9 <=? S (S (S (length (split "," more)))))%nat with true
    by (symmetry; apply Nat.leb_le; lia).
  eexists. reflexivity.
Qed.

Lemma assLine_takes_end_and_style_witness :
  exists text,
    assLine (str "Dialogue: " ++ str "0" ++ ","%char :: str "0:00:05.00"
               ++ ","%char :: str "0:00:07.00" ++ ","%char :: str "Default"
               ++ ","%char :: str ",0,0,0,,Hello, world")
    = formatTime (str "0:00:07.00") ++ str " --> " ++ formatTime (str "Default")
        ++ [LF] ++ text ++ [LF; LF].
Proof.
  apply assLine_takes_end_and_style;
    try (vm_compute; intuition discriminate).
  vm_compute. lia.
Defined.

(** ** Language inference *)

Lemma split_two_tail (pre lang ext : jsstring) :
  ~ In "."%char lang -> ~ In "."%char ext ->
  split "." (pre ++ "."%char :: lang ++ "."%char :: ext)
  = split "." pre ++ [lang; ext].
Proof.
  intros Hl He.
  rewrite split_app, split_app.
  now rewrite (split_without _ lang Hl), (split_without _ ext He).
Qed.

Lemma nth_penultimate {A : Type} (l : list A) (x y d : A) :
  nth (length (l ++ [x; y]) - 2) (l ++ [x; y]) d = x.
Proof.
  rewrite length_app. simpl.
  replace (length l + 2 - 2)%nat with (length l) by lia.
  rewrite app_nth2 by lia. now rewrite Nat.sub_diag.
Qed.

(** C5 (as amended). The language is read off the full lower-cased file
    name, extension included: when the name has at least two dots and the
    segment between the last two has exactly two characters, that segment
    is the language; a name with at most one dot, or with another length
    there, gets "en". *)
Theorem guessLanguage_rule :
  (forall pre lang ext : jsstring,
      ~ In "."%char lang -> ~ In "."%char ext ->
      guessLanguage (pre ++ "."%char :: lang ++ "."%char :: ext)
      = if (length lang =? 2)%nat then toLowerCase lang else str "en") /\
  (forall stem ext : jsstring,
      ~ In "."%char stem -> ~ In "."%char ext ->
      guessLanguage (stem ++ "."%char :: ext) = str "en") /\
  (forall stem : jsstring, ~ In "."%char stem -> guessLanguage stem = str "en") /\
  guessLanguage (str "movie.fr.srt") = str "fr" /\
  guessLanguage (str "movie.srt") = str "en" /\
  guessLanguage (str "movie.french.srt") = str "en".
Proof.
  split; [|split; [|split; [|vm_compute; repeat split]]].
  - intros pre lang ext Hl He. unfold guessLanguage.
    rewrite !toLowerCase_dot.
    rewrite split_two_tail by now apply toLowerCase_no_dot.
    rewrite nth_penultimate, toLowerCase_length.
    pose proof (split_nonempty "." (toLowerCase pre)) as Hne.
    destruct (split "." (toLowerCase pre)) as [|seg segs]; [contradiction|].
    rewrite length_app. simpl length.
    replace (2 <? S (length segs) + 2)%nat with true
      by (symmetry; apply Nat.ltb_lt; lia).
    reflexivity.
  - intros stem ext Hs He. unfold guessLanguage.
    rewrite toLowerCase_dot, split_app.
    rewrite (split_without _ _ (toLowerCase_no_dot _ Hs)).
    rewrite (split_without _ _ (toLowerCase_no_dot _ He)).
    reflexivity.
  - intros stem Hs. unfold guessLanguage.
    rewrite (split_without _ _ (toLowerCase_no_dot _ Hs)).
    reflexivity.
Qed.

Lemma guessLanguage_rule_witness :
  guessLanguage (str "show.S01" ++ "."%char :: str "DE" ++ "."%char :: str "ass")
  = str "de".
Proof.
  refine (proj1 guessLanguage_rule (str "show.S01") (str "DE") (str "ass") _ _);
    vm_compute; intuition discriminate.
Defined.

(** C5 (as stated) fails.  Read on the stripped name, the second-to-last
    segment of "movie.fr.srt" is "movie" and that of "ab.cd.srt" is "ab",
    while the code answers "fr" and "cd"; read on the full name, the
    second-to-last segment of "ab.srt" has two characters, while the code
    answers "en". *)
Lemma guessLanguage_not_as_claimed :
  guessLanguage (str "movie.fr.srt") = str "fr" /\
  claimedLanguage (str "movie.fr.srt") = str "en" /\
  guessLanguage (str "ab.cd.srt") = str "cd" /\
  claimedLanguage (str "ab.cd.srt") = str "ab" /\
  guessLanguage (str "ab.srt") = str "en" /\
  claimedLanguageFullName (str "ab.srt") = str "ab".
Proof. vm_compute. repeat split. Qed.

(** ** Format A *)

Ltac explode12 s :=
  destruct s as [|?c [|?c [|?c [|?c [|?c [|?c [|?c [|?c [|?c [|?c [|?c [|?c ?rest]]]]]]]]]]]].

Lemma timestampAt_length (s : jsstring) :
  timestampAt s = true -> (12 <= length s)%nat.
Proof.
  intros H. explode12 s; simpl in H; try discriminate. simpl. lia.
Qed.

Lemma timestampAt_comma (s : jsstring) :
  timestampAt s = true -> nth_error s 8 = Some ","%char.
Proof.
  intros H. explode12 s; simpl in H; try discriminate.
  repeat (apply andb_true_iff in H as [H ?]).
  simpl. f_equal.
  match goal with E : Ascii.eqb _ "," = true |- _ => now apply Ascii.eqb_eq in E end.
Qed.

Lemma replaceTimestamps_eq (s : jsstring) :
  replaceTimestamps s =
  match s with
  | [] => []
  | c :: tl =>
      if timestampAt s then
        match s with
        | h1 :: h2 :: c1 :: m1 :: m2 :: c2 :: s1 :: s2 :: _ :: f1 :: f2 :: f3 :: rest =>
            h1 :: h2 :: c1 :: m1 :: m2 :: c2 :: s1 :: s2 :: "."%char
               :: f1 :: f2 :: f3 :: replaceTimestamps rest
        | _ => c :: replaceTimestamps tl
        end
      else c :: replaceTimestamps tl
  end.
Proof. destruct s; reflexivity. Qed.

Lemma replaceTimestamps_hit (s : jsstring) :
  timestampAt s = true ->
  replaceTimestamps s
  = firstn 8 s ++ "."%char :: firstn 3 (skipn 9 s)
      ++ replaceTimestamps (skipn 12 s).
Proof.
  intros H. rewrite replaceTimestamps_eq.
  explode12 s; try (simpl in H; discriminate).
  rewrite H. reflexivity.
Qed.

Lemma replaceTimestamps_miss (c : ascii) (tl : jsstring) :
  timestampAt (c :: tl) = false ->
  replaceTimestamps (c :: tl) = c :: replaceTimestamps tl.
Proof.
  intros H. rewrite replaceTimestamps_eq, H. reflexivity.
Qed.

(** Induction along the scan. *)
Lemma scan_ind (Q : jsstring -> Prop) :
  Q [] ->
  (forall s, timestampAt s = true -> Q (skipn 12 s) -> Q s) ->
  (forall c tl, timestampAt (c :: tl) = false -> Q tl -> Q (c :: tl)) ->
  forall s, Q s.
Proof.
  intros Hnil Hhit Hmiss s.
  remember (length s) as n eqn:Hn. revert s Hn.
  induction n as [n IH] using lt_wf_ind. intros s Hn.
  destruct s as [|c tl]; [exact Hnil|].
  destruct (timestampAt (c :: tl)) eqn:E.
  - apply Hhit; [exact E|].
    apply (IH (length (skipn 12 (c :: tl)))); [|reflexivity].
    rewrite length_skipn. subst n. simpl. lia.
  - apply Hmiss; [exact E|].
    apply (IH (length tl)); [subst n; simpl; lia|reflexivity].
Qed.

Lemma replaceTimestamps_length (s : jsstring) :
  length (replaceTimestamps s) = length s.
Proof.
  induction s as [| s H IH | c tl H IH] using scan_ind.
  - reflexivity.
  - rewrite (replaceTimestamps_hit s H).
    pose proof (timestampAt_length s H) as Hl.
    rewrite length_app. cbn [length]. rewrite length_app, IH.
    rewrite !length_firstn, !length_skipn. lia.
  - rewrite (replaceTimestamps_miss c tl H). simpl. now rewrite IH.
Qed.

(** A character of the output is the character of the input at the same
    place, or the period that took the place of a timestamp's comma. *)
Lemma replaceTimestamps_pointwise (s : jsstring) :
  forall i c,
    nth_error (replaceTimestamps s) i = Some c ->
    nth_error s i = Some c \/
    (c = "."%char /\ nth_error s i = Some ","%char /\
     exists p, i = (p + 8)%nat /\ timestampAt (skipn p s) = true).
Proof.
  induction s as [| s H IH | ch tl H IH] using scan_ind; intros i c Hi.
  - now left.
  - rewrite (replaceTimestamps_hit s H) in Hi.
    pose proof (timestampAt_comma s H) as Hc.
    explode12 s; simpl in H; try discriminate.
    simpl in Hi, Hc, IH.
    do 12 (destruct i as [|i]; [simpl in Hi |- *;
            first [ now left
                  | right; injection Hi as <-; repeat split; [exact Hc|];
                    exists 0%nat; split; [reflexivity|];
                    simpl; exact H ]|]).
    simpl in Hi. destruct (IH i c Hi) as [Hs | [Hd [Hs [p [Hp Ht]]]]].
    + now left.
    + right. repeat split; try assumption.
      exists (12 + p)%nat. split; [lia|]. exact Ht.
  - rewrite (replaceTimestamps_miss ch tl H) in Hi.
    destruct i as [|i]; [now left|].
    simpl in Hi. destruct (IH i c Hi) as [Hs | [Hd [Hs [p [Hp Ht]]]]].
    + now left.
    + right. repeat split; try assumption.
      exists (S p). split; [lia|]. exact Ht.
Qed.

(** The comma of a timestamp that no earlier timestamp overlaps is
    replaced. *)
Lemma replaceTimestamps_complete (p : nat) :
  forall s,
    timestampAt (skipn p s) = true ->
    (forall q, (q < p)%nat -> (p < q + 12)%nat ->
               timestampAt (skipn q s) = false) ->
    nth_error (replaceTimestamps s) (p + 8) = Some "."%char.
Proof.
  induction p as [p IH] using lt_wf_ind. intros s Hat Hfree.
  destruct p as [|p].
  - simpl in Hat. rewrite (replaceTimestamps_hit s Hat).
    explode12 s; simpl in Hat; try discriminate. reflexivity.
  - destruct (timestampAt s) eqn:E.
    + assert (Hp : (12 <= S p)%nat).
      { destruct (le_lt_dec 12 (S p)) as [Hle|Hlt]; [exact Hle|].
        specialize (Hfree 0%nat ltac:(lia) ltac:(lia)).
        change (timestampAt s = false) in Hfree. congruence. }
      rewrite (replaceTimestamps_hit _ E).
      explode12 s; try (simpl in E; discriminate).
      replace (S p + 8)%nat with (12 + (S p - 12 + 8))%nat by lia.
      replace (S p) with (12 + (S p - 12))%nat in Hat by lia.
      cbn [firstn skipn app nth_error Nat.add] in Hat |- *.
      apply IH; [lia|exact Hat|].
      intros q Hq1 Hq2.
      specialize (Hfree (12 + q)%nat ltac:(lia) ltac:(lia)).
      cbn [skipn Nat.add] in Hfree. exact Hfree.
    + destruct s as [|c tl]; [simpl in Hat; discriminate|].
      rewrite (replaceTimestamps_miss _ _ E). simpl.
      apply IH; [lia|exact Hat|].
      intros q Hq1 Hq2. apply (Hfree (S q)); lia.
Qed.

(** Around a match at the head: the comma becomes a period, the other
    eleven characters stay, and the scan goes on behind them. *)
Lemma replaceTimestamps_hit_nth (s : jsstring) :
  timestampAt s = true ->
  nth_error (replaceTimestamps s) 8 = Some "."%char /\
  (forall i, (i < 12)%nat -> i <> 8%nat ->
             nth_error (replaceTimestamps s) i = nth_error s i) /\
  (forall i, nth_error (replaceTimestamps s) (12 + i)
             = nth_error (replaceTimestamps (skipn 12 s)) i).
Proof.
  intros H. rewrite (replaceTimestamps_hit s H).
  explode12 s; try (simpl in H; discriminate).
  split; [reflexivity|]. split.
  - intros i Hi Hne.
    do 12 (destruct i as [|i]; [first [reflexivity | congruence]|]). lia.
  - intros i. reflexivity.
Qed.

Lemma replaceTimestamps_nth (s : jsstring) (i : nat) (c : ascii) :
  nth_error s i = Some c ->
  nth_error (replaceTimestamps s) i = Some c \/
  (nth_error (replaceTimestamps s) i = Some "."%char /\
   exists p, i = (p + 8)%nat /\ timestampAt (skipn p s) = true).
Proof.
  intros Hs.
  destruct (nth_error (replaceTimestamps s) i) as [d|] eqn:E.
  - destruct (replaceTimestamps_pointwise s i d E) as [Hd | [-> [_ Hp]]].
    + left. congruence.
    + right. now split.
  - apply nth_error_None in E. rewrite replaceTimestamps_length in E.
    apply nth_error_None in E. congruence.
Qed.

(** A comma within the eleven characters behind the comma of a match at the
    head stays: either it lies inside the match, or the scan that resumes
    behind the match has fewer than eight characters in front of it. *)
Lemma replaceTimestamps_behind_hit (s : jsstring) (i : nat) :
  timestampAt s = true -> (8 < i)%nat -> (i < 20)%nat ->
  nth_error s i = Some ","%char ->
  nth_error (replaceTimestamps s) i = Some ","%char.
Proof.
  intros H Hlo Hhi Hc.
  destruct (replaceTimestamps_hit_nth s H) as [_ [Hlow Hhigh]].
  destruct (le_lt_dec 12 i) as [Hge|Hlt].
  - replace i with (12 + (i - 12))%nat in Hc |- * by lia.
    rewrite Hhigh. rewrite <- nth_error_skipn in Hc.
    destruct (replaceTimestamps_nth _ _ _ Hc) as [Hk | [_ [p [Hp _]]]];
      [exact Hk|lia].
  - rewrite Hlow by lia. exact Hc.
Qed.

Lemma timestampAt_comma_at (s : jsstring) (p : nat) :
  timestampAt (skipn p s) = true -> nth_error s (p + 8) = Some ","%char.
Proof.
  intros H. apply timestampAt_comma in H. now rewrite nth_error_skipn in H.
Qed.

(** A timestamp that begins inside an earlier match keeps its comma. *)
Lemma replaceTimestamps_overlap (s : jsstring) :
  forall q p,
    timestampAt (skipn q s) = true ->
    nth_error (replaceTimestamps s) (q + 8) = Some "."%char ->
    (q < p)%nat -> (p < q + 12)%nat ->
    timestampAt (skipn p s) = true ->
    nth_error (replaceTimestamps s) (p + 8) = Some ","%char.
Proof.
  induction s as [| s H IH | c tl H IH] using scan_ind;
    intros q p Hq Hdot Hqp Hpq Hp.
  - rewrite skipn_nil in Hq. discriminate.
  - destruct (replaceTimestamps_hit_nth s H) as [_ [_ Hhigh]].
    destruct (le_lt_dec 12 q) as [Hge|Hlt].
    + replace (p + 8)%nat with (12 + ((p - 12) + 8))%nat by lia.
      rewrite Hhigh. apply (IH (q - 12)%nat).
      * rewrite skipn_skipn. now replace (q - 12 + 12)%nat with q by lia.
      * rewrite <- Hhigh.
        now replace (12 + (q - 12 + 8))%nat with (q + 8)%nat by lia.
      * lia.
      * lia.
      * rewrite skipn_skipn. now replace (p - 12 + 12)%nat with p by lia.
    + destruct q as [|q].
      * apply replaceTimestamps_behind_hit;
          [exact H|lia|lia|now apply timestampAt_comma_at].
      * rewrite (replaceTimestamps_behind_hit s (S q + 8) H) in Hdot;
          [discriminate|lia|lia|now apply timestampAt_comma_at].
  - destruct q as [|q];
      [change (timestampAt (c :: tl) = true) in Hq; congruence|].
    destruct p as [|p]; [lia|].
    rewrite (replaceTimestamps_miss c tl H) in Hdot |- *.
    apply (IH q p); [exact Hq|exact Hdot|lia|lia|exact Hp].
Qed.

(** A timestamp is replaced as soon as every earlier timestamp that reaches
    into it kept its comma. *)
Lemma replaceTimestamps_leftmost (p : nat) :
  forall s,
    timestampAt (skipn p s) = true ->
    (forall q, (q < p)%nat -> (p < q + 12)%nat ->
               timestampAt (skipn q s) = true ->
               nth_error (replaceTimestamps s) (q + 8) = Some ","%char) ->
    nth_error (replaceTimestamps s) (p + 8) = Some "."%char.
Proof.
  induction p as [p IH] using lt_wf_ind. intros s Hat Hkept.
  destruct p as [|p].
  - simpl in Hat. now apply replaceTimestamps_hit_nth.
  - destruct (timestampAt s) eqn:E.
    + destruct (replaceTimestamps_hit_nth s E) as [H8 [_ Hhigh]].
      assert (Hp : (12 <= S p)%nat).
      { destruct (le_lt_dec 12 (S p)) as [Hle|Hlt]; [exact Hle|].
        specialize (Hkept 0%nat ltac:(lia) ltac:(lia) E).
        change (0 + 8)%nat with 8%nat in Hkept. congruence. }
      replace (S p + 8)%nat with (12 + (S p - 12 + 8))%nat by lia.
      rewrite Hhigh. apply IH; [lia| |].
      * rewrite skipn_skipn.
        now replace (S p - 12 + 12)%nat with (S p) by lia.
      * intros q Hq1 Hq2 Hq. rewrite skipn_skipn in Hq.
        rewrite <- Hhigh.
        replace (12 + (q + 8))%nat with (q + 12 + 8)%nat by lia.
        apply Hkept; [lia|lia|exact Hq].
    + destruct s as [|c tl]; [rewrite skipn_nil in Hat; discriminate|].
      rewrite (replaceTimestamps_miss _ _ E).
      apply (IH p); [lia|exact Hat|].
      intros q Hq1 Hq2 Hq.
      specialize (Hkept (S q) ltac:(lia) ltac:(lia) Hq).
      rewrite (replaceTimestamps_miss _ _ E) in Hkept. exact Hkept.
Qed.

Lemma normalizeLineEndings_no_CR (s : jsstring) :
  ~ In CR (normalizeLineEndings s).
Proof.
  unfold normalizeLineEndings, replaceCR. intros H.
  apply in_map_iff in H as [c [Hc _]].
  destruct (Ascii.eqb c CR) eqn:E; [discriminate|].
  apply Ascii.eqb_neq in E. congruence.
Qed.

Lemma replaceCRLF_no_CR (s : jsstring) : ~ In CR s -> replaceCRLF s = s.
Proof.
  induction s as [|c s IH]; intros H; [reflexivity|].
  destruct s as [|d rest]; [reflexivity|].
  change (replaceCRLF (c :: d :: rest))
    with (if Ascii.eqb c CR && Ascii.eqb d LF then LF :: replaceCRLF rest
          else c :: replaceCRLF (d :: rest)).
  destruct (Ascii.eqb c CR) eqn:E.
  - apply Ascii.eqb_eq in E. subst c. exfalso. apply H. now left.
  - simpl andb. rewrite IH; [reflexivity|].
    intros Hin. apply H. now right.
Qed.

Lemma normalizeLineEndings_no_CR_id (s : jsstring) :
  ~ In CR s -> normalizeLineEndings s = s.
Proof.
  intros H. unfold normalizeLineEndings. rewrite (replaceCRLF_no_CR s H).
  unfold replaceCR. induction s as [|c s IH]; [reflexivity|].
  simpl. destruct (Ascii.eqb c CR) eqn:E.
  - apply Ascii.eqb_eq in E. subst c. exfalso. apply H. now left.
  - f_equal. apply IH. intros Hin. apply H. now right.
Qed.

(** Line endings, read off the input from left to right: a character other
    than a carriage return stays, a carriage return with the line feed
    behind it becomes one line feed, and so does a carriage return alone. *)
Lemma normalizeLineEndings_cons (c : ascii) (s : jsstring) :
  c <> CR -> normalizeLineEndings (c :: s) = c :: normalizeLineEndings s.
Proof.
  intros Hc. unfold normalizeLineEndings.
  assert (Hstep : replaceCRLF (c :: s) = c :: replaceCRLF s).
  { destruct s as [|d rest]; [reflexivity|].
    change (replaceCRLF (c :: d :: rest))
      with (if Ascii.eqb c CR && Ascii.eqb d LF then LF :: replaceCRLF rest
            else c :: replaceCRLF (d :: rest)).
    apply Ascii.eqb_neq in Hc. now rewrite Hc. }
  rewrite Hstep. unfold replaceCR. cbn [map].
  apply Ascii.eqb_neq in Hc. now rewrite Hc.
Qed.

Lemma normalizeLineEndings_CRLF (a b : jsstring) :
  ~ In CR a ->
  normalizeLineEndings (a ++ CR :: LF :: b) = a ++ LF :: normalizeLineEndings b.
Proof.
  induction a as [|c a IH]; intros Ha.
  - reflexivity.
  - cbn [app]. rewrite normalizeLineEndings_cons.
    + f_equal. apply IH. intros Hin. apply Ha. now right.
    + intros ->. apply Ha. now left.
Qed.

Lemma normalizeLineEndings_lone_CR (a b : jsstring) :
  ~ In CR a -> startsWith b [LF] = false ->
  normalizeLineEndings (a ++ CR :: b) = a ++ LF :: normalizeLineEndings b.
Proof.
  intros Ha Hb. induction a as [|c a IH].
  - cbn [app]. unfold normalizeLineEndings.
    assert (Hstep : replaceCRLF (CR :: b) = CR :: replaceCRLF b).
    { destruct b as [|d rest]; [reflexivity|].
      change (replaceCRLF (CR :: d :: rest))
        with (if Ascii.eqb CR CR && Ascii.eqb d LF then LF :: replaceCRLF rest
              else CR :: replaceCRLF (d :: rest)).
      cbn [startsWith] in Hb. rewrite andb_true_r in Hb.
      destruct (Ascii.eqb d LF) eqn:E; [|now rewrite andb_false_r].
      apply Ascii.eqb_eq in E. subst d.
      rewrite Ascii.eqb_refl in Hb. discriminate. }
    rewrite Hstep. reflexivity.
  - cbn [app]. rewrite normalizeLineEndings_cons.
    + f_equal. apply IH. intros Hin. apply Ha. now right.
    + intros ->. apply Ha. now left.
Qed.

(** C6 (as amended). The output is the header followed by the input with
    its line endings normalized, in which a left-to-right scan that resumes
    behind each match has replaced the comma of every [dd:dd:dd,ddd] it finds
    by a period.

    Line endings: no carriage return is left and text without one is
    untouched; up to the first carriage return the text stays, that carriage
    return becomes one line feed, together with the line feed behind it if
    there is one, and the rest is treated alike.

    Timestamps: the body has the length of the normalized input; each of
    its characters is the input's, or the period in the place of a
    timestamp's comma; a timestamp that begins inside an earlier match keeps
    its comma; a timestamp is replaced as soon as every earlier timestamp
    reaching into it kept its comma, in particular when no earlier timestamp
    reaches into it.  "00:00:01,000 --> 00:00:02,000" becomes
    "00:00:01.000 --> 00:00:02.000". *)
Theorem srtToVtt_rule (s : jsstring) :
  let t := normalizeLineEndings s in
  let body := replaceTimestamps t in
  srtToVtt s = WEBVTT_HEADER ++ body /\
  ~ In CR t /\
  (~ In CR s -> t = s) /\
  length body = length t /\
  (forall i c,
      nth_error body i = Some c ->
      nth_error t i = Some c \/
      (c = "."%char /\ nth_error t i = Some ","%char /\
       exists p, i = (p + 8)%nat /\ timestampAt (skipn p t) = true)) /\
  (forall p,
      timestampAt (skipn p t) = true ->
      (forall q, (q < p)%nat -> (p < q + 12)%nat ->
                 timestampAt (skipn q t) = false) ->
      nth_error body (p + 8) = Some "."%char) /\
  (forall q p,
      timestampAt (skipn q t) = true ->
      nth_error body (q + 8) = Some "."%char ->
      (q < p)%nat -> (p < q + 12)%nat ->
      timestampAt (skipn p t) = true ->
      nth_error body (p + 8) = Some ","%char) /\
  (forall p,
      timestampAt (skipn p t) = true ->
      (forall q, (q < p)%nat -> (p < q + 12)%nat ->
                 timestampAt (skipn q t) = true ->
                 nth_error body (q + 8) = Some ","%char) ->
      nth_error body (p + 8) = Some "."%char) /\
  (forall a b,
      ~ In CR a ->
      normalizeLineEndings (a ++ CR :: LF :: b)
      = a ++ LF :: normalizeLineEndings b) /\
  (forall a b,
      ~ In CR a -> startsWith b [LF] = false ->
      normalizeLineEndings (a ++ CR :: b)
      = a ++ LF :: normalizeLineEndings b) /\
  srtToVtt (str "00:00:01,000 --> 00:00:02,000")
  = WEBVTT_HEADER ++ str "00:00:01.000 --> 00:00:02.000".
Proof.
  intros t body.
  split; [reflexivity|].
  split; [apply normalizeLineEndings_no_CR|].
  split; [apply normalizeLineEndings_no_CR_id|].
  split; [apply replaceTimestamps_length|].
  split; [apply replaceTimestamps_pointwise|].
  split; [intros p; apply replaceTimestamps_complete|].
  split; [apply replaceTimestamps_overlap|].
  split; [intros p; apply replaceTimestamps_leftmost|].
  split; [apply normalizeLineEndings_CRLF|].
  split; [apply normalizeLineEndings_lone_CR|].
  reflexivity.
Qed.

Lemma srtToVtt_rule_witness :
  nth_error
    (replaceTimestamps
       (normalizeLineEndings
          (str "1" ++ [CR; LF] ++ str "00:00:01,000 --> 00:00:02,000")))
    (19 + 8)
  = Some "."%char /\
  nth_error
    (replaceTimestamps (normalizeLineEndings (str "11:22:33,444:55:66,777")))
    (10 + 8)
  = Some ","%char.
Proof.
  split.
  - refine (proj1 (proj2 (proj2 (proj2 (proj2 (proj2
              (srtToVtt_rule
                 (str "1" ++ [CR; LF] ++ str "00:00:01,000 --> 00:00:02,000")))))))
              19%nat _ _).
    + vm_compute. reflexivity.
    + intros q Hq1 Hq2.
      do 19 (destruct q as [|q]; [first [lia | vm_compute; reflexivity]|]).
      lia.
  - refine (proj1 (proj2 (proj2 (proj2 (proj2 (proj2 (proj2
              (srtToVtt_rule (str "11:22:33,444:55:66,777"))))))))
              0%nat 10%nat _ _ _ _ _).
    + vm_compute. reflexivity.
    + vm_compute. reflexivity.
    + lia.
    + lia.
    + vm_compute. reflexivity.
Defined.

(** C6 (as stated) fails on overlapping timestamps.  In
    "11:22:33,444:55:66,777" the text "44:55:66,777" at offset 10 has the
    form [HH:MM:SS,mmm], but the scan resumes at offset 12, behind the first
    match, and its comma stays. *)
Lemma srtToVtt_overlap_keeps_comma :
  let input := str "11:22:33,444:55:66,777" in
  timestampAt (skipn 10 input) = true /\
  nth_error input 18 = Some ","%char /\
  srtToVtt input = WEBVTT_HEADER ++ str "11:22:33.444:55:66,777" /\
  nth_error (srtToVtt input) (length WEBVTT_HEADER + 18) = Some ","%char.
Proof. vm_compute. repeat split. Qed.

(** ** The built-in map *)

Module JsMapFacts.
Section Facts.
Context {V : Type}.
Implicit Types (m : JsMap.t V) (k : jsstring) (v : V).

Lemma get_set m k v k' :
  JsMap.get (JsMap.set m k v) k'
  = if jseqb k k' then Some v else JsMap.get m k'.
Proof.
  induction m as [|[k0 v0] m IH]; simpl; [reflexivity|].
  destruct (jseqb k0 k) eqn:E0; simpl.
  - apply jseqb_eq in E0. subst k0.
    destruct (jseqb k k'); reflexivity.
  - rewrite IH. destruct (jseqb k0 k') eqn:E1; [|reflexivity].
    apply jseqb_eq in E1. subst k0. now rewrite jseqb_sym, E0.
Qed.

Lemma get_set_same m k v : JsMap.get (JsMap.set m k v) k = Some v.
Proof. now rewrite get_set, jseqb_refl. Qed.

(** [set] keeps the keys that are there, in their order, and adds a new
    key at the end. *)
Lemma keys_set m k v :
  map fst (JsMap.set m k v)
  = if JsMap.has m k then map fst m else map fst m ++ [k].
Proof.
  unfold JsMap.has.
  induction m as [|[k0 v0] m IH]; simpl; [reflexivity|].
  destruct (jseqb k0 k) eqn:E0; simpl; [reflexivity|].
  rewrite IH. destruct (JsMap.get m k); reflexivity.
Qed.

Lemma get_in m k v : JsMap.get m k = Some v -> In (k, v) m.
Proof.
  induction m as [|[k0 v0] m IH]; simpl; [discriminate|].
  destruct (jseqb k0 k) eqn:E0.
  - intros [= <-]. apply jseqb_eq in E0. subst. now left.
  - intros H. right. auto.
Qed.

Lemma get_none m k : JsMap.get m k = None <-> ~ In k (map fst m).
Proof.
  induction m as [|[k0 v0] m IH]; simpl; [tauto|].
  destruct (jseqb k0 k) eqn:E0.
  - apply jseqb_eq in E0. subst. split; [discriminate|tauto].
  - apply jseqb_neq in E0. rewrite IH. tauto.
Qed.
End Facts.

(** Appending to the array of a directory, creating it when missing. *)
Lemma get_ensure_push {A : Type} (m : JsMap.t (list A)) (d dir : jsstring) (x : A) :
  orEmpty
    (JsMap.get
       (JsMap.push (if negb (JsMap.has m d) then JsMap.set m d [] else m) d x)
       dir)
  = orEmpty (JsMap.get m dir) ++ (if jseqb d dir then [x] else []).
Proof.
  unfold JsMap.has, JsMap.push.
  destruct (JsMap.get m d) as [l|] eqn:E; simpl negb; cbv iota.
  - rewrite E, get_set.
    destruct (jseqb d dir) eqn:Ed.
    + apply jseqb_eq in Ed. subst dir. now rewrite E.
    + now rewrite app_nil_r.
  - rewrite get_set_same, !get_set.
    destruct (jseqb d dir) eqn:Ed.
    + apply jseqb_eq in Ed. subst dir. now rewrite E.
    + now rewrite app_nil_r.
Qed.
End JsMapFacts.

(** ** The indexing pass *)

Section Indexing.
Variable P : Platform.

Lemma indexFile_images (ix : Index) (f : File.t) (dir : jsstring) :
  orEmpty (JsMap.get (fst (indexFile P ix f)) dir)
  = orEmpty (JsMap.get (fst ix) dir)
      ++ (if isImageFile f && jseqb (dirOf f) dir then [folderImage P f] else []).
Proof.
  destruct ix as [imgs subs]. unfold indexFile, isImageFile.
  destruct (startsWith (File.type f) (str "image/")); simpl andb.
  - cbn [fst]. apply JsMapFacts.get_ensure_push.
  - destruct (isSubtitleFile f); cbn [fst]; now rewrite app_nil_r.
Qed.

Lemma indexFile_subtitles (ix : Index) (f : File.t) (dir : jsstring) :
  orEmpty (JsMap.get (snd (indexFile P ix f)) dir)
  = orEmpty (JsMap.get (snd ix) dir)
      ++ (if negb (isImageFile f) && isSubtitleFile f && jseqb (dirOf f) dir
          then [f] else []).
Proof.
  destruct ix as [imgs subs]. unfold indexFile, isImageFile.
  destruct (startsWith (File.type f) (str "image/")); simpl negb; simpl andb.
  - cbn [snd]. now rewrite app_nil_r.
  - destruct (isSubtitleFile f); simpl andb; cbn [snd].
    + apply JsMapFacts.get_ensure_push.
    + now rewrite app_nil_r.
Qed.

Lemma fold_indexFile (files : list File.t) (ix : Index) (dir : jsstring) :
  orEmpty (JsMap.get (fst (fold_left (indexFile P) files ix)) dir)
  = orEmpty (JsMap.get (fst ix) dir) ++ imagesInDirectory P files dir
  /\
  orEmpty (JsMap.get (snd (fold_left (indexFile P) files ix)) dir)
  = orEmpty (JsMap.get (snd ix) dir) ++ subtitlesInDirectory files dir.
Proof.
  revert ix. induction files as [|f files IH]; intros ix; simpl.
  - now rewrite !app_nil_r.
  - destruct (IH (indexFile P ix f)) as [Hi Hs].
    rewrite Hi, Hs, indexFile_images, indexFile_subtitles, <- !app_assoc.
    unfold imagesInDirectory, subtitlesInDirectory. simpl filter.
    split.
    + destruct (isImageFile f && jseqb (dirOf f) dir); reflexivity.
    + destruct (negb (isImageFile f) && isSubtitleFile f && jseqb (dirOf f) dir);
        reflexivity.
Qed.

(** The two arrays the resolver finds for a directory. *)
Lemma buildIndex_images (files : list File.t) (dir : jsstring) :
  orEmpty (JsMap.get (fst (buildIndex P files)) dir)
  = imagesInDirectory P files dir.
Proof. apply (fold_indexFile files ([], []) dir). Qed.

Lemma buildIndex_subtitles (files : list File.t) (dir : jsstring) :
  orEmpty (JsMap.get (snd (buildIndex P files)) dir)
  = subtitlesInDirectory files dir.
Proof. apply (fold_indexFile files ([], []) dir). Qed.
End Indexing.

(** ** The sidecar resolver *)

Lemma processVideo_thumbnailUrl P files ix cid n file :
  VideoAsset.thumbnailUrl (processVideo P files ix cid n file)
  = selectThumbnail P (orEmpty (JsMap.get (fst ix) (dirOf file)))
      (nameWithoutExt file) file.
Proof. destruct ix. reflexivity. Qed.

Lemma processVideo_subtitles P files ix cid n file :
  VideoAsset.subtitles (processVideo P files ix cid n file)
  = map subtitleTrack
      (matchSubtitles (orEmpty (JsMap.get (snd ix) (dirOf file)))
         (nameWithoutExt file)).
Proof. destruct ix. reflexivity. Qed.

Lemma processVideo_metadata P files ix cid n file :
  VideoAsset.metadata (processVideo P files ix cid n file)
  = resolveMetadata P files file.
Proof. destruct ix. reflexivity. Qed.

(** With URLs that are never empty, the sequence of guarded assignments is
    the priority chain. *)
Lemma selectThumbnail_chain P (assets : list FolderImage.t) baseName file :
  (forall a, In a assets -> truthy (FolderImage.url a) = true) ->
  selectThumbnail P assets baseName file
  = thumbnailByPriority P assets baseName file.
Proof.
  intros Hurl. unfold selectThumbnail, thumbnailByPriority.
  assert (Hset : forall q m, find q assets = Some m ->
                             unset (Some (FolderImage.url m)) = false).
  { intros q m Hm. apply find_some in Hm as [Hin _].
    simpl. now rewrite (Hurl m Hin). }
  change (unset None) with true. cbv zeta iota.
  destruct (find isPriorityName assets) as [m1|] eqn:E1.
  { repeat (rewrite (Hset _ _ E1); cbv iota). reflexivity. }
  change (unset None) with true. cbv iota.
  destruct (find hasPoster assets) as [m2|] eqn:E2.
  { repeat (rewrite (Hset _ _ E2); cbv iota). reflexivity. }
  change (unset None) with true. cbv iota.
  destruct (find (isExactName baseName) assets) as [m3|] eqn:E3.
  { repeat (rewrite (Hset _ _ E3); cbv iota). reflexivity. }
  change (unset None) with true. cbv iota.
  unfold unset. destruct (truthy (generateVideoThumbnail P file)); reflexivity.
Qed.

Lemma imagesInDirectory_url P files dir :
  (forall f, truthy (createObjectURL P f) = true) ->
  forall a, In a (imagesInDirectory P files dir) ->
            truthy (FolderImage.url a) = true.
Proof.
  intros Hurl a Hin. unfold imagesInDirectory in Hin.
  apply in_map_iff in Hin as [f [<- _]]. apply Hurl.
Qed.

(** C2. For a video of a batch, with [images] the images of the video's
    directory in batch order: the thumbnail is the first image whose name is
    a priority name if there is one; else the first whose name contains
    "poster" if there is one; else the first whose name equals the video's
    base name if there is one; else the generated thumbnail.  So an image of
    a higher class, when present, is always preferred to any lower
    candidate.  (Object URLs are never empty.) *)
Theorem thumbnail_priority (P : Platform) (files : list File.t)
    (cid : jsstring) (n : nat) (file : File.t) :
  (forall f, truthy (createObjectURL P f) = true) ->
  let images := imagesInDirectory P files (dirOf file) in
  let baseName := nameWithoutExt file in
  let thumb :=
    VideoAsset.thumbnailUrl (processVideo P files (buildIndex P files) cid n file) in
  thumb = thumbnailByPriority P images baseName file /\
  (forall a, In a images -> isPriorityName a = true ->
     exists m, In m images /\ isPriorityName m = true /\
               thumb = Some (FolderImage.url m)) /\
  ((forall a, In a images -> isPriorityName a = false) ->
   forall a, In a images -> hasPoster a = true ->
     exists m, In m images /\ hasPoster m = true /\
               thumb = Some (FolderImage.url m)) /\
  ((forall a, In a images -> isPriorityName a = false) ->
   (forall a, In a images -> hasPoster a = false) ->
   forall a, In a images -> isExactName baseName a = true ->
     exists m, In m images /\ isExactName baseName m = true /\
               thumb = Some (FolderImage.url m)) /\
  ((forall a, In a images -> isPriorityName a = false) ->
   (forall a, In a images -> hasPoster a = false) ->
   (forall a, In a images -> isExactName baseName a = false) ->
   thumb = if truthy (generateVideoThumbnail P file)
           then Some (generateVideoThumbnail P file) else None).
Proof.
  intros Hurl images baseName thumb.
  assert (Hchain : thumb = thumbnailByPriority P images baseName file).
  { unfold thumb. rewrite processVideo_thumbnailUrl, buildIndex_images.
    apply selectThumbnail_chain. now apply imagesInDirectory_url. }
  assert (Hnone : forall q, (forall a, In a images -> q a = false) ->
                            find q images = None).
  { intros q Hq. destruct (find q images) as [m|] eqn:E; [|reflexivity].
    apply find_some in E as [Hin Hm]. rewrite (Hq m Hin) in Hm. discriminate. }
  assert (Hsome : forall q a, In a images -> q a = true ->
                              exists m, find q images = Some m).
  { intros q a Hin Ha. destruct (find q images) as [m|] eqn:E; [now exists m|].
    rewrite (find_none _ _ E a Hin) in Ha. discriminate. }
  split; [exact Hchain|]. rewrite Hchain. unfold thumbnailByPriority.
  split; [|split; [|split]].
  - intros a Hin Ha. destruct (Hsome _ a Hin Ha) as [m Hm].
    exists m. rewrite Hm. apply find_some in Hm as [? ?]. auto.
  - intros H1 a Hin Ha. rewrite (Hnone _ H1).
    destruct (Hsome _ a Hin Ha) as [m Hm].
    exists m. rewrite Hm. apply find_some in Hm as [? ?]. auto.
  - intros H1 H2 a Hin Ha. rewrite (Hnone _ H1), (Hnone _ H2).
    destruct (Hsome _ a Hin Ha) as [m Hm].
    exists m. rewrite Hm. apply find_some in Hm as [? ?]. auto.
  - intros H1 H2 H3. now rewrite (Hnone _ H1), (Hnone _ H2), (Hnone _ H3).
Qed.

Lemma thumbnail_priority_witness :
  VideoAsset.thumbnailUrl
    (processVideo examplePlatform exampleBatch
       (buildIndex examplePlatform exampleBatch) (str "c1") 0
       (libFile "Movie.mp4" "video/mp4"))
  = Some (str "blob:Cover.jpg").
Proof.
  refine (eq_trans
            (proj1 (thumbnail_priority examplePlatform exampleBatch (str "c1") 0
                      (libFile "Movie.mp4" "video/mp4") _)) _).
  - intros f. reflexivity.
  - vm_compute. reflexivity.
Defined.

(** Directories with fewer classes of images: a "poster" name wins over the
    video's own name, the video's own name over generation, and without any
    image the generated thumbnail, here unavailable, is what remains. *)
Example thumbnail_examples :
  let video := libFile "Movie.mp4" "video/mp4" in
  let own := libFile "movie.jpg" "image/jpeg" in
  let poster := libFile "my-poster.png" "image/png" in
  let other := libFile "holiday.png" "image/png" in
  VideoAsset.thumbnailUrl (ingest examplePlatform [video; own; poster] video)
  = Some (str "blob:my-poster.png") /\
  VideoAsset.thumbnailUrl (ingest examplePlatform [video; other; own] video)
  = Some (str "blob:movie.jpg") /\
  VideoAsset.thumbnailUrl (ingest examplePlatform [video; other] video) = None.
Proof. vm_compute. repeat split. Qed.

(** C4 (as amended). The subtitles attached to a video are exactly the
    subtitle files of its directory, in batch order, whose full lower-cased
    file name (extension included) starts with the video's base name.
    "Movie.mp4" acquires "movie.srt", "movie.en.srt" and
    "movie.en.forced.srt" but not "my_movie.srt". *)
Theorem subtitles_attached (P : Platform) (files : list File.t)
    (cid : jsstring) (n : nat) (file : File.t) :
  VideoAsset.subtitles (processVideo P files (buildIndex P files) cid n file)
  = map subtitleTrack
      (filter (fun sub => startsWith (toLowerCase (File.name sub))
                                     (nameWithoutExt file))
              (subtitlesInDirectory files (dirOf file)))
  /\
  map SubtitleTrack.label
      (VideoAsset.subtitles
         (ingest examplePlatform exampleBatch (libFile "Movie.mp4" "video/mp4")))
  = [str "movie.srt"; str "movie.en.srt"; str "movie.en.forced.srt"].
Proof.
  split.
  - now rewrite processVideo_subtitles, buildIndex_subtitles.
  - vm_compute. reflexivity.
Qed.

(** C4 (as stated) fails: the test is made on the subtitle's full name, not
    on its stripped name.  Next to "clip.a.mp4" (base name "clip.a") the
    file "clip.ass" is attached, although its stripped name "clip" does not
    start with "clip.a". *)
Lemma subtitle_match_uses_full_name :
  let video := libFile "clip.a.mp4" "video/mp4" in
  let sub := libFile "clip.ass" "" in
  map SubtitleTrack.label
      (VideoAsset.subtitles (ingest examplePlatform [video; sub] video))
  = [str "clip.ass"] /\
  nameWithoutExt video = str "clip.a" /\
  strippedName (File.name sub) = str "clip" /\
  startsWith (strippedName (File.name sub)) (nameWithoutExt video) = false.
Proof. vm_compute. repeat split. Qed.

(** ** Metadata *)

Lemma lastIndexOfAux_spec (c : ascii) (s : jsstring) :
  forall i acc,
    (~ In c s -> lastIndexOfAux c s i acc = acc) /\
    (In c s ->
     exists stem ext,
       s = stem ++ c :: ext /\ ~ In c ext /\
       lastIndexOfAux c s i acc = i + Z.of_nat (length stem)).
Proof.
  induction s as [|d s IH]; intros i acc; simpl.
  - split; [reflexivity|tauto].
  - destruct (IH (i + 1) (if Ascii.eqb d c then i else acc)) as [Hno Hyes].
    destruct (in_dec ascii_dec c s) as [Hin|Hnin].
    + split; [tauto|]. intros _.
      destruct (Hyes Hin) as [stem [ext [-> [Hext Hv]]]].
      exists (d :: stem), ext. repeat split; [exact Hext|].
      rewrite Hv. simpl length. lia.
    + rewrite (Hno Hnin). destruct (Ascii.eqb d c) eqn:E.
      * apply Ascii.eqb_eq in E. subst d. split; [tauto|]. intros _.
        exists [], s. repeat split; [exact Hnin|]. simpl. lia.
      * apply Ascii.eqb_neq in E. split; [reflexivity|].
        intros [Hd|Hin]; [congruence|contradiction].
Qed.

Lemma substring_prefix (stem tl : jsstring) :
  substring (stem ++ tl) 0 (Z.of_nat (length stem)) = stem.
Proof.
  unfold substring. rewrite length_app.
  replace (Z.min (Z.max 0 0) _) with 0 by lia.
  replace (Z.min (Z.max (Z.of_nat (length stem)) 0) _)
    with (Z.of_nat (length stem)) by lia.
  replace (Z.min 0 (Z.of_nat (length stem))) with 0 by lia.
  replace (Z.max 0 (Z.of_nat (length stem))) with (Z.of_nat (length stem)) by lia.
  rewrite Z.sub_0_r, Nat2Z.id. simpl skipn.
  rewrite firstn_app, Nat.sub_diag, firstn_all. simpl. apply app_nil_r.
Qed.

(** A name with a dot is its stem, the last dot, and a dot-free extension. *)
Lemma stem_of_dotted_name (name : jsstring) :
  In "."%char name ->
  exists ext,
    name = substring name 0 (lastIndexOf name ".") ++ "."%char :: ext /\
    ~ In "."%char ext.
Proof.
  intros Hin. unfold lastIndexOf.
  destruct (proj2 (lastIndexOfAux_spec "." name 0 (-1)) Hin)
    as [stem [ext [Hname [Hext Hv]]]].
  exists ext. rewrite Hv. simpl. subst name.
  rewrite substring_prefix. auto.
Qed.

Lemma isVideoFile_has_dot (file : File.t) :
  isVideoFile file = true -> In "."%char (File.name file).
Proof.
  unfold isVideoFile. intros H.
  apply existsb_exists in H as [ext [Hext Hends]].
  apply endsWith_suffix in Hends as [u Hu].
  assert (Hdot : In "."%char (toLowerCase (File.name file))).
  { rewrite Hu. apply in_or_app. right.
    simpl in Hext.
    repeat (destruct Hext as [<-|Hext]; [now left|]). contradiction. }
  apply in_map_iff in Hdot as [c [Hc Hin]].
  apply (proj1 (toLowerChar_dot c)) in Hc. now subst c.
Qed.

Lemma parseNFO_total (P : Platform) (nfo : File.t) :
  exists t p g,
    parseNFO P nfo = VideoMetadata.mkPartial (Some t) (Some p) (Some g).
Proof. unfold parseNFO. eauto. Qed.

(** C8. For a video file of a batch: when the lookup finds no metadata
    sidecar, the metadata is the default one, whose title is the file name
    up to its last dot, with empty plot and no tags; when it finds one, the
    parser returns a title, a plot and a tag list, and the metadata consists
    of exactly these three, each taken whole. *)
Theorem metadata_default_or_sidecar (P : Platform) (files : list File.t)
    (cid : jsstring) (n : nat) (file : File.t) :
  isVideoFile file = true ->
  let metadata :=
    VideoAsset.metadata (processVideo P files (buildIndex P files) cid n file) in
  match findNfo files (dirOf file) (nameWithoutExt file) with
  | None =>
      (exists ext,
          File.name file = VideoMetadata.title metadata ++ "."%char :: ext /\
          ~ In "."%char ext) /\
      VideoMetadata.plot metadata = [] /\
      VideoMetadata.tags metadata = []
  | Some nfoFile =>
      exists t p g,
        parseNFO P nfoFile = VideoMetadata.mkPartial (Some t) (Some p) (Some g) /\
        metadata = VideoMetadata.mk t p g
  end.
Proof.
  intros Hvideo metadata. unfold metadata.
  rewrite processVideo_metadata. unfold resolveMetadata.
  destruct (findNfo files (dirOf file) (nameWithoutExt file)) as [nfo|].
  - destruct (parseNFO_total P nfo) as [t [p [g Hp]]].
    exists t, p, g. split; [exact Hp|]. now rewrite Hp.
  - repeat split.
    apply stem_of_dotted_name, isVideoFile_has_dot, Hvideo.
Qed.

Lemma metadata_default_or_sidecar_witness :
  (exists t p g,
      parseNFO examplePlatform
        (File.mk (str "movie.nfo") (str "lib/movie.nfo") [] 0 (str "The Movie"))
      = VideoMetadata.mkPartial (Some t) (Some p) (Some g) /\
      VideoAsset.metadata
        (processVideo examplePlatform nfoBatch
           (buildIndex examplePlatform nfoBatch) (str "c1") 0
           (libFile "Movie.mp4" "video/mp4"))
      = VideoMetadata.mk t p g) /\
  ((exists ext,
       str "Movie.mp4"
       = VideoMetadata.title
           (VideoAsset.metadata
              (processVideo examplePlatform exampleBatch
                 (buildIndex examplePlatform exampleBatch) (str "c1") 0
                 (libFile "Movie.mp4" "video/mp4")))
           ++ "."%char :: ext /\
       ~ In "."%char ext) /\
   VideoMetadata.plot
     (VideoAsset.metadata
        (processVideo examplePlatform exampleBatch
           (buildIndex examplePlatform exampleBatch) (str "c1") 0
           (libFile "Movie.mp4" "video/mp4"))) = [] /\
   VideoMetadata.tags
     (VideoAsset.metadata
        (processVideo examplePlatform exampleBatch
           (buildIndex examplePlatform exampleBatch) (str "c1") 0
           (libFile "Movie.mp4" "video/mp4"))) = []).
Proof.
  split.
  - exact (metadata_default_or_sidecar examplePlatform nfoBatch (str "c1") 0
             (libFile "Movie.mp4" "video/mp4") eq_refl).
  - exact (metadata_default_or_sidecar examplePlatform exampleBatch (str "c1") 0
             (libFile "Movie.mp4" "video/mp4") eq_refl).
Defined.

Example metadata_examples :
  VideoAsset.metadata (ingest examplePlatform nfoBatch (libFile "Movie.mp4" "video/mp4"))
  = VideoMetadata.mk (str "The Movie") [] [] /\
  VideoAsset.metadata (ingest examplePlatform exampleBatch (libFile "Movie.mp4" "video/mp4"))
  = VideoMetadata.mk (str "Movie") [] [].
Proof. vm_compute. split; reflexivity. Qed.

(** ** Export and import *)

Lemma decode_all_map {A B : Type} (enc : A -> json) (dec : json -> option B)
    (f : A -> B) (l : list A) :
  (forall x, dec (enc x) = Some (f x)) ->
  Decode.all (map dec (map enc l)) = Some (map f l).
Proof.
  intros H. induction l as [|x l IH]; simpl; [reflexivity|].
  now rewrite H, IH.
Qed.

Lemma decode_tags (tags : list jsstring) :
  Decode.array (fun t => Decode.string (Some t)) (Some (JArr (map JStr tags)))
  = Some tags.
Proof.
  unfold Decode.array.
  rewrite (decode_all_map JStr (fun t => Decode.string (Some t)) (fun t => t))
    by reflexivity.
  now rewrite map_id.
Qed.

Lemma decode_metadata (m : VideoMetadata.t) :
  Decode.metadata (Some (Encode.metadata m)) = Some m.
Proof.
  destruct m as [t p g]. unfold Decode.metadata, Encode.metadata.
  change (getField _ (str "title")) with (Some (JStr t)).
  change (getField _ (str "plot")) with (Some (JStr p)).
  change (getField _ (str "tags")) with (Some (JArr (map JStr g))).
  now rewrite decode_tags.
Qed.

Lemma decode_subtitle (s : SubtitleTrack.t) :
  Decode.subtitle (Encode.subtitle s) = Some (dropSubtitleHandle s).
Proof. destruct s. reflexivity. Qed.

Lemma decode_nullable (x : option jsstring) :
  Decode.nullable (Some (jsonOfNullable x)) = Some x.
Proof. destruct x; reflexivity. Qed.

Lemma decode_video (v : VideoAsset.t) :
  Decode.video (Encode.video v) = Some (dropHandles v).
Proof.
  destruct v as [i c f r h t m z s]. unfold Decode.video, Encode.video.
  change (getField _ (str "id")) with (Some (JStr i)).
  change (getField _ (str "collectionId")) with (Some (JStr c)).
  change (getField _ (str "fileName")) with (Some (JStr f)).
  change (getField _ (str "relativePath")) with (Some (JStr r)).
  change (getField _ (str "thumbnailUrl")) with (Some (jsonOfNullable t)).
  change (getField _ (str "metadata")) with (Some (Encode.metadata m)).
  change (getField _ (str "size")) with (Some (JNum z)).
  change (getField _ (str "subtitles"))
    with (Some (JArr (map Encode.subtitle s))).
  cbn [VideoAsset.id VideoAsset.collectionId VideoAsset.fileName
       VideoAsset.relativePath VideoAsset.thumbnailUrl VideoAsset.metadata
       VideoAsset.size VideoAsset.subtitles].
  rewrite decode_nullable, decode_metadata.
  unfold Decode.array.
  rewrite (decode_all_map _ _ _ s decode_subtitle).
  reflexivity.
Qed.

Lemma decode_collection (c : Collection.t) :
  Decode.collection (Encode.collection c) = Some c.
Proof.
  destruct c as [i n t]. unfold Decode.collection, Encode.collection.
  change (getField _ (str "id")) with (Some (JStr i)).
  change (getField _ (str "name")) with (Some (JStr n)).
  change (getField _ (str "thumbnailUrl")) with (Some (jsonOfNullable t)).
  cbn [Collection.id Collection.name Collection.thumbnailUrl].
  now rewrite decode_nullable.
Qed.

Lemma decode_export (state : AppState) :
  Decode.state (handleExportData state) = Some (persisted state).
Proof.
  unfold Decode.state, handleExportData.
  change (getField _ (str "collections"))
    with (Some (JArr (map Encode.collection (collections state)))).
  change (getField _ (str "videos"))
    with (Some (JArr (map Encode.video (videos state)))).
  unfold Decode.array.
  rewrite (decode_all_map _ _ _ _ decode_collection), map_id.
  now rewrite (decode_all_map _ _ _ _ decode_video).
Qed.

Lemma persistentPart_dropHandles (v : VideoAsset.t) :
  persistentPart (dropHandles v) = persistentPart v.
Proof.
  unfold persistentPart, dropHandles. simpl. rewrite map_map. reflexivity.
Qed.

(** C7. An exported document is accepted by the import as a current index
    and loads, whatever the state before, as the exported state without its
    handles: the collections are the same; the videos are the same in
    number, order and every field (id, collection, file name, path,
    thumbnail URL, metadata with its tags, size, subtitle labels and
    languages); only the video and subtitle handles are absent. *)
Theorem export_import_roundtrip (state before : AppState) :
  handleImportData (Some (handleExportData state))
  = (Some (handleExportData state), MSG_LOADED) /\
  importIndex before (Some (handleExportData state)) = Some (persisted state) /\
  collections (persisted state) = collections state /\
  map persistentPart (videos (persisted state))
  = map persistentPart (videos state) /\
  map VideoAsset.metadata (videos (persisted state))
  = map VideoAsset.metadata (videos state) /\
  Forall (fun v => VideoAsset.fileHandle v = None /\
                   Forall (fun s => SubtitleTrack.fileHandle s = None)
                          (VideoAsset.subtitles v))
         (videos (persisted state)).
Proof.
  assert (Himport : handleImportData (Some (handleExportData state))
                    = (Some (handleExportData state), MSG_LOADED)) by reflexivity.
  split; [exact Himport|]. split; [|split; [|split; [|split]]].
  - unfold importIndex. rewrite Himport. cbn [fst].
    now rewrite decode_export.
  - reflexivity.
  - unfold persisted. cbn [videos]. rewrite map_map.
    apply map_ext. apply persistentPart_dropHandles.
  - unfold persisted. cbn [videos]. now rewrite map_map.
  - unfold persisted. cbn [videos]. apply Forall_forall.
    intros v Hin. apply in_map_iff in Hin as [v0 [<- _]].
    split; [reflexivity|]. apply Forall_forall.
    intros s Hs. cbn [dropHandles VideoAsset.subtitles] in Hs.
    apply in_map_iff in Hs as [s0 [<- _]]. reflexivity.
Qed.

Example roundtrip_example :
  importIndex initialState (Some (handleExportData exampleLibrary))
  = Some (persisted exampleLibrary) /\
  length (videos exampleLibrary) = 1%nat /\
  map (fun c => Collection.thumbnailUrl c) (collections exampleLibrary)
  = [Some (str "blob:Cover.jpg")].
Proof. vm_compute. repeat split. Qed.

(** ** Relinking *)

Section FileMap.
Implicit Types (files : list File.t) (k : jsstring).

Lemma buildFileMap_snoc files f :
  buildFileMap (files ++ [f])
  = JsMap.set (buildFileMap files) (fileKey f) f.
Proof. unfold buildFileMap. now rewrite fold_left_app. Qed.

Lemma lastWithKey_snoc files f k :
  lastWithKey (files ++ [f]) k
  = if jseqb (fileKey f) k then Some f else lastWithKey files k.
Proof. unfold lastWithKey. now rewrite rev_app_distr. Qed.

(** The lookup holds, under a path, the last file of the batch with that
    path. *)
Lemma get_buildFileMap files k :
  JsMap.get (buildFileMap files) k = lastWithKey files k.
Proof.
  induction files as [|f files IH] using rev_ind; [reflexivity|].
  rewrite buildFileMap_snoc, JsMapFacts.get_set, lastWithKey_snoc.
  now rewrite IH.
Qed.

Lemma lastWithKey_in files k f :
  lastWithKey files k = Some f -> In f files /\ fileKey f = k.
Proof.
  unfold lastWithKey. intros H. apply find_some in H as [Hin Hk].
  split; [now apply in_rev|now apply jseqb_eq].
Qed.

Lemma lastWithKey_present files g :
  In g files -> exists h, lastWithKey files (fileKey g) = Some h.
Proof.
  intros Hin. unfold lastWithKey.
  destruct (find _ (rev files)) as [h|] eqn:E; [now exists h|].
  apply in_rev in Hin.
  pose proof (find_none _ _ E g Hin) as Hg. simpl in Hg.
  now rewrite jseqb_refl in Hg.
Qed.

Lemma firstWithKey_none files k :
  firstWithKey files k = None <-> lastWithKey files k = None.
Proof.
  unfold firstWithKey, lastWithKey. split; intros H.
  - destruct (find _ (rev files)) as [h|] eqn:E; [|reflexivity].
    apply find_some in E as [Hin Hk]. apply in_rev in Hin.
    rewrite (find_none _ _ H h Hin) in Hk. discriminate.
  - destruct (find _ files) as [h|] eqn:E; [|reflexivity].
    apply find_some in E as [Hin Hk]. apply in_rev in Hin.
    rewrite (find_none _ _ H h Hin) in Hk. discriminate.
Qed.

Lemma NoDup_key_inj files f g :
  NoDup (map fileKey files) -> In f files -> In g files ->
  fileKey f = fileKey g -> f = g.
Proof.
  induction files as [|x files IH]; simpl; [tauto|].
  intros Hnd Hf Hg Hk. inversion Hnd as [|? ? Hx Hnd']; subst.
  destruct Hf as [<-|Hf], Hg as [<-|Hg].
  - reflexivity.
  - exfalso. apply Hx. rewrite Hk. now apply in_map.
  - exfalso. apply Hx. rewrite <- Hk. now apply in_map.
  - now apply IH.
Qed.

(** With pairwise distinct paths the lookup holds each file itself. *)
Lemma lastWithKey_NoDup files g :
  NoDup (map fileKey files) -> In g files ->
  lastWithKey files (fileKey g) = Some g.
Proof.
  intros Hnd Hin. destruct (lastWithKey_present files g Hin) as [h Hh].
  rewrite Hh. f_equal.
  apply lastWithKey_in in Hh as [Hh Hk].
  now apply (NoDup_key_inj files).
Qed.

Lemma firstWithKey_NoDup files k :
  NoDup (map fileKey files) -> lastWithKey files k = firstWithKey files k.
Proof.
  intros Hnd. destruct (firstWithKey files k) as [f|] eqn:E.
  - unfold firstWithKey in E. apply find_some in E as [Hin Hk].
    apply jseqb_eq in Hk. subst k. now apply lastWithKey_NoDup.
  - exact (proj1 (firstWithKey_none files k) E).
Qed.

(** The first entry of the lookup with a property of its key, after one
    more [set]. *)
Lemma find_set (Q : jsstring -> bool) (m : JsMap.t File.t) k (v : File.t) :
  find (fun e => Q (fst e)) (JsMap.set m k v)
  = match find (fun e => Q (fst e)) m with
    | Some (k0, v0) => Some (k0, if jseqb k0 k then v else v0)
    | None => if Q k then Some (k, v) else None
    end.
Proof.
  induction m as [|[k0 v0] m IH]; [reflexivity|].
  cbn [JsMap.set]. destruct (jseqb k0 k) eqn:E0.
  - cbn [find fst]. destruct (Q k0) eqn:Eq0.
    + now rewrite E0.
    + apply jseqb_eq in E0. subst k0.
      destruct (find (fun e => Q (fst e)) m) as [[k1 v1]|] eqn:E1.
      * destruct (jseqb k1 k) eqn:E; [|reflexivity].
        apply jseqb_eq in E. subst k1.
        apply find_some in E1 as [_ Hq]. simpl in Hq. congruence.
      * now rewrite Eq0.
  - cbn [find fst]. destruct (Q k0) eqn:Eq0.
    + now rewrite E0.
    + exact IH.
Qed.

Lemma find_snoc {A : Type} (q : A -> bool) (l : list A) (x : A) :
  find q (l ++ [x])
  = match find q l with
    | Some y => Some y
    | None => if q x then Some x else None
    end.
Proof.
  induction l as [|y l IH]; simpl; [reflexivity|].
  destruct (q y); [reflexivity|exact IH].
Qed.

(** The first entry of the lookup whose key has a property: the key is
    that of the first such file of the batch, the file is the last one of
    the batch with that key. *)
Lemma find_buildFileMap (Q : jsstring -> bool) files :
  find (fun e => Q (fst e)) (buildFileMap files)
  = match find (fun f => Q (fileKey f)) files with
    | Some g =>
        match lastWithKey files (fileKey g) with
        | Some h => Some (fileKey g, h)
        | None => None
        end
    | None => None
    end.
Proof.
  induction files as [|f files IH] using rev_ind; [reflexivity|].
  rewrite buildFileMap_snoc, find_set, IH, find_snoc.
  destruct (find (fun f0 => Q (fileKey f0)) files) as [g|] eqn:E.
  - apply find_some in E as [Hin _].
    destruct (lastWithKey_present files g Hin) as [h Hh].
    rewrite Hh, lastWithKey_snoc, Hh, (jseqb_sym (fileKey f)).
    destruct (jseqb (fileKey g) (fileKey f)); reflexivity.
  - destruct (Q (fileKey f)); [|reflexivity].
    now rewrite lastWithKey_snoc, jseqb_refl.
Qed.

Lemma looseMatch_buildFileMap files fileName :
  looseMatch (buildFileMap files) fileName
  = match firstEndingWith files fileName with
    | Some g => lastWithKey files (fileKey g)
    | None => None
    end.
Proof.
  unfold looseMatch, firstEndingWith, JsMap.entries.
  rewrite (find_buildFileMap (fun k => endsWith k fileName)).
  destruct (find _ files) as [g|]; [|reflexivity].
  destruct (lastWithKey files (fileKey g)); reflexivity.
Qed.

(** Relinking one asset, read on the batch. *)
Lemma relinkVideo_batch files (v : VideoAsset.t) :
  relinkVideo (buildFileMap files) v
  = match lastWithKey files (VideoAsset.relativePath v) with
    | Some f => VideoAsset.withFileHandle v (Some f)
    | None =>
        match firstEndingWith files (lastSegment (VideoAsset.relativePath v)) with
        | Some g => VideoAsset.withFileHandle v (lastWithKey files (fileKey g))
        | None => v
        end
    end.
Proof.
  unfold relinkVideo. rewrite get_buildFileMap, looseMatch_buildFileMap.
  destruct (lastWithKey files (VideoAsset.relativePath v)); [reflexivity|].
  destruct (firstEndingWith files _) as [g|] eqn:E; [|reflexivity].
  apply find_some in E as [Hin _].
  destruct (lastWithKey_present files g Hin) as [h ->]. reflexivity.
Qed.

Lemma relinkVideo_NoDup files (v : VideoAsset.t) :
  NoDup (map fileKey files) ->
  relinkVideo (buildFileMap files) v = relinkByPath files v.
Proof.
  intros Hnd. rewrite relinkVideo_batch. unfold relinkByPath.
  rewrite (firstWithKey_NoDup files _ Hnd).
  destruct (firstWithKey files _); [reflexivity|].
  destruct (firstEndingWith files _) as [g|] eqn:E; [|reflexivity].
  apply find_some in E as [Hin _].
  now rewrite (lastWithKey_NoDup files g Hnd Hin).
Qed.
End FileMap.

Lemma lastSegment_trailing_slash (path : jsstring) :
  endsWith path (str "/") = true -> lastSegment path = [].
Proof.
  intros H. apply endsWith_suffix in H as [u ->].
  unfold lastSegment, pop. change (str "/") with ["/"%char].
  rewrite split_app. simpl split. rewrite rev_app_distr. reflexivity.
Qed.

Lemma last_occurrence (c : ascii) (s : jsstring) :
  ~ In c s \/ exists pre post, s = pre ++ c :: post /\ ~ In c post.
Proof.
  induction s as [|d s IH]; [left; tauto|].
  destruct IH as [Hno|[pre [post [-> Hpost]]]].
  - destruct (ascii_dec d c) as [->|Hne].
    + right. exists [], s. now split.
    + left. intros [H|H]; [now apply Hne|now apply Hno].
  - right. exists (d :: pre), post. now split.
Qed.

Lemma lastSegment_behind_slash (dir name : jsstring) :
  ~ In "/"%char name -> lastSegment (dir ++ "/"%char :: name) = name.
Proof.
  intros Hname. unfold lastSegment, pop.
  rewrite split_app, (split_without _ _ Hname), rev_app_distr.
  cbn [rev app orElse]. now destruct name.
Qed.

Lemma lastSegment_without_slash (path : jsstring) :
  ~ In "/"%char path -> lastSegment path = path.
Proof.
  intros Hpath. unfold lastSegment, pop.
  rewrite (split_without _ _ Hpath). cbn [rev app orElse]. now destruct path.
Qed.

(** The segment that the loose match takes is the last path segment, and
    a path has no other. *)
Lemma lastSegmentOf_iff (path seg : jsstring) :
  lastSegmentOf path seg <-> seg = lastSegment path.
Proof.
  split.
  - intros [Hseg [->|[dir ->]]].
    + now rewrite lastSegment_without_slash.
    + now rewrite lastSegment_behind_slash.
  - intros ->. destruct (last_occurrence "/"%char path) as [Hno|[pre [post [-> Hpost]]]].
    + rewrite (lastSegment_without_slash _ Hno). split; [exact Hno|now left].
    + rewrite (lastSegment_behind_slash _ _ Hpost).
      split; [exact Hpost|]. right. now exists pre.
Qed.

(** C3. Relinking an asset against a batch, with the lookup built from the
    batch: if a batch entry has the stored path, the asset is bound to the
    entry the lookup holds under that path, which is a batch entry with
    exactly that path; otherwise it is bound to the first entry, in the
    lookup's order, whose path ends with the last segment of the stored
    path; otherwise the asset is returned as it is, so an absent handle
    stays absent.  The last segment is what follows the last slash of the
    stored path, the whole path when it has no slash; every path has
    exactly one, and it is the one the code takes.  On a batch whose paths
    are pairwise distinct the lookup's order is the batch's, and the rule is
    [relinkByPath].  In general the lookup keeps a path at its first
    position with its last file.  So an asset stored as "A/B/movie.mp4"
    is bound to a new entry "X/movie.mp4" when that is all the batch
    holds. *)
Theorem relink_binding (files : list File.t) (v : VideoAsset.t) :
  let fileMap := buildFileMap files in
  let path := VideoAsset.relativePath v in
  let relinked := relinkVideo fileMap v in
  ((exists f, In f files /\ fileKey f = path) ->
   exists f, JsMap.get fileMap path = Some f /\ In f files /\ fileKey f = path /\
             relinked = VideoAsset.withFileHandle v (Some f)) /\
  (forall seg, lastSegmentOf path seg <-> seg = lastSegment path) /\
  (forall seg,
     lastSegmentOf path seg ->
     (forall f, In f files -> fileKey f <> path) ->
     forall e,
       find (fun e => endsWith (fst e) seg) (JsMap.entries fileMap) = Some e ->
       relinked = VideoAsset.withFileHandle v (Some (snd e))) /\
  (forall seg,
     lastSegmentOf path seg ->
     (forall f, In f files -> fileKey f <> path) ->
     find (fun e => endsWith (fst e) seg) (JsMap.entries fileMap) = None ->
     relinked = v /\
     (VideoAsset.fileHandle v = None -> VideoAsset.fileHandle relinked = None)) /\
  (NoDup (map fileKey files) ->
   JsMap.entries fileMap = map (fun f => (fileKey f, f)) files /\
   relinked = relinkByPath files v /\
   forall seg,
     lastSegmentOf path seg ->
     relinked =
       match find (fun f => jseqb (fileKey f) path) files with
       | Some f => VideoAsset.withFileHandle v (Some f)
       | None =>
           match find (fun f => endsWith (fileKey f) seg) files with
           | Some g => VideoAsset.withFileHandle v (Some g)
           | None => v
           end
       end) /\
  relinked =
    match lastWithKey files path with
    | Some f => VideoAsset.withFileHandle v (Some f)
    | None =>
        match firstEndingWith files (lastSegment path) with
        | Some g => VideoAsset.withFileHandle v (lastWithKey files (fileKey g))
        | None => v
        end
    end /\
  relinkVideo (buildFileMap [grantedFile "X/movie.mp4" 1])
    (storedAsset "A/B/movie.mp4")
  = VideoAsset.withFileHandle (storedAsset "A/B/movie.mp4")
      (Some (grantedFile "X/movie.mp4" 1)).
Proof.
  intros fileMap path relinked.
  assert (Hnone : (forall f, In f files -> fileKey f <> path) ->
                  JsMap.get fileMap path = None).
  { intros Hno. unfold fileMap. rewrite get_buildFileMap.
    destruct (lastWithKey files path) as [f|] eqn:E; [|reflexivity].
    apply lastWithKey_in in E as [Hin Hk]. now apply Hno in Hin. }
  split; [|split; [|split; [|split; [|split; [|split]]]]].
  - intros [f [Hin Hk]]. subst path.
    destruct (lastWithKey_present files f Hin) as [h Hh].
    exists h. unfold fileMap at 1. rewrite get_buildFileMap. rewrite Hk in Hh.
    split; [exact Hh|].
    destruct (lastWithKey_in _ _ _ Hh) as [Hhin Hhk].
    repeat split; try assumption.
    unfold relinked, relinkVideo, fileMap.
    now rewrite get_buildFileMap, Hh.
  - intros seg. apply lastSegmentOf_iff.
  - intros seg Hseg Hno e He.
    apply lastSegmentOf_iff in Hseg. subst seg.
    unfold relinked, relinkVideo. fold path.
    rewrite (Hnone Hno). unfold looseMatch. now rewrite He.
  - intros seg Hseg Hno He.
    apply lastSegmentOf_iff in Hseg. subst seg.
    assert (Hv : relinked = v).
    { unfold relinked, relinkVideo. fold path. rewrite (Hnone Hno).
      unfold looseMatch. now rewrite He. }
    split; [exact Hv|]. now rewrite Hv.
  - intros Hnd.
    split; [|split; [now apply relinkVideo_NoDup|]].
    + unfold fileMap, JsMap.entries. clear -Hnd.
      induction files as [|f files IH] using rev_ind; [reflexivity|].
      rewrite buildFileMap_snoc, map_app. rewrite map_app in Hnd.
      assert (Hnd' : NoDup (map fileKey files))
        by (eapply NoDup_app_remove_r; exact Hnd).
      specialize (IH Hnd').
      assert (Hfresh : JsMap.get (buildFileMap files) (fileKey f) = None).
      { rewrite get_buildFileMap.
        destruct (lastWithKey files (fileKey f)) as [h|] eqn:E; [|reflexivity].
        apply lastWithKey_in in E as [Hin Hk].
        simpl in Hnd. apply NoDup_remove_2 in Hnd. rewrite app_nil_r in Hnd.
        exfalso. apply Hnd. rewrite <- Hk. now apply in_map. }
      rewrite IH in Hfresh |- *. clear IH Hnd Hnd'.
      induction files as [|g files IH]; [reflexivity|].
      simpl in Hfresh |- *.
      destruct (jseqb (fileKey g) (fileKey f)); [discriminate|].
      now rewrite (IH Hfresh).
    + intros seg Hseg. apply lastSegmentOf_iff in Hseg. subst seg.
      unfold relinked, fileMap. now rewrite (relinkVideo_NoDup files v Hnd).
  - apply relinkVideo_batch.
  - vm_compute. reflexivity.
Qed.

Lemma relink_binding_witness :
  relinkVideo (buildFileMap [grantedFile "X/movie.mp4" 1])
    (storedAsset "A/B/movie.mp4")
  = VideoAsset.withFileHandle (storedAsset "A/B/movie.mp4")
      (Some (grantedFile "X/movie.mp4" 1)) /\
  relinkVideo
    (buildFileMap [grantedFile "X/movie.mp4" 1; grantedFile "A/B/movie.mp4" 2])
    (storedAsset "A/B/movie.mp4")
  = relinkByPath [grantedFile "X/movie.mp4" 1; grantedFile "A/B/movie.mp4" 2]
      (storedAsset "A/B/movie.mp4").
Proof.
  split.
  - refine (proj1 (proj2 (proj2
              (relink_binding [grantedFile "X/movie.mp4" 1]
                 (storedAsset "A/B/movie.mp4"))))
              (str "movie.mp4") _ _
              (str "X/movie.mp4", grantedFile "X/movie.mp4" 1) _).
    + split; [vm_compute; intuition discriminate|].
      right. exists (str "A/B"). reflexivity.
    + intros f [<-|[]]. vm_compute. intros H. discriminate H.
    + vm_compute. reflexivity.
  - refine (proj1 (proj2
              (proj1 (proj2 (proj2 (proj2 (proj2
                 (relink_binding
                    [grantedFile "X/movie.mp4" 1; grantedFile "A/B/movie.mp4" 2]
                    (storedAsset "A/B/movie.mp4")))))) _))).
    apply NoDup_cons; [simpl; intros [H|[]]; discriminate H|].
    apply NoDup_cons; [intros []|apply NoDup_nil].
Defined.

(** The examples of the specification: the exact path wins over an earlier
    entry with the same file name; without it the same file name under
    another folder is taken; without either nothing is bound. *)
Example relink_examples :
  let asset := storedAsset "A/B/movie.mp4" in
  relinkVideo
    (buildFileMap [grantedFile "X/movie.mp4" 1; grantedFile "A/B/movie.mp4" 2])
    asset
  = VideoAsset.withFileHandle asset (Some (grantedFile "A/B/movie.mp4" 2)) /\
  relinkVideo (buildFileMap [grantedFile "X/movie.mp4" 1]) asset
  = VideoAsset.withFileHandle asset (Some (grantedFile "X/movie.mp4" 1)) /\
  relinkVideo (buildFileMap [grantedFile "X/other.mp4" 1]) asset = asset.
Proof. vm_compute. repeat split. Qed.

Lemma firstWithKey_absent (files : list File.t) (k : jsstring) :
  firstWithKey files k = None -> forall f, In f files -> fileKey f <> k.
Proof.
  intros H f Hin Hk. pose proof (find_none _ _ H f Hin) as Hf.
  simpl in Hf. rewrite Hk, jseqb_refl in Hf. discriminate.
Qed.

Lemma relinkVideo_miss (files : list File.t) (v : VideoAsset.t) :
  firstWithKey files (VideoAsset.relativePath v) = None ->
  firstEndingWith files (lastSegment (VideoAsset.relativePath v)) = None ->
  relinkVideo (buildFileMap files) v = v.
Proof.
  intros Hexact Hloose. rewrite relinkVideo_batch.
  rewrite (proj1 (firstWithKey_none _ _) Hexact). now rewrite Hloose.
Qed.

Lemma unresolved_positive (vs : list VideoAsset.t) (v : VideoAsset.t) :
  In v vs -> VideoAsset.fileHandle v = None -> (1 <= unresolved vs)%nat.
Proof.
  intros Hin Hnone. unfold unresolved.
  assert (Hf : In v (filter (fun v => match VideoAsset.fileHandle v with
                                      | None => true
                                      | Some _ => false
                                      end) vs)).
  { apply filter_In. split; [exact Hin|]. now rewrite Hnone. }
  destruct (filter _ vs); [contradiction|simpl; lia].
Qed.

(** C9 (as amended). An asset without a handle that matches no entry of the
    batch, neither by path nor by file name, comes out of the relink as it
    went in: it is still in the list, the list has its length, the
    collections are untouched, and the operation always returns.  No count
    is produced: the caller gets the new state and a fixed message, and the
    unresolved assets are those of the state whose handle is absent. *)
Theorem relink_total_miss (state : AppState) (files : list File.t)
    (v : VideoAsset.t) :
  In v (videos state) ->
  VideoAsset.fileHandle v = None ->
  firstWithKey files (VideoAsset.relativePath v) = None ->
  firstEndingWith files (lastSegment (VideoAsset.relativePath v)) = None ->
  let result := handleUpdatePaths state files in
  relinkVideo (buildFileMap files) v = v /\
  In v (videos (fst result)) /\
  length (videos (fst result)) = length (videos state) /\
  collections (fst result) = collections state /\
  (1 <= unresolved (videos (fst result)))%nat /\
  snd result = str "Paths updated. Please verify playback.".
Proof.
  intros Hin Hnone Hexact Hloose result.
  pose proof (relinkVideo_miss files v Hexact Hloose) as Hsame.
  assert (Hkept : In v (videos (fst result))).
  { unfold result, handleUpdatePaths. cbn [fst reducer videos].
    rewrite <- Hsame at 1. now apply in_map. }
  split; [exact Hsame|]. split; [exact Hkept|].
  split; [|split; [reflexivity|split; [|reflexivity]]].
  - unfold result, handleUpdatePaths. cbn [fst reducer videos].
    apply length_map.
  - now apply (unresolved_positive _ v).
Qed.

Lemma relink_total_miss_witness :
  relinkVideo (buildFileMap [grantedFile "X/other.mp4" 1])
    (storedAsset "A/B/movie.mp4")
  = storedAsset "A/B/movie.mp4".
Proof.
  refine (proj1
            (relink_total_miss
               (mkAppState [] [storedAsset "A/B/movie.mp4"])
               [grantedFile "X/other.mp4" 1]
               (storedAsset "A/B/movie.mp4") _ _ _ _)).
  - simpl. left. reflexivity.
  - reflexivity.
  - vm_compute. reflexivity.
  - vm_compute. reflexivity.
Defined.

(** C9 (as stated) fails in its last part: nothing that the relink hands
    back depends on how many assets stay unresolved.  With one asset left
    unresolved and with none, the message is the same text. *)
Lemma relink_reports_no_count :
  let state := mkAppState [] [storedAsset "A/B/movie.mp4"] in
  let miss := handleUpdatePaths state [grantedFile "X/other.mp4" 1] in
  let hit := handleUpdatePaths state [grantedFile "X/movie.mp4" 1] in
  unresolved (videos (fst miss)) = 1%nat /\
  unresolved (videos (fst hit)) = 0%nat /\
  snd miss = snd hit /\
  snd miss = str "Paths updated. Please verify playback.".
Proof. vm_compute. repeat split. Qed.

(** C10. When the stored path ends with "/" and no entry of a non-empty
    batch has that path, the last segment is empty, every key ends with it,
    and the asset is bound to the first entry of the lookup.  A batch comes
    from the directory picker, so its paths are pairwise distinct; no later
    entry then has the first entry's path, the lookup's first entry is the
    batch's, and the asset is bound to the first entry of the batch.  In
    general the lookup holds, under the path of the first batch entry, the
    last file of the batch with that path. *)
Theorem relink_trailing_slash (f0 : File.t) (rest : list File.t)
    (v : VideoAsset.t) :
  let files := f0 :: rest in
  let path := VideoAsset.relativePath v in
  endsWith path (str "/") = true ->
  firstWithKey files path = None ->
  lastSegment path = [] /\
  (forall f, endsWith (fileKey f) (lastSegment path) = true) /\
  (exists h tl,
      JsMap.entries (buildFileMap files) = (fileKey f0, h) :: tl /\
      lastWithKey files (fileKey f0) = Some h /\
      relinkVideo (buildFileMap files) v = VideoAsset.withFileHandle v (Some h)) /\
  (~ In (fileKey f0) (map fileKey rest) ->
   relinkVideo (buildFileMap files) v = VideoAsset.withFileHandle v (Some f0)).
Proof.
  intros files path Hslash Hexact.
  pose proof (lastSegment_trailing_slash path Hslash) as Hseg.
  assert (Hall : forall f, endsWith (fileKey f) (lastSegment path) = true).
  { intros f. rewrite Hseg. apply endsWith_empty. }
  assert (Hrel : relinkVideo (buildFileMap files) v
                 = VideoAsset.withFileHandle v (lastWithKey files (fileKey f0))).
  { rewrite relinkVideo_batch. fold path.
    rewrite (proj1 (firstWithKey_none _ _) Hexact).
    unfold firstEndingWith, files. cbn [find]. now rewrite Hall. }
  destruct (lastWithKey_present files f0 (or_introl eq_refl)) as [h Hh].
  split; [exact Hseg|]. split; [exact Hall|]. split.
  - pose proof (find_buildFileMap (fun _ => true) files) as Hfirst.
    unfold files in Hfirst at 2. cbn [find] in Hfirst. rewrite Hh in Hfirst.
    unfold JsMap.entries.
    destruct (buildFileMap files) as [|e tl]; [discriminate|].
    cbn [find] in Hfirst. injection Hfirst as ->.
    exists h, tl. repeat split; [exact Hh|]. now rewrite Hrel, Hh.
  - intros Hfresh. rewrite Hrel. f_equal.
    unfold lastWithKey, files. cbn [rev]. rewrite find_snoc.
    destruct (find _ (rev rest)) as [g|] eqn:E.
    + apply find_some in E as [Hin Hk]. apply jseqb_eq in Hk.
      exfalso. apply Hfresh. rewrite <- Hk. apply in_map. now apply in_rev.
    + now rewrite jseqb_refl.
Qed.

Lemma relink_trailing_slash_witness :
  relinkVideo
    (buildFileMap [grantedFile "X/other.mp4" 1; grantedFile "X/movie.mp4" 2])
    (storedAsset "A/B/")
  = VideoAsset.withFileHandle (storedAsset "A/B/")
      (Some (grantedFile "X/other.mp4" 1)).
Proof.
  refine (proj2 (proj2 (proj2
            (relink_trailing_slash (grantedFile "X/other.mp4" 1)
               [grantedFile "X/movie.mp4" 2] (storedAsset "A/B/") _ _))) _).
  - vm_compute. reflexivity.
  - vm_compute. reflexivity.
  - simpl. intros [H|[]]. discriminate H.
Defined.

(** * Further properties of the library code *)

(** ** Classification *)

Lemma suffixes_comparable (s p q : jsstring) :
  endsWith s p = true -> endsWith s q = true ->
  (length p <= length q)%nat -> endsWith q p = true.
Proof.
  intros Hp Hq Hlen.
  apply endsWith_suffix in Hp as [u Hu]. apply endsWith_suffix in Hq as [w Hw].
  apply endsWith_suffix. exists (firstn (length q - length p) q).
  assert (Hskip : skipn (length q - length p) q = p).
  { assert (H1 : skipn (length w) s = q)
      by (rewrite Hw, skipn_app, skipn_all, Nat.sub_diag; reflexivity).
    assert (H2 : skipn (length u) s = p)
      by (rewrite Hu, skipn_app, skipn_all, Nat.sub_diag; reflexivity).
    assert (Hl : (length u = length q - length p + length w)%nat).
    { assert (length s = length u + length p)%nat
        by (rewrite Hu; apply length_app).
      assert (length s = length w + length q)%nat
        by (rewrite Hw; apply length_app).
      lia. }
    transitivity (skipn (length q - length p) (skipn (length w) s));
      [now rewrite H1|].
    rewrite skipn_skipn, <- Hl. exact H2. }
  pose proof (firstn_skipn (length q - length p) q) as Hq.
  rewrite Hskip in Hq. now symmetry.
Qed.

Lemma suffixes_nested (s p q : jsstring) :
  endsWith s p = true -> endsWith s q = true ->
  endsWith q p || endsWith p q = true.
Proof.
  intros Hp Hq. apply orb_true_iff.
  destruct (le_lt_dec (length p) (length q)) as [H|H].
  - left. now apply (suffixes_comparable s).
  - right. apply (suffixes_comparable s); [assumption|assumption|lia].
Qed.

(** X1. No file name carries both a video and a subtitle extension: a file
    processed as a video is never filed as a subtitle. *)
Theorem video_and_subtitle_disjoint (file : File.t) :
  isVideoFile file = true -> isSubtitleFile file = false.
Proof.
  intros Hv. destruct (isSubtitleFile file) eqn:Hs; [|reflexivity].
  unfold isVideoFile in Hv. unfold isSubtitleFile in Hs.
  apply existsb_exists in Hv as [e1 [Hin1 He1]].
  apply existsb_exists in Hs as [e2 [Hin2 He2]].
  pose proof (suffixes_nested _ _ _ He1 He2) as Hnest.
  assert (Hall : forallb (fun a => forallb (fun b =>
                    negb (endsWith b a || endsWith a b)) SUBTITLE_EXTENSIONS)
                  SUPPORTED_EXTENSIONS = true) by (vm_compute; reflexivity).
  rewrite forallb_forall in Hall. specialize (Hall e1 Hin1).
  rewrite forallb_forall in Hall. specialize (Hall e2 Hin2).
  rewrite Hnest in Hall. discriminate.
Qed.

Lemma video_and_subtitle_disjoint_witness :
  isSubtitleFile (libFile "Movie.SRT.MP4" "video/mp4") = false.
Proof.
  apply video_and_subtitle_disjoint. vm_compute. reflexivity.
Defined.

(** ** Directories *)

Lemma join_split (c : ascii) (s : jsstring) : join [c] (split c s) = s.
Proof.
  induction s as [|d s IH]; [reflexivity|].
  simpl split. destruct (Ascii.eqb d c) eqn:E.
  - apply Ascii.eqb_eq in E. subst d.
    pose proof (split_nonempty c s) as Hne.
    revert IH Hne. destruct (split c s) as [|seg segs]; intros IH Hne;
      [contradiction|].
    rewrite <- IH. reflexivity.
  - pose proof (split_nonempty c s) as Hne.
    revert IH Hne. destruct (split c s) as [|seg segs]; intros IH Hne;
      [contradiction|].
    destruct segs as [|seg' segs]; simpl in IH |- *; now rewrite <- IH.
Qed.

Lemma removelast_snoc {A : Type} (l : list A) (x : A) :
  removelast (l ++ [x]) = l.
Proof. rewrite removelast_app by discriminate. simpl. apply app_nil_r. Qed.

Lemma dirOf_path (dir name type text : jsstring) (size : Z) :
  ~ In "/"%char name ->
  dirOf (File.mk name (dir ++ "/"%char :: name) type size text) = dir.
Proof.
  intros Hname. unfold dirOf. cbn [File.webkitRelativePath].
  rewrite split_app, (split_without _ _ Hname). unfold sliceInit.
  rewrite removelast_snoc. apply (join_split "/").
Qed.

(** X2. The directory of a file is its relative path up to the last slash:
    for a path [dir/name] it is [dir], whatever slashes [dir] has; for a path
    without a slash, and for a file without a relative path, it is the empty
    string. *)
Theorem dirOf_is_parent_path :
  (forall (dir name type text : jsstring) (size : Z),
      ~ In "/"%char name ->
      dirOf (File.mk name (dir ++ "/"%char :: name) type size text) = dir) /\
  (forall (name path type text : jsstring) (size : Z),
      ~ In "/"%char path ->
      dirOf (File.mk name path type size text) = []).
Proof.
  split.
  - apply dirOf_path.
  - intros name path type text size Hpath. unfold dirOf.
    cbn [File.webkitRelativePath]. now rewrite (split_without _ _ Hpath).
Qed.

Lemma dirOf_is_parent_path_witness :
  dirOf (File.mk (str "movie.mp4") (str "Films/2019" ++ "/"%char :: str "movie.mp4")
           (str "video/mp4") 1 [])
  = str "Films/2019".
Proof.
  apply (proj1 dirOf_is_parent_path). vm_compute. intuition discriminate.
Defined.

(** X3. The index built from a batch holds, for every directory, exactly the
    images of that directory (files with an image MIME type, under their
    stripped name and object URL) and exactly its subtitle files (files with
    a subtitle extension and no image MIME type), both in batch order; a
    directory without any has no group, which reads as an empty one. *)
Theorem index_groups_by_directory (P : Platform) (files : list File.t)
    (dir : jsstring) :
  let '(folderImages, folderSubtitles) := buildIndex P files in
  orEmpty (JsMap.get folderImages dir)
  = map (fun f => FolderImage.mk (nameWithoutExt f) (createObjectURL P f))
        (filter (fun f => startsWith (File.type f) (str "image/")
                          && jseqb (dirOf f) dir) files) /\
  orEmpty (JsMap.get folderSubtitles dir)
  = filter (fun f => negb (startsWith (File.type f) (str "image/"))
                     && isSubtitleFile f && jseqb (dirOf f) dir) files.
Proof.
  pose proof (buildIndex_images P files dir) as Hi.
  pose proof (buildIndex_subtitles P files dir) as Hs.
  destruct (buildIndex P files) as [imgs subs]. split; assumption.
Qed.

(** ** Ingestion of a batch *)

Lemma fold_videos {A : Type} (g : nat -> File.t -> A) (seed : nat)
    (files : list File.t) :
  forall acc,
    fold_left (fun newVideos file =>
                 if isVideoFile file
                 then newVideos ++ [g (seed + length newVideos)%nat file]
                 else newVideos) files acc
    = acc ++ map (fun p => g (seed + fst p)%nat (snd p))
                 (combine (seq (length acc) (length (filter isVideoFile files)))
                          (filter isVideoFile files)).
Proof.
  induction files as [|f files IH]; intros acc; simpl.
  - now rewrite app_nil_r.
  - destruct (isVideoFile f); [|apply IH].
    rewrite IH, length_app, <- app_assoc. simpl.
    now replace (length acc + 1)%nat with (S (length acc)) by lia.
Qed.

Lemma importVideos_eq (P : Platform) (cid : jsstring) (seed : nat)
    (files : list File.t) :
  importVideos P cid seed files
  = map (fun p => processVideo P files (buildIndex P files) cid
                    (seed + fst p) (snd p))
        (combine (seq 0 (length (filter isVideoFile files)))
                 (filter isVideoFile files)).
Proof. unfold importVideos. now rewrite fold_videos. Qed.

Lemma map_combine_seq {A B C : Type} (h : nat -> B) (g : A -> C) (l : list A) :
  forall k,
    (map (fun p => h (fst p)) (combine (seq k (length l)) l)
     = map h (seq k (length l))) /\
    (map (fun p => g (snd p)) (combine (seq k (length l)) l) = map g l).
Proof.
  induction l as [|x l IH]; intros k; simpl; [split; reflexivity|].
  destruct (IH (S k)) as [H1 H2]. now rewrite H1, H2.
Qed.

Lemma processVideo_fields P files ix cid n file :
  let v := processVideo P files ix cid n file in
  VideoAsset.id v = generateUUID P n /\
  VideoAsset.collectionId v = cid /\
  VideoAsset.fileName v = File.name file /\
  VideoAsset.relativePath v = File.webkitRelativePath file /\
  VideoAsset.fileHandle v = Some file /\
  VideoAsset.size v = File.size file.
Proof. destruct ix. repeat split. Qed.

(** X4. Ingesting a batch makes one asset for each video file of the batch
    and for nothing else, in batch order: the asset holds the file itself as
    handle and its name, relative path and size, belongs to the selected
    collection, and the ids are the UUIDs drawn in that order. *)
Theorem import_makes_one_asset_per_video (P : Platform) (cid : jsstring)
    (seed : nat) (files : list File.t) :
  let videoFiles := filter isVideoFile files in
  let assets := importVideos P cid seed files in
  length assets = length videoFiles /\
  map VideoAsset.fileHandle assets = map Some videoFiles /\
  map VideoAsset.fileName assets = map File.name videoFiles /\
  map VideoAsset.relativePath assets = map File.webkitRelativePath videoFiles /\
  map VideoAsset.size assets = map File.size videoFiles /\
  map VideoAsset.id assets
  = map (generateUUID P) (seq seed (length videoFiles)) /\
  Forall (fun v => VideoAsset.collectionId v = cid) assets.
Proof.
  intros videoFiles assets. unfold assets. rewrite importVideos_eq.
  fold videoFiles. set (ix := buildIndex P files).
  split; [now rewrite length_map, length_combine, length_seq, Nat.min_id|].
  rewrite !map_map.
  assert (Hsnd : forall (B : Type) (g : File.t -> B)
                        (proj : VideoAsset.t -> B),
             (forall n f, proj (processVideo P files ix cid n f) = g f) ->
             map (fun p => proj (processVideo P files ix cid
                                   (seed + fst p) (snd p)))
                 (combine (seq 0 (length videoFiles)) videoFiles)
             = map g videoFiles).
  { intros B g proj Hg.
    rewrite <- (proj2 (map_combine_seq (fun n => n) g videoFiles 0%nat)).
    apply map_ext. intros p. apply Hg. }
  repeat split.
  - apply Hsnd. intros. apply processVideo_fields.
  - apply Hsnd. intros. apply processVideo_fields.
  - apply Hsnd. intros. apply processVideo_fields.
  - apply Hsnd. intros. apply processVideo_fields.
  - transitivity (map (fun p : nat * File.t => generateUUID P (seed + fst p))
                      (combine (seq 0 (length videoFiles)) videoFiles)).
    + apply map_ext. intros p. apply processVideo_fields.
    + rewrite (proj1 (map_combine_seq (fun n => generateUUID P (seed + n))
                        (fun f : File.t => f) videoFiles 0%nat)).
      rewrite <- (map_map (fun n => (seed + n)%nat) (generateUUID P)).
      f_equal.
      assert (Hshift : forall n k,
                 map (fun i => (seed + i)%nat) (seq k n) = seq (seed + k) n).
      { induction n as [|n IH]; intros k; simpl; [reflexivity|].
        now rewrite IH, Nat.add_succ_r. }
      now rewrite Hshift, Nat.add_0_r.
  - apply Forall_forall. intros v Hv. apply in_map_iff in Hv as [p [<- _]].
    apply processVideo_fields.
Qed.

(** ** The reducer *)

Lemma existsb_jseqb (x : jsstring) (l : list jsstring) :
  existsb (jseqb x) l = true <-> In x l.
Proof.
  rewrite existsb_exists. split.
  - intros [y [Hin Hy]]. apply jseqb_eq in Hy. now subst.
  - intros Hin. exists x. split; [exact Hin|apply jseqb_refl].
Qed.

Lemma existsb_jseqb_flip (x : jsstring) (l : list jsstring) :
  existsb (fun t => jseqb t x) l = true <-> In x l.
Proof.
  rewrite existsb_exists. split.
  - intros [y [Hin Hy]]. apply jseqb_eq in Hy. now subst.
  - intros Hin. exists x. split; [exact Hin|apply jseqb_refl].
Qed.

Lemma fromSet_in (l : list jsstring) :
  forall seen x, In x (fromSet l seen) <-> In x l /\ ~ In x seen.
Proof.
  induction l as [|y l IH]; intros seen x; simpl; [tauto|].
  destruct (existsb (jseqb y) seen) eqn:E.
  - apply existsb_jseqb in E. rewrite IH. split.
    + tauto.
    + intros [[->|H] Hn]; [contradiction|tauto].
  - assert (Hy : ~ In y seen).
    { intros H. apply existsb_jseqb in H. congruence. }
    simpl. rewrite IH. simpl. split.
    + intros [<-|[H Hn]]; [tauto|]. tauto.
    + intros [[<-|H] Hn]; [now left|].
      destruct (list_eq_dec ascii_dec y x) as [->|Hne]; [now left|].
      right. split; [exact H|]. intros [Heq|Hs]; [congruence|contradiction].
Qed.

Lemma fromSet_NoDup (l : list jsstring) :
  forall seen, NoDup (fromSet l seen).
Proof.
  induction l as [|y l IH]; intros seen; simpl; [constructor|].
  destruct (existsb (jseqb y) seen); [apply IH|].
  constructor; [|apply IH].
  intros H. apply fromSet_in in H as [_ H]. apply H. now left.
Qed.

(** X5. [ADD_VIDEOS] appends the new videos and touches nothing of a
    collection but its thumbnail: a collection whose thumbnail is missing
    (null or empty) takes the thumbnail of the first added video of that
    collection that has one, if any; a collection with a thumbnail keeps
    it. *)
Theorem add_videos_sets_missing_thumbnails (state : AppState)
    (payload : list VideoAsset.t) :
  let state' := reducer state (ADD_VIDEOS payload) in
  videos state' = videos state ++ payload /\
  map Collection.id (collections state') = map Collection.id (collections state) /\
  map Collection.name (collections state')
  = map Collection.name (collections state) /\
  map Collection.thumbnailUrl (collections state')
  = map (fun c =>
           if unset (Collection.thumbnailUrl c) then
             match find (fun v => jseqb (VideoAsset.collectionId v) (Collection.id c)
                                  && negb (unset (VideoAsset.thumbnailUrl v)))
                        payload with
             | Some video => VideoAsset.thumbnailUrl video
             | None => Collection.thumbnailUrl c
             end
           else Collection.thumbnailUrl c)
        (collections state).
Proof.
  intros state'. unfold state'. cbn [reducer videos collections].
  split; [reflexivity|]. rewrite !map_map.
  assert (Hshape : forall c,
             let c' := updateCollectionThumbnail payload
                         (fromSet (map VideoAsset.collectionId payload) []) c in
             Collection.id c' = Collection.id c /\
             Collection.name c' = Collection.name c /\
             Collection.thumbnailUrl c'
             = if unset (Collection.thumbnailUrl c) then
                 match find (fun v => jseqb (VideoAsset.collectionId v)
                                            (Collection.id c)
                                      && negb (unset (VideoAsset.thumbnailUrl v)))
                            payload with
                 | Some video => VideoAsset.thumbnailUrl video
                 | None => Collection.thumbnailUrl c
                 end
               else Collection.thumbnailUrl c).
  { intros c. unfold updateCollectionThumbnail.
    destruct (unset (Collection.thumbnailUrl c)) eqn:Eu.
    - destruct (find _ payload) as [video|] eqn:Ef.
      + assert (Hin : existsb (jseqb (Collection.id c))
                        (fromSet (map VideoAsset.collectionId payload) []) = true).
        { apply existsb_jseqb, fromSet_in. split; [|tauto].
          apply find_some in Ef as [Hv Hc].
          apply andb_true_iff in Hc as [Hc _]. apply jseqb_eq in Hc.
          rewrite <- Hc. now apply in_map. }
        rewrite Hin. simpl. repeat split.
      + destruct (existsb _ _); simpl; repeat split.
    - rewrite andb_false_r. repeat split. }
  repeat split; apply map_ext; intros c; apply Hshape.
Qed.

Lemma filter_all {A : Type} (q : A -> bool) (l : list A) :
  (forall x, In x l -> q x = true) -> filter q l = l.
Proof.
  induction l as [|x l IH]; intros H; simpl; [reflexivity|].
  rewrite (H x (or_introl eq_refl)). f_equal. apply IH.
  intros y Hy. apply H. now right.
Qed.

Lemma filter_filter {A : Type} (p q : A -> bool) (l : list A) :
  filter p (filter q l) = filter (fun x => q x && p x) l.
Proof.
  induction l as [|x l IH]; simpl; [reflexivity|].
  destruct (q x); simpl; [destruct (p x)|]; now rewrite IH.
Qed.

(** X6. Deleting a collection removes that collection and every video of
    it and nothing else: the view of the deleted collection is empty
    afterwards and the view of every other collection is what it was. *)
Theorem delete_collection_cascades (state : AppState) (cid : jsstring) :
  let state' := reducer state (DELETE_COLLECTION cid) in
  (forall c, In c (collections state')
             <-> In c (collections state) /\ Collection.id c <> cid) /\
  (forall v, In v (videos state')
             <-> In v (videos state) /\ VideoAsset.collectionId v <> cid) /\
  filter (fun v => jseqb (VideoAsset.collectionId v) cid) (videos state') = [] /\
  (forall other, other <> cid ->
     filter (fun v => jseqb (VideoAsset.collectionId v) other) (videos state')
     = filter (fun v => jseqb (VideoAsset.collectionId v) other) (videos state)).
Proof.
  intros state'. unfold state'. cbn [reducer videos collections].
  split; [|split; [|split]].
  - intros c. rewrite filter_In, negb_true_iff, jseqb_neq. tauto.
  - intros v. rewrite filter_In, negb_true_iff, jseqb_neq. tauto.
  - rewrite filter_filter.
    induction (videos state) as [|v l IH]; simpl; [reflexivity|].
    destruct (jseqb (VideoAsset.collectionId v) cid); simpl; exact IH.
  - intros other Hother. rewrite filter_filter. apply filter_ext.
    intros v. destruct (jseqb (VideoAsset.collectionId v) other) eqn:E;
      [|apply andb_false_r].
    apply jseqb_eq in E. rewrite E.
    replace (jseqb other cid) with false
      by (symmetry; now apply jseqb_neq).
    reflexivity.
Qed.

Lemma delete_collection_cascades_witness :
  filter (fun v => jseqb (VideoAsset.collectionId v) (str "c1"))
         (videos (reducer exampleLibrary (DELETE_COLLECTION (str "c2"))))
  = filter (fun v => jseqb (VideoAsset.collectionId v) (str "c1"))
           (videos exampleLibrary).
Proof.
  apply (proj2 (proj2 (proj2
           (delete_collection_cascades exampleLibrary (str "c2"))))).
  intros H. discriminate H.
Defined.

(** X7. Creating a collection and deleting it again gives the state back,
    provided its fresh id is not already the id of a collection or the
    collection of a video. *)
Theorem create_then_delete_collection (P : Platform) (state : AppState)
    (n : nat) (name : jsstring) :
  (forall c, In c (collections state) -> Collection.id c <> generateUUID P n) ->
  (forall v, In v (videos state) ->
             VideoAsset.collectionId v <> generateUUID P n) ->
  reducer (handleCreateCollection P state n name)
          (DELETE_COLLECTION (generateUUID P n))
  = state.
Proof.
  intros Hc Hv. destruct state as [cs vs]. unfold handleCreateCollection.
  cbn [reducer collections videos] in *. f_equal.
  - rewrite filter_app. simpl. rewrite jseqb_refl. simpl. rewrite app_nil_r.
    apply filter_all. intros c Hin. apply negb_true_iff, jseqb_neq. auto.
  - apply filter_all. intros v Hin. apply negb_true_iff, jseqb_neq. auto.
Qed.

Lemma create_then_delete_collection_witness :
  reducer (handleCreateCollection examplePlatform exampleLibrary 7 (str "Series"))
          (DELETE_COLLECTION (generateUUID examplePlatform 7))
  = exampleLibrary.
Proof.
  apply create_then_delete_collection.
  - intros c Hc. vm_compute in Hc. destruct Hc as [<-|[]].
    vm_compute. intros H. discriminate H.
  - intros v Hv. vm_compute in Hv. destruct Hv as [<-|[]].
    vm_compute. intros H. discriminate H.
Defined.

(** ** Saving metadata *)

Lemma spread_asPartial (m formData : VideoMetadata.t) :
  VideoMetadata.spread m (MetadataPanel.asPartial formData) = formData.
Proof. destruct formData. reflexivity. Qed.

(** X8. Saving the editor's form replaces the metadata of the videos with
    the edited video's id by the form, whole, and changes nothing else: no
    other video, no other field, no collection; when no video has that id
    the state stays as it is. *)
Theorem save_replaces_metadata (state : AppState) (video : VideoAsset.t)
    (formData : MetadataPanel.FormData) :
  let state' := reducer state (MetadataPanel.handleSave video formData) in
  collections state' = collections state /\
  videos state'
  = map (fun v => if jseqb (VideoAsset.id v) (VideoAsset.id video)
                  then VideoAsset.withMetadata v formData else v)
        (videos state) /\
  map (fun v => (persistentPart (VideoAsset.withMetadata v formData),
                 VideoAsset.fileHandle v, VideoAsset.subtitles v))
      (videos state')
  = map (fun v => (persistentPart (VideoAsset.withMetadata v formData),
                   VideoAsset.fileHandle v, VideoAsset.subtitles v))
        (videos state) /\
  ((forall v, In v (videos state) -> VideoAsset.id v <> VideoAsset.id video) ->
   state' = state).
Proof.
  intros state'. unfold state', MetadataPanel.handleSave.
  cbn [reducer collections videos].
  assert (Hvideos :
            map (fun v => if jseqb (VideoAsset.id v) (VideoAsset.id video)
                          then VideoAsset.withMetadata v
                                 (VideoMetadata.spread (VideoAsset.metadata v)
                                    (MetadataPanel.asPartial formData))
                          else v) (videos state)
            = map (fun v => if jseqb (VideoAsset.id v) (VideoAsset.id video)
                            then VideoAsset.withMetadata v formData else v)
                  (videos state)).
  { apply map_ext. intros v. now rewrite spread_asPartial. }
  rewrite Hvideos. split; [reflexivity|]. split; [reflexivity|]. split.
  - rewrite map_map. apply map_ext. intros v.
    destruct (jseqb (VideoAsset.id v) (VideoAsset.id video)); reflexivity.
  - intros Hfresh. destruct state as [cs vs]. cbn [collections videos] in *.
    f_equal. rewrite <- (map_id vs) at 2. apply map_ext_in.
    intros v Hin.
    replace (jseqb (VideoAsset.id v) (VideoAsset.id video)) with false
      by (symmetry; apply jseqb_neq; auto).
    reflexivity.
Qed.

Lemma save_replaces_metadata_witness :
  reducer exampleLibrary
    (MetadataPanel.handleSave (storedAsset "A/B/movie.mp4")
       (VideoMetadata.mk (str "New") [] []))
  = exampleLibrary.
Proof.
  apply (proj2 (proj2 (proj2
           (save_replaces_metadata exampleLibrary (storedAsset "A/B/movie.mp4")
              (VideoMetadata.mk (str "New") [] []))))).
  intros v Hv. vm_compute in Hv. destruct Hv as [<-|[]].
  vm_compute. intros H. discriminate H.
Defined.

(** X9. What is saved is what the editor shows when the video is opened
    again from the new state, except that an empty title is shown as the
    file name. *)
Theorem editor_shows_what_was_saved (state : AppState) (video : VideoAsset.t)
    (formData : MetadataPanel.FormData) (v' : VideoAsset.t) :
  In v' (videos (reducer state (MetadataPanel.handleSave video formData))) ->
  VideoAsset.id v' = VideoAsset.id video ->
  VideoAsset.metadata v' = formData /\
  (truthy (VideoMetadata.title formData) = true ->
   MetadataPanel.initialFormData v' = formData) /\
  (VideoMetadata.title formData = [] ->
   MetadataPanel.initialFormData v'
   = VideoMetadata.mk (VideoAsset.fileName v') (VideoMetadata.plot formData)
       (VideoMetadata.tags formData)).
Proof.
  intros Hin Hid. unfold MetadataPanel.handleSave in Hin.
  cbn [reducer videos] in Hin. apply in_map_iff in Hin as [v [Hv _]].
  assert (Hmeta : VideoAsset.metadata v' = formData).
  { destruct (jseqb (VideoAsset.id v) (VideoAsset.id video)) eqn:E.
    - subst v'. cbn [VideoAsset.withMetadata VideoAsset.metadata].
      apply spread_asPartial.
    - subst v'. apply jseqb_neq in E. contradiction. }
  split; [exact Hmeta|]. unfold MetadataPanel.initialFormData. rewrite Hmeta.
  destruct formData as [t p g]. simpl. split; intros ->; reflexivity.
Qed.

Lemma editor_shows_what_was_saved_witness :
  MetadataPanel.initialFormData
    (VideoAsset.withMetadata
       (ingest examplePlatform exampleBatch (libFile "Movie.mp4" "video/mp4"))
       (VideoMetadata.mk (str "New") (str "A plot") [str "Drama"]))
  = VideoMetadata.mk (str "New") (str "A plot") [str "Drama"].
Proof.
  refine (proj1 (proj2
            (editor_shows_what_was_saved exampleLibrary
               (ingest examplePlatform exampleBatch
                  (libFile "Movie.mp4" "video/mp4"))
               (VideoMetadata.mk (str "New") (str "A plot") [str "Drama"])
               _ _ _)) _).
  - vm_compute. left. reflexivity.
  - reflexivity.
  - reflexivity.
Defined.

(** ** Relinking, again *)

Lemma relinkVideo_cases (fileMap : JsMap.t File.t) (v : VideoAsset.t) :
  relinkVideo fileMap v = v \/
  exists h, relinkVideo fileMap v = VideoAsset.withFileHandle v (Some h).
Proof.
  unfold relinkVideo.
  destruct (JsMap.get fileMap (VideoAsset.relativePath v)) as [h|].
  - right. now exists h.
  - destruct (looseMatch fileMap _) as [h|]; [right; now exists h|now left].
Qed.

Lemma relinkVideo_persistentPart (fileMap : JsMap.t File.t) (v : VideoAsset.t) :
  persistentPart (relinkVideo fileMap v) = persistentPart v /\
  VideoAsset.subtitles (relinkVideo fileMap v) = VideoAsset.subtitles v.
Proof.
  destruct (relinkVideo_cases fileMap v) as [->|[h ->]]; split; reflexivity.
Qed.

Lemma relinkVideo_idempotent (fileMap : JsMap.t File.t) (v : VideoAsset.t) :
  relinkVideo fileMap (relinkVideo fileMap v) = relinkVideo fileMap v.
Proof.
  unfold relinkVideo at 2.
  destruct (JsMap.get fileMap (VideoAsset.relativePath v)) as [h|] eqn:E.
  - unfold relinkVideo. cbn [VideoAsset.withFileHandle VideoAsset.relativePath].
    rewrite E. reflexivity.
  - destruct (looseMatch fileMap _) as [h|] eqn:El.
    + unfold relinkVideo.
      cbn [VideoAsset.withFileHandle VideoAsset.relativePath].
      rewrite E, El. reflexivity.
    + unfold relinkVideo. now rewrite E, El.
Qed.

Lemma relinkVideo_keeps_bound (fileMap : JsMap.t File.t) (v : VideoAsset.t) :
  VideoAsset.fileHandle (relinkVideo fileMap v) = None ->
  VideoAsset.fileHandle v = None.
Proof.
  destruct (relinkVideo_cases fileMap v) as [->|[h ->]];
    [trivial|discriminate].
Qed.

(** X10. Relinking changes nothing but the handles of the videos: the
    collections, the number and order of the videos, every other field and
    the subtitle tracks stay; a second relink with the same batch changes
    nothing any more; a relink with an empty batch changes nothing at
    all. *)
Theorem relink_only_rebinds_handles (state : AppState) (files : list File.t) :
  let state' := reducer state (UPDATE_PATHS files) in
  collections state' = collections state /\
  map persistentPart (videos state') = map persistentPart (videos state) /\
  map VideoAsset.subtitles (videos state')
  = map VideoAsset.subtitles (videos state) /\
  reducer state' (UPDATE_PATHS files) = state' /\
  reducer state (UPDATE_PATHS []) = state.
Proof.
  intros state'. unfold state'. cbn [reducer collections videos].
  split; [reflexivity|].
  split; [rewrite map_map; apply map_ext; intros v;
          apply relinkVideo_persistentPart|].
  split; [rewrite map_map; apply map_ext; intros v;
          apply relinkVideo_persistentPart|].
  split.
  - f_equal. rewrite map_map. apply map_ext. intros v.
    apply relinkVideo_idempotent.
  - destruct state as [cs vs]. cbn [collections videos]. f_equal.
    rewrite <- (map_id vs) at 2. apply map_ext. intros v.
    unfold relinkVideo, looseMatch. reflexivity.
Qed.

(** X11. Relinking never loses a handle: a video that has one keeps one, so
    the number of videos without a handle never grows. *)
Theorem relink_never_unbinds (state : AppState) (files : list File.t) :
  let state' := reducer state (UPDATE_PATHS files) in
  (unresolved (videos state') <= unresolved (videos state))%nat /\
  Forall2 (fun v v' => VideoAsset.fileHandle v' = None ->
                       VideoAsset.fileHandle v = None)
          (videos state) (videos state').
Proof.
  intros state'. unfold state'. cbn [reducer videos]. unfold unresolved.
  induction (videos state) as [|v vs [IHn IHf]]; simpl.
  - split; [lia|constructor].
  - split.
    + destruct (VideoAsset.fileHandle (relinkVideo (buildFileMap files) v))
        eqn:E; [destruct (VideoAsset.fileHandle v); simpl; lia|].
      rewrite (relinkVideo_keeps_bound _ _ E). simpl. lia.
    + constructor; [apply relinkVideo_keeps_bound|exact IHf].
Qed.

(** ** Export, again *)

Lemma encode_video_ignores_handles (v : VideoAsset.t) :
  Encode.video (dropHandles v) = Encode.video v.
Proof.
  unfold Encode.video, dropHandles. simpl. rewrite map_map. reflexivity.
Qed.

Lemma encode_video_relink (fileMap : JsMap.t File.t) (v : VideoAsset.t) :
  Encode.video (relinkVideo fileMap v) = Encode.video v.
Proof.
  destruct (relinkVideo_cases fileMap v) as [->|[h ->]]; reflexivity.
Qed.

(** X12. The exported document does not depend on any handle: relinking
    does not change it, and exporting the state loaded from a document
    gives that document again. *)
Theorem export_ignores_handles (state before : AppState)
    (files : list File.t) :
  handleExportData (reducer state (UPDATE_PATHS files)) = handleExportData state /\
  handleExportData (persisted state) = handleExportData state /\
  option_map handleExportData
    (importIndex before (Some (handleExportData state)))
  = Some (handleExportData state).
Proof.
  assert (Hp : handleExportData (persisted state) = handleExportData state).
  { unfold handleExportData, persisted. cbn [collections videos].
    rewrite map_map. do 5 f_equal. apply map_ext.
    apply encode_video_ignores_handles. }
  split; [|split; [exact Hp|]].
  - unfold handleExportData. cbn [reducer collections videos].
    rewrite map_map. do 5 f_equal. apply map_ext. apply encode_video_relink.
  - unfold importIndex.
    change (fst (handleImportData (Some (handleExportData state))))
      with (Some (handleExportData state)).
    cbv iota. rewrite decode_export. cbn [option_map reducer]. now rewrite Hp.
Qed.

(** ** From ingestion to relinking *)

Lemma importVideos_origin (P : Platform) (cid : jsstring) (seed : nat)
    (files : list File.t) (v : VideoAsset.t) :
  In v (importVideos P cid seed files) ->
  exists f, In f files /\ isVideoFile f = true /\
            VideoAsset.fileHandle v = Some f /\
            VideoAsset.relativePath v = File.webkitRelativePath f.
Proof.
  rewrite importVideos_eq. intros Hin.
  apply in_map_iff in Hin as [[k f] [<- Hp]].
  apply in_combine_r in Hp. apply filter_In in Hp as [Hf Hv].
  exists f. cbn [fst snd]. repeat split; try assumption;
    apply processVideo_fields.
Qed.

(** X13. A library ingested from a folder, exported, loaded again and
    relinked with the same folder has every video bound to its own file
    again, provided the files of the folder have non-empty, pairwise
    distinct relative paths; the subtitle tracks stay without a handle. *)
Theorem relink_restores_ingested_handles (P : Platform) (cid : jsstring)
    (seed : nat) (files : list File.t)
    (collections0 : list Collection.t) (before : AppState) :
  (forall f, In f files -> truthy (File.webkitRelativePath f) = true) ->
  NoDup (map File.webkitRelativePath files) ->
  let state := mkAppState collections0 (importVideos P cid seed files) in
  exists loaded,
    importIndex before (Some (handleExportData state)) = Some loaded /\
    Forall (fun v => VideoAsset.fileHandle v = None) (videos loaded) /\
    map VideoAsset.fileHandle (videos (reducer loaded (UPDATE_PATHS files)))
    = map VideoAsset.fileHandle (videos state) /\
    Forall (fun v => Forall (fun s => SubtitleTrack.fileHandle s = None)
                            (VideoAsset.subtitles v))
           (videos (reducer loaded (UPDATE_PATHS files))).
Proof.
  intros Hpath Hnd state. exists (persisted state).
  assert (Hkeys : map fileKey files = map File.webkitRelativePath files).
  { apply map_ext_in. intros f Hf. unfold fileKey. now rewrite (Hpath f Hf). }
  rewrite <- Hkeys in Hnd.
  split; [|split; [|split]].
  - unfold importIndex.
    change (fst (handleImportData (Some (handleExportData state))))
      with (Some (handleExportData state)).
    cbv iota. now rewrite decode_export.
  - apply Forall_forall. intros v Hv. cbn [persisted videos] in Hv.
    apply in_map_iff in Hv as [v0 [<- _]]. reflexivity.
  - cbn [persisted reducer videos state]. rewrite !map_map.
    apply map_ext_in. intros v Hv.
    destruct (importVideos_origin _ _ _ _ _ Hv) as [f [Hf [_ [Hh Hr]]]].
    rewrite relinkVideo_batch.
    cbn [dropHandles VideoAsset.relativePath]. rewrite Hr.
    assert (Hk : fileKey f = File.webkitRelativePath f)
      by (unfold fileKey; now rewrite (Hpath f Hf)).
    rewrite <- Hk, (lastWithKey_NoDup files f Hnd Hf). now rewrite Hh.
  - apply Forall_forall. intros v Hv. cbn [persisted reducer videos] in Hv.
    apply in_map_iff in Hv as [v1 [<- Hv1]].
    apply in_map_iff in Hv1 as [v0 [<- _]].
    rewrite (proj2 (relinkVideo_persistentPart _ _)).
    cbn [dropHandles VideoAsset.subtitles].
    apply Forall_forall. intros s Hs. apply in_map_iff in Hs as [s0 [<- _]].
    reflexivity.
Qed.

Lemma relink_restores_ingested_handles_witness :
  exists loaded,
    importIndex initialState (Some (handleExportData
      (mkAppState [] (importVideos examplePlatform (str "c1") 0 exampleBatch))))
    = Some loaded /\
    Forall (fun v => VideoAsset.fileHandle v = None) (videos loaded) /\
    map VideoAsset.fileHandle
        (videos (reducer loaded (UPDATE_PATHS exampleBatch)))
    = map VideoAsset.fileHandle
        (videos (mkAppState []
                   (importVideos examplePlatform (str "c1") 0 exampleBatch))) /\
    Forall (fun v => Forall (fun s => SubtitleTrack.fileHandle s = None)
                            (VideoAsset.subtitles v))
           (videos (reducer loaded (UPDATE_PATHS exampleBatch))).
Proof.
  apply (relink_restores_ingested_handles examplePlatform (str "c1") 0
           exampleBatch [] initialState).
  - intros f Hf. vm_compute in Hf.
    repeat (destruct Hf as [<-|Hf]; [reflexivity|]). contradiction.
  - vm_compute.
    repeat (apply NoDup_cons;
            [simpl; intros H;
             repeat (destruct H as [H|H]; [discriminate H|]); contradiction|]).
    apply NoDup_nil.
Defined.

(** ** Subtitles in the player *)

Lemma assToVtt_eq (assContent : jsstring) :
  assToVtt assContent
  = WEBVTT_HEADER ++ concat (map assLine (splitLines assContent)).
Proof.
  unfold assToVtt. generalize WEBVTT_HEADER as acc.
  induction (splitLines assContent) as [|l ls IH]; intros acc; simpl.
  - now rewrite app_nil_r.
  - now rewrite IH, app_assoc.
Qed.

Lemma converters_never_empty (content : jsstring) :
  truthy (srtToVtt content) = true /\ truthy (assToVtt content) = true.
Proof. rewrite assToVtt_eq. split; reflexivity. Qed.

Lemma loadSub_source (PP : PlayerPlatform) (subFile : SubtitleTrack.t)
    (handle : File.t) :
  SubtitleTrack.fileHandle subFile = Some handle ->
  loadSub PP subFile
  = Some (PlayerTrack.mk (SubtitleTrack.label subFile)
            (let fileName := toLowerCase (File.name handle) in
             if endsWith fileName (str ".srt")
             then textURL PP (srtToVtt (File.text handle))
             else if endsWith fileName (str ".ass")
                     || endsWith fileName (str ".ssa")
             then textURL PP (assToVtt (File.text handle))
             else fileURL PP handle)
            (SubtitleTrack.language subFile)).
Proof.
  intros Hh. unfold loadSub. rewrite Hh. cbv zeta.
  destruct (endsWith (toLowerCase (File.name handle)) (str ".srt")).
  - now rewrite (proj1 (converters_never_empty _)).
  - destruct (endsWith (toLowerCase (File.name handle)) (str ".ass")
              || endsWith (toLowerCase (File.name handle)) (str ".ssa")).
    + now rewrite (proj2 (converters_never_empty _)).
    + simpl truthy. cbv iota. destruct (truthy (fileURL PP handle)); reflexivity.
Qed.

(** X14. In the player a subtitle file named [.srt] is always shown from its
    Format A conversion and one named [.ass] or [.ssa] from its Format B
    conversion, never from the raw file: the converters never return an
    empty text, so the fallback to the raw file is only taken by files with
    another extension. *)
Theorem player_uses_converted_subtitles (PP : PlayerPlatform)
    (subFile : SubtitleTrack.t) (handle : File.t) :
  SubtitleTrack.fileHandle subFile = Some handle ->
  let fileName := toLowerCase (File.name handle) in
  let source :=
    if endsWith fileName (str ".srt") then textURL PP (srtToVtt (File.text handle))
    else if endsWith fileName (str ".ass") || endsWith fileName (str ".ssa")
    then textURL PP (assToVtt (File.text handle))
    else fileURL PP handle in
  truthy (srtToVtt (File.text handle)) = true /\
  truthy (assToVtt (File.text handle)) = true /\
  loadSub PP subFile
  = Some (PlayerTrack.mk (SubtitleTrack.label subFile) source
            (SubtitleTrack.language subFile)).
Proof.
  intros Hh fileName source.
  split; [apply converters_never_empty|].
  split; [apply converters_never_empty|].
  now apply loadSub_source.
Qed.

Lemma player_uses_converted_subtitles_witness :
  loadSub (mkPlayerPlatform (fun f => str "blob:" ++ File.name f)
                            (fun t => str "blob:text"))
          (subtitleTrack (libFile "movie.en.SRT" ""))
  = Some (PlayerTrack.mk (str "movie.en.SRT") (str "blob:text") (str "en")).
Proof.
  exact (proj2 (proj2
           (player_uses_converted_subtitles
              (mkPlayerPlatform (fun f => str "blob:" ++ File.name f)
                                (fun t => str "blob:text"))
              (subtitleTrack (libFile "movie.en.SRT" ""))
              (libFile "movie.en.SRT" "") eq_refl))).
Defined.

Lemma loadSubs_live (PP : PlayerPlatform) (subs : list File.t) :
  exists tracks,
    loadSubs PP (map subtitleTrack subs) = Some tracks /\
    map PlayerTrack.label tracks = map File.name subs.
Proof.
  induction subs as [|f subs [tracks [Ht Hl]]]; simpl.
  - now exists [].
  - rewrite (loadSub_source PP (subtitleTrack f) f eq_refl).
    rewrite Ht. eexists. split; [reflexivity|]. simpl. now rewrite Hl.
Qed.

Lemma loadSubs_dead (PP : PlayerPlatform) (subs : list SubtitleTrack.t) :
  subs <> [] ->
  Forall (fun s => SubtitleTrack.fileHandle s = None) subs ->
  loadSubs PP subs = None.
Proof.
  intros Hne Hall. destruct subs as [|s subs]; [contradiction|].
  inversion Hall as [|? ? Hs _]; subst. simpl. unfold loadSub. now rewrite Hs.
Qed.

(** X15. The subtitle tracks of a freshly ingested video all load in the
    player, under the names of their files.  Once the library went through
    export and import, a video with at least one subtitle track loads none
    of them, relinked or not: relinking rebinds the video only, and the
    loading loop fails on the first track without a file. *)
Theorem subtitles_load_until_reload (P : Platform) (PP : PlayerPlatform)
    (files : list File.t) (cid : jsstring) (n : nat) (file : File.t)
    (batch : list File.t) :
  let v := processVideo P files (buildIndex P files) cid n file in
  (exists tracks,
      loadSubs PP (VideoAsset.subtitles v) = Some tracks /\
      map PlayerTrack.label tracks
      = map SubtitleTrack.label (VideoAsset.subtitles v)) /\
  (VideoAsset.subtitles v <> [] ->
   loadSubs PP (VideoAsset.subtitles (dropHandles v)) = None /\
   loadSubs PP (VideoAsset.subtitles
                  (relinkVideo (buildFileMap batch) (dropHandles v))) = None).
Proof.
  intros v. unfold v. rewrite processVideo_subtitles.
  set (subs := matchSubtitles _ _). split.
  - destruct (loadSubs_live PP subs) as [tracks [Ht Hl]].
    exists tracks. split; [exact Ht|]. rewrite Hl, map_map. reflexivity.
  - intros Hne.
    assert (Hdead : loadSubs PP (VideoAsset.subtitles
                      (dropHandles (processVideo P files (buildIndex P files)
                                      cid n file))) = None).
    { apply loadSubs_dead.
      - cbn [dropHandles VideoAsset.subtitles]. rewrite processVideo_subtitles.
        fold subs. destruct (map subtitleTrack subs); [contradiction|discriminate].
      - cbn [dropHandles VideoAsset.subtitles]. apply Forall_forall.
        intros s Hs. apply in_map_iff in Hs as [s0 [<- _]]. reflexivity. }
    split; [exact Hdead|].
    now rewrite (proj2 (relinkVideo_persistentPart _ _)).
Qed.

Lemma subtitles_load_until_reload_witness :
  loadSubs (mkPlayerPlatform (fun f => str "blob:" ++ File.name f)
                             (fun t => str "blob:text"))
           (VideoAsset.subtitles
              (relinkVideo (buildFileMap exampleBatch)
                 (dropHandles
                    (processVideo examplePlatform exampleBatch
                       (buildIndex examplePlatform exampleBatch) (str "c1") 0
                       (libFile "Movie.mp4" "video/mp4")))))
  = None.
Proof.
  refine (proj2 (proj2
            (subtitles_load_until_reload examplePlatform _ exampleBatch
               (str "c1") 0 (libFile "Movie.mp4" "video/mp4") exampleBatch) _)).
  vm_compute. intros H. discriminate H.
Defined.

(** ** Format B, again *)

Lemma split_length (c : ascii) (s : jsstring) :
  length (split c s) = S (count_occ ascii_dec s c).
Proof.
  induction s as [|d s IH]; [reflexivity|]. simpl.
  destruct (Ascii.eqb d c) eqn:E.
  - apply Ascii.eqb_eq in E. subst d.
    destruct (ascii_dec c c); [|contradiction]. simpl. now rewrite IH.
  - apply Ascii.eqb_neq in E.
    destruct (ascii_dec d c); [contradiction|].
    pose proof (split_nonempty c s) as Hne. revert IH Hne.
    destruct (split c s); intros IH Hne; [contradiction|exact IH].
Qed.

Lemma first_occurrence (c : ascii) (s : jsstring) :
  ~ In c s \/ exists pre post, s = pre ++ c :: post /\ ~ In c pre.
Proof.
  induction s as [|d s IH]; [left; tauto|].
  destruct (ascii_dec d c) as [->|Hne].
  - right. exists [], s. split; [reflexivity|tauto].
  - destruct IH as [Hno|[pre [post [-> Hpre]]]].
    + left. intros [H|H]; [contradiction|tauto].
    + right. exists (d :: pre), post. split; [reflexivity|].
      intros [H|H]; [contradiction|tauto].
Qed.

Lemma indexOfAux_absent (c : ascii) (s : jsstring) (i : Z) :
  ~ In c s -> indexOfAux c s i = -1.
Proof.
  revert i. induction s as [|d s IH]; intros i H; simpl; [reflexivity|].
  destruct (Ascii.eqb d c) eqn:E.
  - apply Ascii.eqb_eq in E. subst d. exfalso. apply H. now left.
  - apply IH. intros Hin. apply H. now right.
Qed.

Lemma count_occ_absent (c : ascii) (s : jsstring) :
  ~ In c s -> count_occ ascii_dec s c = 0%nat.
Proof. intros H. now apply count_occ_not_In. Qed.

Lemma assLine_needs_nine_commas (line : jsstring) :
  (count_occ ascii_dec line ","%char < 9)%nat -> assLine line = [].
Proof.
  intros Hcount. unfold assLine.
  destruct (startsWith line (str "Dialogue:")); [|reflexivity].
  destruct (first_occurrence "," line) as [Hno|[pre [post [-> Hpre]]]].
  - unfold indexOf. change (Z.to_nat (Z.max 0 0)) with 0%nat. cbn [skipn].
    now rewrite (indexOfAux_absent _ _ _ Hno).
  - unfold indexOf. change (Z.to_nat (Z.max 0 0)) with 0%nat. cbn [skipn].
    rewrite (indexOfAux_first _ _ _ _ Hpre).
    change (Z.of_nat 0) with 0. rewrite Z.add_0_l.
    replace (Z.of_nat (length pre) =? -1) with false
      by (symmetry; apply Z.eqb_neq; lia).
    replace (pre ++ ","%char :: post) with ((pre ++ [","%char]) ++ post)
      by (now rewrite <- app_assoc).
    replace (Z.of_nat (length pre) + 1)
      with (Z.of_nat (length (pre ++ [","%char])))
      by (rewrite length_app; simpl; lia).
    rewrite substringFrom_app, split_length.
    rewrite count_occ_app, (count_occ_absent _ _ Hpre) in Hcount.
    rewrite count_occ_cons_eq in Hcount by reflexivity.
    replace (9 <=? S (count_occ ascii_dec post ","%char))%nat with false
      by (symmetry; apply Nat.leb_gt; lia).
    reflexivity.
Qed.

(** X16. The Format B output is the header followed by the cues of the
    lines, in order.  A line that does not start with "Dialogue:" gives
    nothing, and neither does a record with fewer than nine commas; so a
    script without a usable record converts to the bare header. *)
Theorem assToVtt_skips_unusable_lines :
  (forall content,
      assToVtt content
      = WEBVTT_HEADER ++ concat (map assLine (splitLines content))) /\
  (forall line, startsWith line (str "Dialogue:") = false -> assLine line = []) /\
  (forall line, (count_occ ascii_dec line ","%char < 9)%nat ->
                assLine line = []) /\
  (forall content,
      (forall line, In line (splitLines content) ->
                    startsWith line (str "Dialogue:") = false \/
                    (count_occ ascii_dec line ","%char < 9)%nat) ->
      assToVtt content = WEBVTT_HEADER).
Proof.
  split; [apply assToVtt_eq|]. split.
  - intros line H. unfold assLine. now rewrite H.
  - split; [apply assLine_needs_nine_commas|].
    intros content Hall. rewrite assToVtt_eq.
    rewrite <- (app_nil_r WEBVTT_HEADER) at 2. f_equal.
    induction (splitLines content) as [|l ls IH]; [reflexivity|]. simpl.
    rewrite IH by (intros line Hin; apply Hall; now right).
    rewrite app_nil_r. destruct (Hall l (or_introl eq_refl)) as [H|H].
    + unfold assLine. now rewrite H.
    + now apply assLine_needs_nine_commas.
Qed.

Lemma assToVtt_skips_unusable_lines_witness :
  assToVtt (str "[Events]" ++ [CR; LF]
              ++ str "Dialogue: 0,0:00:05.00,0:00:07.00,Default,text")
  = WEBVTT_HEADER.
Proof.
  apply (proj2 (proj2 (proj2 assToVtt_skips_unusable_lines))).
  intros line Hin. vm_compute in Hin.
  destruct Hin as [<-|[<-|[]]].
  - left. reflexivity.
  - right. vm_compute. lia.
Defined.

(** Induction along the scan of [stripTags]. *)
Lemma strip_ind (Q : jsstring -> Prop) :
  Q [] ->
  (forall tl rest, afterTagBody tl false = Some rest -> Q rest ->
                   Q ("{"%char :: tl)) ->
  (forall c tl, c <> "{"%char \/ afterTagBody tl false = None ->
                Q tl -> Q (c :: tl)) ->
  forall s, Q s.
Proof.
  intros Hnil Htag Hkeep s.
  remember (length s) as n eqn:Hn. revert s Hn.
  induction n as [n IH] using lt_wf_ind. intros s Hn.
  destruct s as [|c tl]; [exact Hnil|].
  assert (Htl : Q tl) by (apply (IH (length tl)); [subst n; simpl; lia|reflexivity]).
  destruct (ascii_dec c "{") as [->|Hc]; [|apply Hkeep; [now left|exact Htl]].
  destruct (afterTagBody tl false) as [rest|] eqn:E.
  - apply (Htag tl rest E). apply (IH (length rest)); [|reflexivity].
    apply afterTagBody_shorter in E. subst n. simpl. lia.
  - apply Hkeep; [now right|exact Htl].
Qed.

Lemma stripTags_keep (c : ascii) (tl : jsstring) :
  c <> "{"%char \/ afterTagBody tl false = None ->
  stripTags (c :: tl) = c :: stripTags tl.
Proof.
  intros H. rewrite stripTags_eq.
  destruct (Ascii.eqb c "{") eqn:E; [|reflexivity].
  apply Ascii.eqb_eq in E. destruct H as [H|H]; [contradiction|].
  now rewrite H.
Qed.

Lemma stripTags_drop (tl rest : jsstring) :
  afterTagBody tl false = Some rest ->
  stripTags ("{"%char :: tl) = stripTags rest.
Proof. intros H. rewrite stripTags_eq. simpl. now rewrite H. Qed.

Lemma afterTagBody_suffix (s : jsstring) :
  forall seen rest, afterTagBody s seen = Some rest ->
                    exists pre, s = pre ++ rest.
Proof.
  induction s as [|c s IH]; intros seen rest H; simpl in H; [discriminate|].
  destruct (Ascii.eqb c "}").
  - destruct seen; [|discriminate]. injection H as <-. now exists [c].
  - destruct (IH _ _ H) as [pre ->]. now exists (c :: pre).
Qed.

Lemma afterTagBody_no_brace (s : jsstring) (seen : bool) :
  ~ In "}"%char s -> afterTagBody s seen = None.
Proof.
  revert seen. induction s as [|c s IH]; intros seen H; simpl; [reflexivity|].
  destruct (Ascii.eqb c "}") eqn:E.
  - apply Ascii.eqb_eq in E. subst c. exfalso. apply H. now left.
  - apply IH. intros Hin. apply H. now right.
Qed.

Lemma afterTagBody_seen (s : jsstring) :
  afterTagBody s true = None -> ~ In "}"%char s.
Proof.
  induction s as [|c s IH]; simpl; [tauto|].
  destruct (Ascii.eqb c "}") eqn:E; [discriminate|].
  apply Ascii.eqb_neq in E. intros H [Hc|Hin]; [congruence|].
  now apply IH.
Qed.

Lemma stripTags_subset (s : jsstring) :
  forall c, In c (stripTags s) -> In c s.
Proof.
  induction s as [| tl rest E IH | d tl H IH] using strip_ind; intros c Hin.
  - exact Hin.
  - rewrite (stripTags_drop _ _ E) in Hin. right.
    destruct (afterTagBody_suffix _ _ _ E) as [pre ->].
    apply in_or_app. right. now apply IH.
  - rewrite (stripTags_keep _ _ H) in Hin.
    destruct Hin as [<-|Hin]; [now left|right; now apply IH].
Qed.

Lemma stripTags_no_tag_at_head (s : jsstring) : tagAt (stripTags s) = false.
Proof.
  induction s as [| tl rest E IH | d tl H IH] using strip_ind.
  - reflexivity.
  - now rewrite (stripTags_drop _ _ E).
  - rewrite (stripTags_keep _ _ H). unfold tagAt.
    destruct (Ascii.eqb d "{") eqn:Ed; [|reflexivity].
    apply Ascii.eqb_eq in Ed. destruct H as [H|H]; [contradiction|].
    simpl. destruct tl as [|e tl]; [reflexivity|].
    simpl in H. destruct (Ascii.eqb e "}") eqn:Ee.
    + apply Ascii.eqb_eq in Ee. subst e.
      rewrite stripTags_keep by (left; discriminate).
      simpl. reflexivity.
    + apply afterTagBody_seen in H.
      rewrite afterTagBody_no_brace; [reflexivity|].
      intros Hin. apply stripTags_subset in Hin.
      destruct Hin as [He|Hin]; [|contradiction].
      apply Ascii.eqb_neq in Ee. congruence.
Qed.

Lemma stripTags_no_tag (s : jsstring) :
  forall k, tagAt (skipn k (stripTags s)) = false.
Proof.
  induction s as [| tl rest E IH | d tl H IH] using strip_ind; intros k.
  - now destruct k.
  - rewrite (stripTags_drop _ _ E). apply IH.
  - destruct k as [|k]; [apply stripTags_no_tag_at_head|].
    rewrite (stripTags_keep _ _ H). simpl. apply IH.
Qed.

Lemma stripTags_fixed (s : jsstring) :
  (forall k, tagAt (skipn k s) = false) -> stripTags s = s.
Proof.
  induction s as [|c s IH]; intros H; [reflexivity|].
  rewrite stripTags_keep.
  - f_equal. apply IH. intros k. apply (H (S k)).
  - specialize (H 0%nat). simpl in H.
    destruct (Ascii.eqb c "{") eqn:E.
    + right. destruct (afterTagBody s false); [discriminate|reflexivity].
    + left. now apply Ascii.eqb_neq.
Qed.

(** X17. After the cleanup of a cue text no override tag is left: nowhere
    in the result does the pattern of a tag (an opening brace, at least one
    character other than a closing brace, a closing brace) match, nothing
    was added to the text, a text without a tag is returned as it is, and
    cleaning twice is cleaning once. *)
Theorem stripTags_removes_every_tag (s : jsstring) :
  (forall k, tagAt (skipn k (stripTags s)) = false) /\
  (forall c, In c (stripTags s) -> In c s) /\
  ((forall k, tagAt (skipn k s) = false) -> stripTags s = s) /\
  stripTags (stripTags s) = stripTags s.
Proof.
  split; [apply stripTags_no_tag|]. split; [apply stripTags_subset|].
  split; [apply stripTags_fixed|].
  apply stripTags_fixed, stripTags_no_tag.
Qed.

Lemma stripTags_removes_every_tag_witness :
  stripTags (str "{}a}b{c") = str "{}a}b{c".
Proof.
  apply (proj1 (proj2 (proj2 (stripTags_removes_every_tag (str "{}a}b{c"))))).
  intros k. do 8 (destruct k as [|k]; [vm_compute; reflexivity|]).
  now destruct k.
Defined.

(** ** Format A, again *)

Lemma replaceTimestamps_fixed (t : jsstring) :
  (forall p, timestampAt (skipn p t) = false) -> replaceTimestamps t = t.
Proof.
  induction t as [|c t IH]; intros H; [reflexivity|].
  rewrite replaceTimestamps_miss by apply (H 0%nat).
  f_equal. apply IH. intros p. apply (H (S p)).
Qed.

(** X18. The Format A output never contains a carriage return and is never
    empty; and a text in which no timestamp of the form dd:dd:dd,ddd occurs
    (a file already in the target punctuation, or with malformed cues)
    passes through unchanged apart from the header and the line endings. *)
Theorem srtToVtt_passes_other_text (s : jsstring) :
  ~ In CR (srtToVtt s) /\
  truthy (srtToVtt s) = true /\
  ((forall p, timestampAt (skipn p (normalizeLineEndings s)) = false) ->
   srtToVtt s = WEBVTT_HEADER ++ normalizeLineEndings s).
Proof.
  split; [|split; [reflexivity|]].
  - unfold srtToVtt. fold (normalizeLineEndings s). intros Hin.
    apply in_app_or in Hin as [Hin|Hin].
    + vm_compute in Hin. intuition discriminate.
    + apply In_nth_error in Hin as [i Hi].
      apply replaceTimestamps_pointwise in Hi as [Hi|[Hd _]].
      * apply nth_error_In in Hi. now apply normalizeLineEndings_no_CR in Hi.
      * discriminate Hd.
  - intros H. unfold srtToVtt. fold (normalizeLineEndings s).
    now rewrite (replaceTimestamps_fixed _ H).
Qed.

Lemma srtToVtt_passes_other_text_witness :
  srtToVtt (str "1" ++ [CR; LF] ++ str "00:00:01.000 --> 0:00:02,5")
  = WEBVTT_HEADER
      ++ normalizeLineEndings
           (str "1" ++ [CR; LF] ++ str "00:00:01.000 --> 0:00:02,5").
Proof.
  apply (proj2 (proj2 (srtToVtt_passes_other_text _))).
  intros p. do 29 (destruct p as [|p]; [vm_compute; reflexivity|]).
  now destruct p.
Defined.

(** ** Tags and views *)

Lemma nat_of_ascii_inj (c d : ascii) : nat_of_ascii c = nat_of_ascii d -> c = d.
Proof.
  intros H. rewrite <- (ascii_nat_embedding c), <- (ascii_nat_embedding d).
  now rewrite H.
Qed.

Lemma jsltb_trichotomy (a : jsstring) :
  forall b, jsltb a b = false -> jsltb b a = false -> a = b.
Proof.
  induction a as [|c a IH]; intros [|d b] Hab Hba; simpl in *;
    try discriminate; [reflexivity|].
  apply orb_false_iff in Hab as [Hlt1 Hr1].
  apply orb_false_iff in Hba as [Hlt2 Hr2].
  apply Nat.ltb_ge in Hlt1. apply Nat.ltb_ge in Hlt2.
  assert (Heq : nat_of_ascii c = nat_of_ascii d) by lia.
  rewrite Heq, Nat.eqb_refl in Hr1, Hr2. simpl in Hr1, Hr2.
  apply nat_of_ascii_inj in Heq. subst d. f_equal. now apply IH.
Qed.

Lemma insertSorted_perm (x : jsstring) (l : list jsstring) :
  Permutation (insertSorted x l) (x :: l).
Proof.
  induction l as [|y l IH]; simpl; [reflexivity|].
  destruct (jsltb y x); [|reflexivity].
  rewrite IH. apply perm_swap.
Qed.

Lemma sortStrings_perm (l : list jsstring) : Permutation (sortStrings l) l.
Proof.
  induction l as [|x l IH]; simpl; [reflexivity|].
  rewrite insertSorted_perm. now constructor.
Qed.

Lemma insertSorted_sorted (x : jsstring) (l : list jsstring) :
  Sorted (fun a b => jsltb a b = true) l -> ~ In x l ->
  Sorted (fun a b => jsltb a b = true) (insertSorted x l).
Proof.
  induction l as [|y l IH]; intros Hs Hx; simpl; [repeat constructor|].
  apply Sorted_inv in Hs as [Hs Hhd].
  destruct (jsltb y x) eqn:E.
  - constructor; [apply IH; [exact Hs|intros H; apply Hx; now right]|].
    destruct l as [|z l]; simpl; [now constructor|].
    destruct (jsltb z x); constructor; [|exact E].
    now apply HdRel_inv in Hhd.
  - constructor; [now constructor|]. constructor.
    destruct (jsltb x y) eqn:E'; [reflexivity|].
    exfalso. apply Hx. left. symmetry. now apply jsltb_trichotomy.
Qed.

Lemma sortStrings_sorted (l : list jsstring) :
  NoDup l -> Sorted (fun a b => jsltb a b = true) (sortStrings l).
Proof.
  induction l as [|x l IH]; intros Hnd; simpl; [constructor|].
  inversion Hnd as [|? ? Hx Hnd']; subst.
  apply insertSorted_sorted; [now apply IH|].
  intros H. apply Hx. now apply (Permutation_in _ (sortStrings_perm l)).
Qed.

(** X19. The tag list offered for filtering contains exactly the tags of
    the visible videos, each once, in ascending code-unit order. *)
Theorem allTags_sorted_and_unique (visible : list VideoAsset.t) :
  Sorted (fun a b => jsltb a b = true) (allTags visible) /\
  NoDup (allTags visible) /\
  (forall t, In t (allTags visible)
             <-> exists v, In v visible /\
                           In t (VideoMetadata.tags (VideoAsset.metadata v))).
Proof.
  unfold allTags.
  set (tags := fromSet _ []).
  assert (Hnd : NoDup tags) by apply fromSet_NoDup.
  split; [now apply sortStrings_sorted|]. split.
  - apply (Permutation_NoDup (Permutation_sym (sortStrings_perm tags)) Hnd).
  - intros t. split.
    + intros Hin. apply (Permutation_in _ (sortStrings_perm tags)) in Hin.
      apply fromSet_in in Hin as [Hin _]. apply in_concat in Hin as [l [Hl Ht]].
      apply in_map_iff in Hl as [v [<- Hv]]. now exists v.
    + intros [v [Hv Ht]].
      apply (Permutation_in _ (Permutation_sym (sortStrings_perm tags))).
      apply fromSet_in. split; [|tauto]. apply in_concat.
      exists (VideoMetadata.tags (VideoAsset.metadata v)).
      split; [apply in_map_iff; now exists v|exact Ht].
Qed.

Lemma NoDup_filter {A : Type} (q : A -> bool) (l : list A) :
  NoDup l -> NoDup (filter q l).
Proof.
  induction 1 as [|x l Hx Hnd IH]; simpl; [constructor|].
  destruct (q x); [|exact IH].
  constructor; [|exact IH]. intros H. apply filter_In in H. tauto.
Qed.

(** X20. Toggling a tag flips whether it is selected and leaves every other
    tag as it was; a selection without duplicates stays without duplicates,
    and toggling a tag on and off again gives the selection back. *)
Theorem toggle_tag_flips_membership (prev : list jsstring) (tag : jsstring) :
  (In tag (handleToggleTag prev tag) <-> ~ In tag prev) /\
  (forall t, t <> tag -> (In t (handleToggleTag prev tag) <-> In t prev)) /\
  (NoDup prev -> NoDup (handleToggleTag prev tag)) /\
  (~ In tag prev -> handleToggleTag (handleToggleTag prev tag) tag = prev).
Proof.
  unfold handleToggleTag at 1 2 3.
  destruct (existsb (fun t => jseqb t tag) prev) eqn:E.
  - pose proof (proj1 (existsb_jseqb_flip tag prev) E) as Hin.
    split; [|split; [|split]].
    + split; [|tauto]. intros H. apply filter_In in H as [_ H].
      now rewrite jseqb_refl in H.
    + intros t Ht. rewrite filter_In, negb_true_iff, jseqb_neq. tauto.
    + apply NoDup_filter.
    + tauto.
  - assert (Hnot : ~ In tag prev).
    { intros H. apply existsb_jseqb_flip in H. congruence. }
    split; [|split; [|split]].
    + split; [tauto|]. intros _. apply in_or_app. right. now left.
    + intros t Ht. rewrite in_app_iff. simpl. split; [|tauto].
      intros [H|[H|[]]]; [exact H|congruence].
    + intros Hnd. apply NoDup_app; [exact Hnd|repeat constructor; tauto|].
      intros a Ha [<-|[]]. contradiction.
    + intros _.
      assert (Hon : handleToggleTag prev tag = prev ++ [tag])
        by (unfold handleToggleTag; now rewrite E).
      rewrite Hon. unfold handleToggleTag.
      assert (Hex : existsb (fun t => jseqb t tag) (prev ++ [tag]) = true).
      { apply existsb_jseqb_flip, in_or_app. right. now left. }
      rewrite Hex, filter_app. simpl. rewrite jseqb_refl. simpl.
      rewrite app_nil_r. apply filter_all. intros t Ht.
      apply negb_true_iff, jseqb_neq. intros ->. contradiction.
Qed.

Lemma toggle_tag_flips_membership_witness :
  handleToggleTag (handleToggleTag [str "Drama"] (str "Family")) (str "Family")
  = [str "Drama"].
Proof.
  apply (proj2 (proj2 (proj2
           (toggle_tag_flips_membership [str "Drama"] (str "Family"))))).
  intros [H|[]]. discriminate H.
Defined.

Lemma includes_empty (s : jsstring) : includes s [] = true.
Proof. destruct s; reflexivity. Qed.

(** X21. What the grid shows with an empty search box is what playback is
    drawn from: for every state, selected collection and tag selection the
    filtered grid and the play scope are the same list, namely the visible
    videos that carry every selected tag. *)
Theorem grid_shows_the_play_scope (state : AppState)
    (selectedCollectionId : option jsstring) (selectedTags : list jsstring) :
  filteredVideos (visibleVideos state selectedCollectionId) [] selectedTags
  = playScope state selectedCollectionId selectedTags /\
  playScope state selectedCollectionId selectedTags
  = filter (hasAllTags selectedTags) (visibleVideos state selectedCollectionId).
Proof.
  unfold filteredVideos, playScope.
  set (scope := visibleVideos state selectedCollectionId).
  destruct selectedTags as [|t ts].
  - simpl. split.
    + apply filter_all. intros v _. now rewrite includes_empty.
    + symmetry. apply filter_all. intros v _. reflexivity.
  - cbn [length Nat.ltb Nat.leb Nat.eqb orb]. split; [|reflexivity].
    apply filter_ext. intros v. change (toLowerCase []) with (@nil ascii).
    now rewrite includes_empty.
Qed.

(** X22. Starting playback on a video plays that video and queues the
    other videos of the play scope: whatever arrangement the shuffle
    returns, a video is in the queue exactly when it is in the scope and has
    another id, so the started video is never queued behind itself. *)
Theorem playback_queue_excludes_start
    (shuffleArray : list VideoAsset.t -> list VideoAsset.t)
    (state : AppState) (selectedCollectionId : option jsstring)
    (selectedTags : list jsstring) (startVideo : VideoAsset.t) :
  (forall l, Permutation (shuffleArray l) l) ->
  let '(nowPlaying, queue) :=
    startPlayback shuffleArray state selectedCollectionId selectedTags
                  startVideo in
  nowPlaying = startVideo /\
  (forall v, In v queue
             <-> In v (playScope state selectedCollectionId selectedTags) /\
                 VideoAsset.id v <> VideoAsset.id startVideo) /\
  (length queue <= length (playScope state selectedCollectionId selectedTags))%nat.
Proof.
  intros Hperm. unfold startPlayback.
  set (scope := playScope state selectedCollectionId selectedTags).
  set (others := filter _ scope).
  split; [reflexivity|]. split.
  - intros v. split.
    + intros Hin. apply (Permutation_in _ (Hperm others)) in Hin.
      apply filter_In in Hin as [Hin Hid].
      split; [exact Hin|]. now apply jseqb_neq, negb_true_iff.
    + intros [Hin Hid].
      apply (Permutation_in _ (Permutation_sym (Hperm others))).
      apply filter_In. split; [exact Hin|].
      now apply negb_true_iff, jseqb_neq.
  - rewrite (Permutation_length (Hperm others)). apply filter_length_le.
Qed.

Lemma playback_queue_excludes_start_witness :
  fst (startPlayback (@rev VideoAsset.t) exampleLibrary None []
         (storedAsset "A/B/movie.mp4"))
  = storedAsset "A/B/movie.mp4".
Proof.
  pose proof (playback_queue_excludes_start (@rev VideoAsset.t) exampleLibrary
                None [] (storedAsset "A/B/movie.mp4")
                (fun l => Permutation_sym (Permutation_rev l))) as H.
  destruct (startPlayback (@rev VideoAsset.t) exampleLibrary None []
              (storedAsset "A/B/movie.mp4")) as [nowPlaying queue].
  exact (proj1 H).
Defined.

(** ** Editing tags *)

Lemma truthy_nonempty (s : jsstring) : truthy s = true <-> s <> [].
Proof. destruct s; simpl; split; congruence. Qed.

(** X23. Adding a tag in the editor adds the trimmed input at the end of
    the tag list, unless it is blank or already there, in which case
    nothing changes, not even the input field.  So a list without
    duplicates and without an empty tag stays so; title and plot are not
    touched; and removing the tag just added gives the form back. *)
Theorem add_tag_keeps_tags_clean (formData : MetadataPanel.FormData)
    (newTag : jsstring) :
  let result := MetadataPanel.addTag formData newTag in
  let tags := VideoMetadata.tags formData in
  let tags' := VideoMetadata.tags (fst result) in
  VideoMetadata.title (fst result) = VideoMetadata.title formData /\
  VideoMetadata.plot (fst result) = VideoMetadata.plot formData /\
  (NoDup tags -> NoDup tags') /\
  (~ In [] tags -> ~ In [] tags') /\
  (trim newTag = [] \/ In (trim newTag) tags -> result = (formData, newTag)) /\
  (trim newTag <> [] -> ~ In (trim newTag) tags ->
   tags' = tags ++ [trim newTag] /\ snd result = [] /\
   MetadataPanel.removeTag (fst result) (trim newTag) = formData).
Proof.
  intros result tags tags'. subst tags' result. unfold MetadataPanel.addTag.
  fold tags.
  destruct (truthy (trim newTag)) eqn:Et.
  - apply truthy_nonempty in Et.
    destruct (existsb (fun t => jseqb t (trim newTag)) tags) eqn:Ee.
    + apply existsb_jseqb_flip in Ee. simpl.
      split; [reflexivity|]. split; [reflexivity|]. split; [tauto|].
      split; [tauto|]. split; [intros _; reflexivity|].
      intros _ H. contradiction.
    + assert (Hnew : ~ In (trim newTag) tags).
      { intros H. apply existsb_jseqb_flip in H. congruence. }
      simpl. split; [reflexivity|]. split; [reflexivity|].
      split; [|split; [|split]].
      * intros Hnd. apply NoDup_app; [exact Hnd|repeat constructor; tauto|].
        intros a Ha [<-|[]]. contradiction.
      * intros Hne Hin. apply in_app_or in Hin as [Hin|[Hin|[]]];
          [contradiction|]. now apply Et.
      * intros [H|H]; contradiction.
      * intros _ _. split; [reflexivity|]. split; [reflexivity|].
        unfold MetadataPanel.removeTag, MetadataPanel.withTags. simpl.
        rewrite filter_app. simpl. rewrite jseqb_refl. simpl.
        rewrite app_nil_r, filter_all.
        -- destruct formData; reflexivity.
        -- intros t Ht. apply negb_true_iff, jseqb_neq. fold tags in Hnew.
           intros ->. contradiction.
  - simpl. assert (Hblank : trim newTag = []).
    { destruct (trim newTag); [reflexivity|discriminate]. }
    split; [reflexivity|]. split; [reflexivity|]. split; [tauto|].
    split; [tauto|]. split; [intros _; reflexivity|].
    intros H. contradiction.
Qed.

Lemma add_tag_keeps_tags_clean_witness :
  MetadataPanel.removeTag
    (fst (MetadataPanel.addTag (VideoMetadata.mk (str "T") [] [str "Drama"])
            (str "  Family ")))
    (trim (str "  Family "))
  = VideoMetadata.mk (str "T") [] [str "Drama"].
Proof.
  refine (proj2 (proj2
            (proj2 (proj2 (proj2 (proj2 (proj2
               (add_tag_keeps_tags_clean
                  (VideoMetadata.mk (str "T") [] [str "Drama"])
                  (str "  Family ")))))) _ _))).
  - vm_compute. intros H. discriminate H.
  - vm_compute. intros [H|[]]. discriminate H.
Defined.

(** ** Sidecars, again *)

Lemma dirOf_parent (f : File.t) (dir name : jsstring) :
  File.webkitRelativePath f = dir ++ "/"%char :: name ->
  ~ In "/"%char name -> dirOf f = dir.
Proof.
  intros Hp Hn. unfold dirOf. rewrite Hp.
  rewrite split_app, (split_without _ _ Hn). unfold sliceInit.
  rewrite removelast_snoc. apply (join_split "/").
Qed.

Lemma toLowerCase_slash (a b : jsstring) :
  toLowerCase (a ++ "/"%char :: b) = toLowerCase a ++ "/"%char :: toLowerCase b.
Proof. unfold toLowerCase. now rewrite map_app. Qed.

(** X24. For file names within U+0000..U+00FF, where lower-casing works
    character by character: the metadata file that the editor exports for a
    video, put next to the video under the offered name, is recognised as a
    metadata sidecar of that video by the next import: the sidecar lookup
    finds a file, and what it finds is an [.nfo] file.  (Names beyond that
    range are not covered: there the lower-cased name of the video need not
    be a part of the lower-cased path of the sidecar.) *)
Theorem exported_sidecar_is_found (files : list File.t) (video nfo : File.t)
    (asset : VideoAsset.t) (dir : jsstring) :
  ~ In "/"%char (File.name video) ->
  File.webkitRelativePath video = dir ++ "/"%char :: File.name video ->
  VideoAsset.fileName asset = File.name video ->
  File.name nfo = MetadataPanel.exportFileName asset ->
  File.webkitRelativePath nfo = dir ++ "/"%char :: File.name nfo ->
  In nfo files ->
  exists found,
    findNfo files (dirOf video) (nameWithoutExt video) = Some found /\
    In found files /\
    endsWith (toLowerCase (File.name found)) (str ".nfo") = true.
Proof.
  intros Hname Hvpath Hasset Hnfo Hnpath Hin.
  rewrite (dirOf_parent video dir _ Hvpath Hname).
  assert (Hmatch :
            startsWith (toLowerCase (File.webkitRelativePath nfo))
                       (toLowerCase dir ++ str "/" ++ nameWithoutExt video)
            && endsWith (toLowerCase (File.name nfo)) (str ".nfo") = true).
  { rewrite Hnpath, toLowerCase_slash, Hnfo.
    unfold MetadataPanel.exportFileName, nameWithoutExt. rewrite Hasset.
    set (stem := substring (File.name video) 0 (lastIndexOf (File.name video) ".")).
    apply andb_true_iff. split.
    - apply startsWith_prefix. destruct (truthy stem) eqn:Es.
      + exists (str ".nfo"). rewrite toLowerCase_app.
        change (toLowerCase (str ".nfo")) with (str ".nfo").
        rewrite <- !app_assoc. reflexivity.
      + destruct stem; [|discriminate].
        exists (toLowerCase (File.name video ++ str ".nfo")).
        change (toLowerCase []) with (@nil ascii).
        rewrite <- !app_assoc. reflexivity.
    - apply endsWith_suffix.
      exists (toLowerCase (if truthy stem then stem else File.name video)).
      now rewrite toLowerCase_app. }
  unfold findNfo.
  destruct (find _ files) as [found|] eqn:E.
  - exists found. apply find_some in E as [Hf Hp].
    apply andb_true_iff in Hp as [_ Hp]. auto.
  - pose proof (find_none _ _ E nfo Hin) as Hn. cbv beta in Hn.
    rewrite Hmatch in Hn. discriminate.
Qed.

Lemma exported_sidecar_is_found_witness :
  exists found,
    findNfo [libFile "Movie.mp4" "video/mp4"; libFile "Movie.nfo" ""]
            (dirOf (libFile "Movie.mp4" "video/mp4"))
            (nameWithoutExt (libFile "Movie.mp4" "video/mp4"))
    = Some found /\
    In found [libFile "Movie.mp4" "video/mp4"; libFile "Movie.nfo" ""] /\
    endsWith (toLowerCase (File.name found)) (str ".nfo") = true.
Proof.
  apply (exported_sidecar_is_found _ (libFile "Movie.mp4" "video/mp4")
           (libFile "Movie.nfo" "")
           (ingest examplePlatform exampleBatch (libFile "Movie.mp4" "video/mp4"))
           (str "lib")).
  - vm_compute. intuition discriminate.
  - reflexivity.
  - reflexivity.
  - vm_compute. reflexivity.
  - reflexivity.
  - simpl. right. left. reflexivity.
Defined.

Lemma parseNFO_tags_eq (l acc : list jsstring) :
  fold_left (fun tags el => if truthy el then tags ++ [el] else tags) l acc
  = acc ++ filter truthy l.
Proof.
  revert acc. induction l as [|x l IH]; intros acc; simpl.
  - now rewrite app_nil_r.
  - rewrite IH. destruct (truthy x); [|reflexivity].
    now rewrite <- app_assoc.
Qed.

(** X25. What the sidecar parser returns: the title is the text of the
    title element, empty without one; the plot is the text of the plot
    element when that is not empty, else the text of the outline element,
    else empty; the tags are the non-empty texts of the genre elements
    followed by the non-empty texts of the tag elements, so no tag is ever
    empty. *)
Theorem parseNFO_fields (P : Platform) (file : File.t) :
  let doc := File.text file in
  exists title plot tags,
    parseNFO P file
    = VideoMetadata.mkPartial (Some title) (Some plot) (Some tags) /\
    (forall t, querySelector P doc (str "title") = Some t -> title = t) /\
    (querySelector P doc (str "title") = None -> title = []) /\
    (forall p, querySelector P doc (str "plot") = Some p -> p <> [] ->
               plot = p) /\
    (querySelector P doc (str "plot") = None \/
     querySelector P doc (str "plot") = Some [] ->
     plot = orElse (querySelector P doc (str "outline")) []) /\
    tags = filter truthy (querySelectorAll P doc (str "genre"))
             ++ filter truthy (querySelectorAll P doc (str "tag")) /\
    ~ In [] tags.
Proof.
  intros doc. unfold parseNFO. fold doc. do 3 eexists.
  split; [reflexivity|].
  assert (Hid : forall l : list jsstring,
             map (fun el => orElse (Some el) []) l = l).
  { induction l as [|x l IH]; [reflexivity|]. cbn [map].
    rewrite IH. destruct x; reflexivity. }
  rewrite parseNFO_tags_eq, Hid.
  split; [|split; [|split; [|split; [|split; [reflexivity|]]]]].
  - intros t ->. destruct t; reflexivity.
  - intros ->. reflexivity.
  - intros p -> Hp. destruct p; [contradiction|reflexivity].
  - intros [->| ->]; reflexivity.
  - intros Hin. apply in_app_or in Hin as [Hin|Hin];
      apply filter_In in Hin as [_ Hin]; discriminate.
Qed.

(** X26. A metadata sidecar without a title element, or with an empty one,
    blanks the title of the ingested video: the default taken from the file
    name is lost, and the editor then shows the file name in its place. *)
Theorem sidecar_without_title_blanks_title (P : Platform)
    (files : list File.t) (cid : jsstring) (n : nat) (file nfoFile : File.t) :
  findNfo files (dirOf file) (nameWithoutExt file) = Some nfoFile ->
  orElse (querySelector P (File.text nfoFile) (str "title")) [] = [] ->
  let v := processVideo P files (buildIndex P files) cid n file in
  VideoMetadata.title (VideoAsset.metadata v) = [] /\
  VideoMetadata.title (MetadataPanel.initialFormData v) = File.name file.
Proof.
  intros Hfound Htitle v.
  assert (Hmeta : VideoMetadata.title (VideoAsset.metadata v) = []).
  { unfold v. rewrite processVideo_metadata. unfold resolveMetadata.
    rewrite Hfound. unfold parseNFO. cbn [VideoMetadata.spread
      VideoMetadata.ptitle VideoMetadata.title]. exact Htitle. }
  split; [exact Hmeta|].
  unfold MetadataPanel.initialFormData. cbn [VideoMetadata.title].
  rewrite Hmeta. simpl. unfold v. apply processVideo_fields.
Qed.

Lemma sidecar_without_title_blanks_title_witness :
  VideoMetadata.title
    (VideoAsset.metadata
       (processVideo examplePlatform
          [libFile "Movie.mp4" "video/mp4"; libFile "movie.nfo" ""]
          (buildIndex examplePlatform
             [libFile "Movie.mp4" "video/mp4"; libFile "movie.nfo" ""])
          (str "c1") 0 (libFile "Movie.mp4" "video/mp4"))) = [] /\
  VideoMetadata.title
    (MetadataPanel.initialFormData
       (processVideo examplePlatform
          [libFile "Movie.mp4" "video/mp4"; libFile "movie.nfo" ""]
          (buildIndex examplePlatform
             [libFile "Movie.mp4" "video/mp4"; libFile "movie.nfo" ""])
          (str "c1") 0 (libFile "Movie.mp4" "video/mp4")))
  = str "Movie.mp4".
Proof.
  apply (sidecar_without_title_blanks_title examplePlatform
           [libFile "Movie.mp4" "video/mp4"; libFile "movie.nfo" ""]
           (str "c1") 0 (libFile "Movie.mp4" "video/mp4")
           (libFile "movie.nfo" "")).
  - vm_compute. reflexivity.
  - vm_compute. reflexivity.
Defined.

(** ** Language codes *)

Lemma toLowerChar_idempotent (c : ascii) :
  toLowerChar (toLowerChar c) = toLowerChar c.
Proof. destruct c as [[] [] [] [] [] [] [] []]; vm_compute; reflexivity. Qed.

Lemma split_chars (c : ascii) (s : jsstring) :
  forall seg ch, In seg (split c s) -> In ch seg -> In ch s.
Proof.
  induction s as [|d s IH]; intros seg ch Hseg Hch; simpl in Hseg.
  - destruct Hseg as [<-|[]]. contradiction.
  - destruct (Ascii.eqb d c).
    + destruct Hseg as [<-|Hseg]; [contradiction|].
      right. now apply (IH seg).
    + pose proof (split_nonempty c s) as Hne. revert IH Hseg Hne.
      destruct (split c s) as [|seg0 segs]; intros IH Hseg Hne;
        [contradiction|].
      destruct Hseg as [<-|Hseg].
      * destruct Hch as [<-|Hch]; [now left|].
        right. apply (IH seg0); [now left|exact Hch].
      * right. apply (IH seg); [now right|exact Hch].
Qed.

(** X27. The language guessed for a subtitle file is always a lower-case
    string of exactly two characters. *)
Theorem guessLanguage_two_lowercase (subName : jsstring) :
  length (guessLanguage subName) = 2%nat /\
  toLowerCase (guessLanguage subName) = guessLanguage subName.
Proof.
  unfold guessLanguage.
  set (parts := split "." (toLowerCase subName)).
  destruct (2 <? length parts)%nat eqn:El; [|split; reflexivity].
  apply Nat.ltb_lt in El.
  destruct (length (nth (length parts - 2) parts []) =? 2)%nat eqn:E2;
    [|split; reflexivity].
  apply Nat.eqb_eq in E2. split; [exact E2|].
  assert (Hin : In (nth (length parts - 2) parts []) parts)
    by (apply nth_In; lia).
  unfold toLowerCase at 1. rewrite <- (map_id (nth _ parts [])) at 2.
  apply map_ext_in. intros ch Hch.
  apply (split_chars _ _ _ _ Hin) in Hch.
  apply in_map_iff in Hch as [c0 [<- _]]. apply toLowerChar_idempotent.
Qed.

(** ** The exported sidecar document *)

Lemma generateNFOContent_shape (m : VideoMetadata.t) :
  generateNFOContent m
  = nfoHead ++ VideoMetadata.title m ++ "<"%char :: str "/title>" ++ [LF]
      ++ str "  <plot>" ++ VideoMetadata.plot m ++ "<"%char :: str "/plot>"
      ++ [LF] ++ str "  " ++ genreLines (VideoMetadata.tags m).
Proof.
  unfold generateNFOContent, nfoHead, genreLines.
  repeat rewrite <- app_assoc. reflexivity.
Qed.

Lemma genreLines_cons (t : jsstring) (r : list jsstring) :
  genreLines (t :: r)
  = str "<genre>" ++ t ++ "<"%char :: str "/genre>"
      ++ match r with
         | [] => genreLines []
         | _ :: _ => LF :: str "  " ++ genreLines r
         end.
Proof.
  unfold genreLines, genreElement. destruct r as [|u r].
  - cbn [map join]. repeat rewrite <- app_assoc. reflexivity.
  - cbn [map join]. repeat rewrite <- app_assoc. reflexivity.
Qed.

Lemma cut_at_first (c : ascii) (a : jsstring) :
  forall b x y,
    ~ In c a -> ~ In c b -> a ++ c :: x = b ++ c :: y -> a = b /\ x = y.
Proof.
  induction a as [|d a IH]; intros [|e b] x y Ha Hb H; simpl in H.
  - injection H as ->. now split.
  - injection H as <- _. exfalso. apply Hb. now left.
  - injection H as -> _. exfalso. apply Ha. now left.
  - injection H as -> H.
    destruct (IH b x y) as [-> ->]; [| |exact H|now split].
    + intros Hin. apply Ha. now right.
    + intros Hin. apply Hb. now right.
Qed.

Lemma genreLines_inj (ts1 : list jsstring) :
  forall ts2,
    Forall (fun t => ~ In "<"%char t) ts1 ->
    Forall (fun t => ~ In "<"%char t) ts2 ->
    genreLines ts1 = genreLines ts2 -> ts1 = ts2.
Proof.
  induction ts1 as [|t1 r1 IH]; intros [|t2 r2] H1 H2 H.
  - reflexivity.
  - rewrite genreLines_cons in H. discriminate H.
  - rewrite genreLines_cons in H. discriminate H.
  - rewrite !genreLines_cons in H.
    apply app_inv_head in H.
    inversion H1 as [|? ? Ht1 Hr1]; subst.
    inversion H2 as [|? ? Ht2 Hr2]; subst.
    apply cut_at_first in H as [-> H]; [|assumption|assumption].
    apply app_inv_head in H. f_equal.
    destruct r1 as [|u1 r1], r2 as [|u2 r2].
    + reflexivity.
    + discriminate H.
    + discriminate H.
    + apply IH; [assumption|assumption|].
      injection H as H. exact H.
Qed.

(** X28. The exported sidecar document determines the metadata whenever
    title, plot and tags contain no "<": two such metadata with the same
    document are equal.  Nothing is escaped, so with a "<" in a text two
    different metadata can give the same document. *)
Theorem generateNFOContent_injective (m1 m2 : VideoMetadata.t) :
  (markupFree m1 -> markupFree m2 ->
   generateNFOContent m1 = generateNFOContent m2 -> m1 = m2) /\
  (exists a b, a <> b /\ generateNFOContent a = generateNFOContent b).
Proof.
  split.
  - intros [Ht1 [Hp1 Hg1]] [Ht2 [Hp2 Hg2]] H.
    rewrite !generateNFOContent_shape in H.
    apply app_inv_head in H.
    apply cut_at_first in H as [Htitle H]; [|assumption|assumption].
    apply (app_inv_head (str "/title>" ++ [LF] ++ str "  <plot>")) in H.
    apply cut_at_first in H as [Hplot H]; [|assumption|assumption].
    apply (app_inv_head (str "/plot>" ++ [LF] ++ str "  ")) in H.
    apply genreLines_inj in H; [|assumption|assumption].
    destruct m1, m2. simpl in *. now subst.
  - exists (VideoMetadata.mk (str "x</title>" ++ [LF] ++ str "  <plot>y")
                             (str "z") []),
           (VideoMetadata.mk (str "x")
                             (str "y</title>" ++ [LF] ++ str "  <plot>z") []).
    split; [intros H; discriminate H|].
    vm_compute. reflexivity.
Qed.

Ltac not_in_literal :=
  let H := fresh "H" in
  intros H; vm_compute in H;
  repeat (destruct H as [H|H]; [discriminate H|]); exact H.

Lemma generateNFOContent_injective_witness :
  VideoMetadata.mk (str "Movie") (str "A plot") [str "Drama"; str "Family"]
  = VideoMetadata.mk (str "Movie") (str "A plot") [str "Drama"; str "Family"].
Proof.
  apply (proj1 (generateNFOContent_injective _ _)).
  - unfold markupFree. cbn [VideoMetadata.title VideoMetadata.plot
                              VideoMetadata.tags].
    split; [not_in_literal|split; [not_in_literal|]].
    constructor; [not_in_literal|].
    constructor; [not_in_literal|constructor].
  - unfold markupFree. cbn [VideoMetadata.title VideoMetadata.plot
                              VideoMetadata.tags].
    split; [not_in_literal|split; [not_in_literal|]].
    constructor; [not_in_literal|].
    constructor; [not_in_literal|constructor].
  - reflexivity.
Defined.

Lemma parseNFO_fields_witness :
  VideoMetadata.ptitle
    (parseNFO examplePlatform
       (File.mk (str "movie.nfo") (str "lib/movie.nfo") [] 0 (str "The Movie")))
  = Some (str "The Movie").
Proof.
  destruct (parseNFO_fields examplePlatform
              (File.mk (str "movie.nfo") (str "lib/movie.nfo") [] 0
                 (str "The Movie")))
    as [title [plot [tags [Heq [Htitle _]]]]].
  rewrite Heq. cbn [VideoMetadata.ptitle]. f_equal.
  apply Htitle. reflexivity.
Defined.

(** ** Loading a legacy index *)

Section Fields.
Implicit Types (fields : list (jsstring * json)) (k : jsstring).

Lemma set_same fields k (x : json) :
  JsMap.get fields k = Some x -> JsMap.set fields k x = fields.
Proof.
  induction fields as [|[k0 v0] fields IH]; simpl; [discriminate|].
  destruct (jseqb k0 k); [now intros [= ->]|].
  intros H. now rewrite IH.
Qed.

Lemma get_without fields k k' :
  JsMap.get (filter (fun e => negb (jseqb (fst e) k)) fields) k'
  = if jseqb k k' then None else JsMap.get fields k'.
Proof.
  induction fields as [|[k0 v0] fields IH]; simpl.
  - now destruct (jseqb k k').
  - destruct (jseqb k0 k) eqn:E0; simpl.
    + apply jseqb_eq in E0. subst k0. rewrite IH.
      destruct (jseqb k k'); reflexivity.
    + rewrite IH. destruct (jseqb k0 k') eqn:E1; [|reflexivity].
      apply jseqb_eq in E1. subst k0. now rewrite jseqb_sym, E0.
Qed.

Lemma withField_get fields k (value : option json) k' :
  JsMap.get (withField fields k value) k'
  = if jseqb k k' then value else JsMap.get fields k'.
Proof.
  destruct value as [x|]; simpl.
  - apply JsMapFacts.get_set.
  - apply get_without.
Qed.

Lemma withField_self fields k :
  withField fields k (JsMap.get fields k) = fields.
Proof.
  destruct (JsMap.get fields k) as [x|] eqn:E; simpl.
  - now apply set_same.
  - apply filter_all. intros [k0 v0] Hin. simpl.
    apply negb_true_iff, jseqb_neq. intros ->.
    apply JsMapFacts.get_none in E. apply E.
    apply in_map_iff. now exists (k, v0).
Qed.
End Fields.

(** X29. An index of the legacy layout, with [containers] instead of
    [collections] and objects as entries, is loaded after migration: the
    containers become the collections unchanged; every video gets its
    [containerId] as [collectionId] and an empty subtitle list, and keeps
    every other field. *)
Theorem legacy_index_is_migrated
    (containers legacyVideos : list (list (jsstring * json))) :
  let data :=
    JObj [(str "containers", JArr (map JObj containers));
          (str "videos", JArr (map JObj legacyVideos))] in
  exists migrated,
    handleImportData (Some data)
    = (Some (JObj [(str "collections", JArr (map JObj containers));
                   (str "videos", JArr migrated)]),
       MSG_LEGACY) /\
    Forall2
      (fun v v' =>
         getField v' (str "collectionId") = JsMap.get v (str "containerId") /\
         getField v' (str "subtitles") = Some (JArr []) /\
         forall k, k <> str "collectionId" -> k <> str "subtitles" ->
                   getField v' k = JsMap.get v k)
      legacyVideos migrated.
Proof.
  intros data.
  set (migrate := fun v : list (jsstring * json) =>
         JObj (withField (withField v (str "collectionId")
                                    (JsMap.get v (str "containerId")))
                         (str "subtitles") (Some (JArr [])))).
  exists (map migrate legacyVideos). split.
  - unfold handleImportData, data.
    change (jsonTruthy (getField _ (str "collections"))) with false.
    change (jsonTruthy (getField _ (str "containers"))) with true.
    cbv iota. cbn [andb]. unfold migrateLegacy.
    change (getField _ (str "containers"))
      with (Some (JArr (map JObj containers))).
    change (getField _ (str "videos"))
      with (Some (JArr (map JObj legacyVideos))).
    cbv iota.
    rewrite (decode_all_map JObj migrateContainer JObj containers).
    + rewrite (decode_all_map JObj migrateVideo migrate legacyVideos);
        reflexivity.
    + intros c. unfold migrateContainer.
      change (getField (JObj c) (str "id")) with (JsMap.get c (str "id")).
      cbn [spreadFields]. now rewrite withField_self.
  - induction legacyVideos as [|v vs IH]; simpl; constructor; [|exact IH].
    unfold migrate, getField. split; [|split].
    + now rewrite !withField_get.
    + now rewrite withField_get.
    + intros k Hc Hs. rewrite !withField_get.
      replace (jseqb (str "subtitles") k) with false
        by (symmetry; apply jseqb_neq; intros Heq; apply Hs; now symmetry).
      replace (jseqb (str "collectionId") k) with false
        by (symmetry; apply jseqb_neq; intros Heq; apply Hc; now symmetry).
      reflexivity.
Qed.

Lemma legacy_index_is_migrated_witness :
  JsMap.get
    (withField
       (withField [(str "id", JStr (str "v1")); (str "containerId", JStr (str "c1"))]
          (str "collectionId") (Some (JStr (str "c1"))))
       (str "subtitles") (Some (JArr [])))
    (str "id")
  = Some (JStr (str "v1")).
Proof.
  destruct (legacy_index_is_migrated []
              [[(str "id", JStr (str "v1")); (str "containerId", JStr (str "c1"))]])
    as [migrated [Heq Hall]].
  injection Heq as Heq. subst migrated.
  inversion Hall as [|v v' vs vs' [_ [_ Hkeep]] _]; subst.
  apply (Hkeep (str "id")); intros H; discriminate H.
Defined.
